(** * Red-black tree of [RBT.hpp]: a shallow embedding over an explicit heap

    The C++ class [RBTree<T, Compare, Alloc>] is a pointer structure: every
    [RBNode] carries [parent], [right] and [left] pointers, the tree owns a
    [_root] pointer, and all operations walk and rewrite those pointers in
    place.  The embedding keeps that shape: nodes live in a finite map from
    addresses to records, [nullptr] is [None], and every member function is a
    computation in a small state-and-fault monad.  Dereferencing [nullptr] or
    a freed node is a [Fault]; [while] loops and recursion take fuel.

    The element type is instantiated at [int] with the default comparator
    [std::less<int>], modelled as [Z] with [Z.ltb]. *)

From Stdlib Require Import ZArith Lia Sorted.
From stdpp Require Import gmap list.

Local Open Scope Z_scope.

(** ** Nodes *)

Inductive e_color := BLACK | RED.

Global Instance e_color_eq_dec : EqDecision e_color.
Proof. solve_decision. Defined.

(** Addresses of allocated nodes. *)
Abbreviation addr := nat (only parsing).

(** A [node_pointer] is either [nullptr] ([None]) or the address of a node. *)
Abbreviation node_pointer := (option nat) (only parsing).

(** [struct RBNode]; [data] is a [T*] that [createNode] always fills, so the
    record stores the pointed-to value itself. *)
Record RBNode := mkRBNode {
  parent : node_pointer;
  right : node_pointer;
  left : node_pointer;
  data : Z;
  color : e_color
}.

Definition with_parent (v : node_pointer) (n : RBNode) : RBNode :=
  mkRBNode v (right n) (left n) (data n) (color n).
Definition with_right (v : node_pointer) (n : RBNode) : RBNode :=
  mkRBNode (parent n) v (left n) (data n) (color n).
Definition with_left (v : node_pointer) (n : RBNode) : RBNode :=
  mkRBNode (parent n) (right n) v (data n) (color n).
Definition with_color (v : e_color) (n : RBNode) : RBNode :=
  mkRBNode (parent n) (right n) (left n) (data n) v.

(** ** Program state: the heap of nodes, the tree's [_root], the allocator *)

Record state := mkState {
  mem : gmap addr RBNode;
  _root : node_pointer;
  next_free : addr
}.

(** [RBTree() : _root(nullptr)] on an empty heap. *)
Definition empty_tree : state := mkState ∅ None 1%nat.

(** ** The monad of member functions *)

Inductive fault := NullDeref | DanglingDeref.

Inductive outcome (A : Type) :=
| Done (x : A) (s : state)
| Fault (f : fault)
| OutOfFuel.
Arguments Done {A} x s.
Arguments Fault {A} f.
Arguments OutOfFuel {A}.

Definition M (A : Type) := state -> outcome A.

Definition ret {A} (x : A) : M A := fun s => Done x s.
Definition bind {A B} (m : M A) (k : A -> M B) : M B :=
  fun s => match m s with
           | Done x s' => k x s'
           | Fault f => Fault f
           | OutOfFuel => OutOfFuel
           end.
Definition out_of_fuel {A} : M A := fun _ => OutOfFuel.

Notation "x <- m ;; k" := (bind m (fun x => k))
  (at level 100, m at next level, k at level 200, right associativity).
Notation "m ;;; k" := (bind m (fun _ => k))
  (at level 100, k at level 200, right associativity).

(** [*p] for reading. *)
Definition load (p : node_pointer) : M RBNode := fun s =>
  match p with
  | None => Fault NullDeref
  | Some a => match mem s !! a with
              | Some n => Done n s
              | None => Fault DanglingDeref
              end
  end.

(** [p->field = v], as an update [f] of the node [*p]. *)
Definition store (p : node_pointer) (f : RBNode -> RBNode) : M unit := fun s =>
  match p with
  | None => Fault NullDeref
  | Some a => match mem s !! a with
              | Some n => Done tt (mkState (<[a := f n]> (mem s)) (_root s) (next_free s))
              | None => Fault DanglingDeref
              end
  end.

(** [p->field]. *)
Definition get {A} (field : RBNode -> A) (p : node_pointer) : M A :=
  n <- load p ;; ret (field n).
(** [p->f->g] and [p->f->g->h]. *)
Definition get2 {A} (f : RBNode -> node_pointer) (g : RBNode -> A)
    (p : node_pointer) : M A :=
  q <- get f p ;; get g q.
Definition get3 {A} (f g : RBNode -> node_pointer) (h : RBNode -> A)
    (p : node_pointer) : M A :=
  q <- get2 f g p ;; get h q.

Definition set_parent (p v : node_pointer) : M unit := store p (with_parent v).
Definition set_right (p v : node_pointer) : M unit := store p (with_right v).
Definition set_left (p v : node_pointer) : M unit := store p (with_left v).
Definition set_color (p : node_pointer) (c : e_color) : M unit := store p (with_color c).

Definition get_root : M node_pointer := fun s => Done (_root s) s.
Definition set_root (p : node_pointer) : M unit := fun s =>
  Done tt (mkState (mem s) p (next_free s)).

(** Pointer comparison [p == q]. *)
Definition ptr_eqb (p q : node_pointer) : bool := bool_decide (p = q).
Definition is_null (p : node_pointer) : bool :=
  match p with None => true | Some _ => false end.
Definition is_red (c : e_color) : bool :=
  match c with RED => true | BLACK => false end.
Definition is_black (c : e_color) : bool :=
  match c with BLACK => true | RED => false end.

(** [Compare comp], the default [std::less<int>]. *)
Definition comp (a b : Z) : bool := a <? b.

Module RBTree.

(** [createNode]: a fresh node, all links null, colour [RED]. *)
Definition createNode (value : Z) : M node_pointer := fun s =>
  let a := next_free s in
  Done (Some a)
       (mkState (<[a := mkRBNode None None None value RED]> (mem s))
                (_root s) (S a)).

(** [deleteNode]: frees the node. *)
Definition deleteNode (node : node_pointer) : M unit := fun s =>
  match node with
  | None => Fault NullDeref
  | Some a => match mem s !! a with
              | Some _ => Done tt (mkState (delete a (mem s)) (_root s) (next_free s))
              | None => Fault DanglingDeref
              end
  end.

Definition rightRotate (node : node_pointer) : M unit :=
  newNode <- get left node ;;
  nr <- get right newNode ;;
  set_left node nr ;;;
  nr <- get right newNode ;;
  (if is_null nr then ret tt
   else (nr <- get right newNode ;; set_parent nr node)) ;;;
  np <- get parent node ;;
  set_parent newNode np ;;;
  np <- get parent node ;;
  (if is_null np then set_root newNode
   else
     npr <- get2 parent right node ;;
     if ptr_eqb node npr
     then (np <- get parent node ;; set_right np newNode)
     else (np <- get parent node ;; set_left np newNode)) ;;;
  set_right newNode node ;;;
  set_parent node newNode.

Definition leftRotate (node : node_pointer) : M unit :=
  newNode <- get right node ;;
  nl <- get left newNode ;;
  set_right node nl ;;;
  nl <- get left newNode ;;
  (if is_null nl then ret tt
   else (nl <- get left newNode ;; set_parent nl node)) ;;;
  np <- get parent node ;;
  set_parent newNode np ;;;
  np <- get parent node ;;
  (if is_null np then set_root newNode
   else
     npl <- get2 parent left node ;;
     if ptr_eqb node npl
     then (np <- get parent node ;; set_left np newNode)
     else (np <- get parent node ;; set_right np newNode)) ;;;
  set_left newNode node ;;;
  set_parent node newNode.

(** [uncle && uncle->color == RED]. *)
Definition uncle_is_red (uncle : node_pointer) : M bool :=
  if is_null uncle then ret false
  else (c <- get color uncle ;; ret (is_red c)).

(** One iteration of the [while] body of [fixInsertionViolations], up to but
    not including the [if (k == _root) break;] test; returns the new [k]. *)
Definition fixInsertionViolations_body (k : node_pointer) : M node_pointer :=
  kp <- get parent k ;;
  kppr <- get3 parent parent right k ;;
  if ptr_eqb kp kppr then
    uncle <- get3 parent parent left k ;;
    ur <- uncle_is_red uncle ;;
    if ur then
      set_color uncle BLACK ;;;
      kp <- get parent k ;; set_color kp BLACK ;;;
      kpp <- get2 parent parent k ;; set_color kpp RED ;;;
      get2 parent parent k
    else
      kpl <- get2 parent left k ;;
      k <- (if ptr_eqb k kpl
            then (k <- get parent k ;; rightRotate k ;;; ret k)
            else ret k) ;;
      kp <- get parent k ;; set_color kp BLACK ;;;
      kpp <- get2 parent parent k ;; set_color kpp RED ;;;
      kpp <- get2 parent parent k ;; leftRotate kpp ;;;
      ret k
  else
    uncle <- get3 parent parent right k ;;
    ur <- uncle_is_red uncle ;;
    if ur then
      set_color uncle BLACK ;;;
      kp <- get parent k ;; set_color kp BLACK ;;;
      kpp <- get2 parent parent k ;; set_color kpp RED ;;;
      get2 parent parent k
    else
      kpr <- get2 parent right k ;;
      k <- (if ptr_eqb k kpr
            then (k <- get parent k ;; leftRotate k ;;; ret k)
            else ret k) ;;
      kp <- get parent k ;; set_color kp BLACK ;;;
      kpp <- get2 parent parent k ;; set_color kpp RED ;;;
      kpp <- get2 parent parent k ;; rightRotate kpp ;;;
      ret k.

(** [while (k->parent->color == RED) { body; if (k == _root) break; }] *)
Fixpoint fixInsertionViolations_loop (fuel : nat) (k : node_pointer) : M unit :=
  match fuel with
  | O => out_of_fuel
  | S fuel' =>
      c <- get2 parent color k ;;
      if is_red c then
        k <- fixInsertionViolations_body k ;;
        r <- get_root ;;
        if ptr_eqb k r then ret tt
        else fixInsertionViolations_loop fuel' k
      else ret tt
  end.

Definition fixInsertionViolations (fuel : nat) (k : node_pointer) : M unit :=
  fixInsertionViolations_loop fuel k ;;;
  r <- get_root ;; set_color r BLACK.

(** [s->left->color == BLACK && s->right->color == BLACK], with the
    short-circuit of [&&]: neither child pointer is tested against null. *)
Definition both_children_black (s : node_pointer) : M bool :=
  lc <- get2 left color s ;;
  if is_black lc then (rc <- get2 right color s ;; ret (is_black rc))
  else ret false.

(** One iteration of the [while] body of [fixDeleteViolations]; returns the
    new [x]. *)
Definition fixDeleteViolations_body (x : node_pointer) : M node_pointer :=
  xpl <- get2 parent left x ;;
  if ptr_eqb x xpl then
    s <- get2 parent right x ;;
    sc <- get color s ;;
    s <- (if is_red sc then
            set_color s BLACK ;;;
            xp <- get parent x ;; set_color xp RED ;;;
            xp <- get parent x ;; leftRotate xp ;;;
            get2 parent right x
          else ret s) ;;
    bb <- both_children_black s ;;
    if bb then
      set_color s RED ;;;
      get parent x
    else
      src <- get2 right color s ;;
      s <- (if is_black src then
              sl <- get left s ;; set_color sl BLACK ;;;
              set_color s RED ;;;
              rightRotate s ;;;
              get2 parent right x
            else ret s) ;;
      xpc <- get2 parent color x ;; set_color s xpc ;;;
      xp <- get parent x ;; set_color xp BLACK ;;;
      sr <- get right s ;; set_color sr BLACK ;;;
      xp <- get parent x ;; leftRotate xp ;;;
      get_root
  else
    s <- get2 parent left x ;;
    sc <- get color s ;;
    s <- (if is_red sc then
            set_color s BLACK ;;;
            xp <- get parent x ;; set_color xp RED ;;;
            xp <- get parent x ;; rightRotate xp ;;;
            get2 parent left x
          else ret s) ;;
    bb <- both_children_black s ;;
    if bb then
      set_color s RED ;;;
      get parent x
    else
      slc <- get2 left color s ;;
      s <- (if is_black slc then
              sr <- get right s ;; set_color sr BLACK ;;;
              set_color s RED ;;;
              leftRotate s ;;;
              get2 parent left x
            else ret s) ;;
      xpc <- get2 parent color x ;; set_color s xpc ;;;
      xp <- get parent x ;; set_color xp BLACK ;;;
      sl <- get left s ;; set_color sl BLACK ;;;
      xp <- get parent x ;; rightRotate xp ;;;
      get_root.

(** [x != this->_root && x->color == BLACK]: [x] is dereferenced only when
    it differs from the root. *)
Definition fixDeleteViolations_guard (x : node_pointer) : M bool :=
  r <- get_root ;;
  if ptr_eqb x r then ret false
  else (c <- get color x ;; ret (is_black c)).

Fixpoint fixDeleteViolations_loop (fuel : nat) (x : node_pointer) : M node_pointer :=
  match fuel with
  | O => out_of_fuel
  | S fuel' =>
      g <- fixDeleteViolations_guard x ;;
      if g then
        x <- fixDeleteViolations_body x ;;
        fixDeleteViolations_loop fuel' x
      else ret x
  end.

Definition fixDeleteViolations (fuel : nat) (x : node_pointer) : M unit :=
  x <- fixDeleteViolations_loop fuel x ;;
  set_color x BLACK.

Definition replaceNode (node replacement : node_pointer) : M unit :=
  r <- get_root ;;
  (if ptr_eqb node r then set_root replacement
   else
     npl <- get2 parent left node ;;
     if ptr_eqb node npl
     then (np <- get parent node ;; set_left np replacement)
     else (np <- get parent node ;; set_right np replacement)) ;;;
  if is_null replacement then ret tt
  else (np <- get parent node ;; set_parent replacement np).

(** [size(node_pointer)]: the recursion depth is bounded by [fuel]. *)
Fixpoint size_from (fuel : nat) (node : node_pointer) : M nat :=
  match fuel with
  | O => out_of_fuel
  | S fuel' =>
      if is_null node then ret 0%nat
      else
        l <- get left node ;; sl <- size_from fuel' l ;;
        r <- get right node ;; sr <- size_from fuel' r ;;
        ret (sl + sr + 1)%nat
  end.

(** [clear(node_pointer)]. *)
Fixpoint clear_from (fuel : nat) (node : node_pointer) : M unit :=
  match fuel with
  | O => out_of_fuel
  | S fuel' =>
      if is_null node then ret tt
      else
        l <- get left node ;; clear_from fuel' l ;;;
        r <- get right node ;; clear_from fuel' r ;;;
        deleteNode node
  end.

(** The descent loop of [insert]: returns the final [parent]. *)
Fixpoint insert_descend (fuel : nat) (node curr_node parent : node_pointer)
  : M node_pointer :=
  match fuel with
  | O => out_of_fuel
  | S fuel' =>
      if is_null curr_node then ret parent
      else
        nd <- get data node ;; cd <- get data curr_node ;;
        if comp nd cd
        then (l <- get left curr_node ;; insert_descend fuel' node l curr_node)
        else (r <- get right curr_node ;; insert_descend fuel' node r curr_node)
  end.

Definition insert (fuel : nat) (val : Z) : M unit :=
  node <- createNode val ;;
  r <- get_root ;;
  if is_null r then
    set_root node ;;;
    set_color node BLACK
  else
    curr_node <- get_root ;;
    parent <- insert_descend fuel node curr_node None ;;
    set_parent node parent ;;;
    nd <- get data node ;; pd <- get data parent ;;
    (if comp nd pd then set_left parent node else set_right parent node) ;;;
    fixInsertionViolations fuel node.

(** [while (successor->left != nullptr) successor = successor->left;] *)
Fixpoint leftmost (fuel : nat) (node : node_pointer) : M node_pointer :=
  match fuel with
  | O => out_of_fuel
  | S fuel' =>
      l <- get left node ;;
      if is_null l then ret node
      else (l <- get left node ;; leftmost fuel' l)
  end.

Fixpoint rightmost (fuel : nat) (node : node_pointer) : M node_pointer :=
  match fuel with
  | O => out_of_fuel
  | S fuel' =>
      r <- get right node ;;
      if is_null r then ret node
      else (r <- get right node ;; rightmost fuel' r)
  end.

(** The unlinking part of [remove(node_pointer)], for a non-null [node]:
    everything up to [deleteNode].  Returns [originalColor] and [newNode]. *)
Definition remove_unlink (fuel : nat) (node : node_pointer)
  : M (e_color * node_pointer) :=
  originalColor <- get color node ;;
  l <- get left node ;;
  r <- get right node ;;
  if is_null l && is_null r then
    replaceNode node None ;;;
    ret (originalColor, None)
  else
    r <- get right node ;;
    if is_null r then
      newNode <- get left node ;;
      l <- get left node ;; replaceNode node l ;;;
      ret (originalColor, newNode)
    else
      l <- get left node ;;
      if is_null l then
        newNode <- get right node ;;
        r <- get right node ;; replaceNode node r ;;;
        ret (originalColor, newNode)
      else
        r <- get right node ;;
        successor <- leftmost fuel r ;;
        originalColor <- get color successor ;;
        newNode <- get right successor ;;
        sp <- get parent successor ;;
        (if ptr_eqb sp node then ret tt
         else
           sr <- get right successor ;; replaceNode successor sr ;;;
           nr <- get right node ;; set_right successor nr ;;;
           sr <- get right successor ;; nr <- get right node ;;
           set_parent sr nr) ;;;
        replaceNode node successor ;;;
        nl <- get left node ;; set_left successor nl ;;;
        sl <- get left successor ;; set_parent sl successor ;;;
        nc <- get color node ;; set_color successor nc ;;;
        ret (originalColor, newNode).

(** [remove(node_pointer)]. *)
Definition remove (fuel : nat) (node : node_pointer) : M unit :=
  if is_null node then ret tt
  else
    res <- remove_unlink fuel node ;;
    deleteNode node ;;;
    if is_black (fst res) then fixDeleteViolations fuel (snd res)
    else ret tt.

(** The loop condition of [search] on line 438 is written
    [(!comp(val, d && !comp(d, val)))], where [d] stands for the
    dereferenced [curr->data], and lacks one
    closing parenthesis.  [search_guard] keeps every token where it stands
    and closes the [while] at the end of the line: the second argument of the
    outer [comp] is then the conjunction, converted from [bool] to [int]. *)
Definition search_guard (val d : Z) : bool :=
  negb (comp val (Z.b2z (negb (d =? 0) && negb (comp d val)))).

(** The other way to balance the line closes the first [comp] call after
    [d]: the loop then runs while the current node is
    equivalent to [val]. *)
Definition search_guard_regrouped (val d : Z) : bool :=
  negb (comp val d) && negb (comp d val).

Fixpoint search_loop (guard : Z -> Z -> bool) (fuel : nat) (val : Z)
    (curr : node_pointer) : M node_pointer :=
  match fuel with
  | O => out_of_fuel
  | S fuel' =>
      if is_null curr then ret curr
      else
        d <- get data curr ;;
        if guard val d then
          d <- get data curr ;;
          if comp val d
          then (l <- get left curr ;; search_loop guard fuel' val l)
          else (r <- get right curr ;; search_loop guard fuel' val r)
        else ret curr
  end.

Definition search_with (guard : Z -> Z -> bool) (fuel : nat) (val : Z)
  : M node_pointer :=
  r <- get_root ;;
  stop <- (if is_null r then ret true
           else (d <- get data r ;; ret (d =? val))) ;;
  if (stop : bool) then get_root
  else
    curr <- get_root ;;
    search_loop guard fuel val curr.

Definition search := search_with search_guard.

(** [remove(const T&)]. *)
Definition remove_value (fuel : nat) (val : Z) : M unit :=
  node <- search fuel val ;;
  if is_null node then ret tt else remove fuel node.

Definition getRoot : M node_pointer := get_root.

Definition size (fuel : nat) : M nat :=
  r <- get_root ;; size_from fuel r.

Definition first (fuel : nat) : M node_pointer :=
  curr <- get_root ;;
  if is_null curr then ret None
  else leftmost fuel curr.

Definition last (fuel : nat) : M node_pointer :=
  curr <- get_root ;;
  if is_null curr then ret None
  else rightmost fuel curr.

Definition clear (fuel : nat) : M unit :=
  r <- get_root ;; clear_from fuel r ;;;
  set_root None.

(** [while (node->parent != nullptr && node == node->parent->right)
      node = node->parent;] *)
Fixpoint climb (fuel : nat) (node : node_pointer) : M node_pointer :=
  match fuel with
  | O => out_of_fuel
  | S fuel' =>
      np <- get parent node ;;
      if is_null np then ret node
      else
        npr <- get2 parent right node ;;
        if ptr_eqb node npr
        then (np <- get parent node ;; climb fuel' np)
        else ret node
  end.

Definition next_inorder (fuel : nat) (node : node_pointer) : M node_pointer :=
  if is_null node then ret None
  else
    r <- get right node ;;
    if is_null r then
      node <- climb fuel node ;;
      get parent node
    else
      node <- get right node ;;
      leftmost fuel node.

End RBTree.

(** ** Driving the tree from outside *)

(** Repeated [next_inorder] from a node: the values met, in order. *)
Fixpoint walk (steps fuel : nat) (node : node_pointer) : M (list Z) :=
  match steps with
  | O => out_of_fuel
  | S steps' =>
      if is_null node then ret []
      else
        d <- get data node ;;
        nxt <- RBTree.next_inorder fuel node ;;
        rest <- walk steps' fuel nxt ;;
        ret (d :: rest)
  end.

Definition traversal (steps fuel : nat) : M (list Z) :=
  f <- RBTree.first fuel ;; walk steps fuel f.

(** A public operation of the tree. *)
Inductive op := Insert (v : Z) | Remove (v : Z).

Definition run_op (fuel : nat) (o : op) : M unit :=
  match o with
  | Insert v => RBTree.insert fuel v
  | Remove v => RBTree.remove_value fuel v
  end.

Fixpoint run_ops (fuel : nat) (os : list op) : M unit :=
  match os with
  | [] => ret tt
  | o :: os' => run_op fuel o ;;; run_ops fuel os'
  end.

(** The state an outcome ends in, if it returned. *)
Definition final {A} (o : outcome A) : option state :=
  match o with Done _ s => Some s | _ => None end.
Definition result {A} (o : outcome A) : option A :=
  match o with Done x _ => Some x | _ => None end.

(** ** Reading the heap as a tree *)

Inductive tree :=
| Leaf
| Node (c : e_color) (l : tree) (v : Z) (r : tree).

(** The tree hanging from [p] through child links, to depth [fuel]. *)
Fixpoint snapshot (fuel : nat) (h : gmap addr RBNode) (p : node_pointer)
  : option tree :=
  match p with
  | None => Some Leaf
  | Some a =>
      match fuel with
      | O => None
      | S fuel' =>
          match h !! a with
          | None => None
          | Some n =>
              match snapshot fuel' h (left n), snapshot fuel' h (right n) with
              | Some l, Some r => Some (Node (color n) l (data n) r)
              | _, _ => None
              end
          end
      end
  end.

Definition snapshot_of (fuel : nat) (s : state) : option tree :=
  snapshot fuel (mem s) (_root s).

(** ** The red-black invariants, read off the heap

    A path leaves a node through child links and ends at a null child; it is
    recorded with the number of black nodes it passes through. *)

Definition black_count (c : e_color) : nat :=
  match c with BLACK => 1%nat | RED => 0%nat end.

Inductive nil_path (h : gmap addr RBNode) : node_pointer -> nat -> Prop :=
| nil_path_nil : nil_path h None 0
| nil_path_left a n k :
    h !! a = Some n -> nil_path h (left n) k ->
    nil_path h (Some a) (black_count (color n) + k)
| nil_path_right a n k :
    h !! a = Some n -> nil_path h (right n) k ->
    nil_path h (Some a) (black_count (color n) + k).

(** 1. The root, if present, is black. *)
Definition root_black (s : state) : Prop :=
  forall a n, _root s = Some a -> mem s !! a = Some n -> color n = BLACK.

(** 3. A red node never has a red child. *)
Definition no_red_red (s : state) : Prop :=
  forall a n c m,
    mem s !! a = Some n -> color n = RED ->
    left n = Some c \/ right n = Some c ->
    mem s !! c = Some m -> color m = BLACK.

(** 4. All paths from a node to a null descendant count the same number of
    black nodes. *)
Definition black_balanced (s : state) : Prop :=
  forall p k1 k2, nil_path (mem s) p k1 -> nil_path (mem s) p k2 -> k1 = k2.

Definition rb_invariants (s : state) : Prop :=
  root_black s /\ no_red_red s /\ black_balanced s.

(** The in-order sequence of a tree read off the heap. *)
Fixpoint inorder (t : tree) : list Z :=
  match t with
  | Leaf => []
  | Node _ l v r => inorder l ++ v :: inorder r
  end.

(** Equivalence under the comparator: neither sorts before the other. *)
Definition equiv (a b : Z) : bool := negb (comp a b) && negb (comp b a).


(** ** Well-formed heaps

    A [ptree] is the tree a heap is meant to lay out: every node with its
    address, colour and value.  [shape h par t] says that the heap [h] holds
    exactly this layout below a node whose parent pointer is [par]: child
    pointers lead to the roots of the subtrees and parent pointers lead
    back. *)

Inductive ptree :=
| PLeaf
| PNode (l : ptree) (a : nat) (c : e_color) (v : Z) (r : ptree).

Definition root_ptr (t : ptree) : option nat :=
  match t with
  | PLeaf => None
  | PNode _ a _ _ _ => Some a
  end.

Definition col (t : ptree) : e_color :=
  match t with
  | PLeaf => BLACK
  | PNode _ _ c _ _ => c
  end.

(** Addresses and values in in-order. *)
Fixpoint addrs (t : ptree) : list nat :=
  match t with
  | PLeaf => []
  | PNode l a _ _ r => addrs l ++ a :: addrs r
  end.

Fixpoint values (t : ptree) : list Z :=
  match t with
  | PLeaf => []
  | PNode l _ _ v r => values l ++ v :: values r
  end.

Fixpoint height (t : ptree) : nat :=
  match t with
  | PLeaf => 0%nat
  | PNode l _ _ _ r => S (Nat.max (height l) (height r))
  end.

(** Forgetting the addresses gives the tree that [snapshot] reads. *)
Fixpoint erase (t : ptree) : tree :=
  match t with
  | PLeaf => Leaf
  | PNode l _ c v r => Node c (erase l) v (erase r)
  end.

Fixpoint shape (h : gmap nat RBNode) (par : option nat) (t : ptree) : Prop :=
  match t with
  | PLeaf => True
  | PNode l a c v r =>
      h !! a = Some (mkRBNode par (root_ptr r) (root_ptr l) v c) /\
      shape h (Some a) l /\ shape h (Some a) r
  end.

(** A state is well formed for [T] when the root pointer and the heap lay
    out [T], no address occurs twice, the heap holds nothing else, and the
    allocator's next address is beyond every node. *)
Record wf (s : state) (T : ptree) : Prop := mk_wf {
  wf_root : _root s = root_ptr T;
  wf_shape : shape (mem s) None T;
  wf_nodup : NoDup (addrs T);
  wf_dom : forall a, is_Some (mem s !! a) -> a ∈ addrs T;
  wf_fresh : forall a, a ∈ addrs T -> (a < next_free s)%nat
}.

(** ** Contexts: a tree with a hole

    A frame records one step from a node up to its parent: the parent's
    address, colour and value, and the sibling subtree.  A context lists the
    frames from the hole up to the root. *)

Inductive frame :=
| FL (a : nat) (c : e_color) (v : Z) (r : ptree)
| FR (l : ptree) (a : nat) (c : e_color) (v : Z).

Fixpoint plug (t : ptree) (k : list frame) : ptree :=
  match k with
  | [] => t
  | FL a c v r :: k' => plug (PNode t a c v r) k'
  | FR l a c v :: k' => plug (PNode l a c v t) k'
  end.

(** The node just above the hole. *)
Definition ctx_ptr (k : list frame) : option nat :=
  match k with
  | [] => None
  | FL a _ _ _ :: _ => Some a
  | FR _ a _ _ :: _ => Some a
  end.

Definition ctx_col (k : list frame) : e_color :=
  match k with
  | [] => BLACK
  | FL _ c _ _ :: _ => c
  | FR _ _ c _ :: _ => c
  end.

(** The root pointer of [plug t k]. *)
Fixpoint plug_root (p : option nat) (k : list frame) : option nat :=
  match k with
  | [] => p
  | FL a _ _ _ :: k' => plug_root (Some a) k'
  | FR _ a _ _ :: k' => plug_root (Some a) k'
  end.

(** Addresses and values of a context, left and right of the hole. *)
Fixpoint cleft (k : list frame) : list nat :=
  match k with
  | [] => []
  | FL _ _ _ _ :: k' => cleft k'
  | FR l a _ _ :: k' => cleft k' ++ addrs l ++ [a]
  end.

Fixpoint cright (k : list frame) : list nat :=
  match k with
  | [] => []
  | FL a _ _ r :: k' => (a :: addrs r) ++ cright k'
  | FR _ _ _ _ :: k' => cright k'
  end.

Fixpoint cvleft (k : list frame) : list Z :=
  match k with
  | [] => []
  | FL _ _ _ _ :: k' => cvleft k'
  | FR l _ _ v :: k' => cvleft k' ++ values l ++ [v]
  end.

Fixpoint cvright (k : list frame) : list Z :=
  match k with
  | [] => []
  | FL _ _ v r :: k' => (v :: values r) ++ cvright k'
  | FR _ _ _ _ :: k' => cvright k'
  end.

(** The heap lays out the context [k] around a hole whose pointer is [hp]. *)
Fixpoint cshape (h : gmap nat RBNode) (k : list frame) (hp : option nat) : Prop :=
  match k with
  | [] => True
  | FL a c v r :: k' =>
      h !! a = Some (mkRBNode (ctx_ptr k') (root_ptr r) hp v c) /\
      shape h (Some a) r /\ cshape h k' (Some a)
  | FR l a c v :: k' =>
      h !! a = Some (mkRBNode (ctx_ptr k') hp (root_ptr l) v c) /\
      shape h (Some a) l /\ cshape h k' (Some a)
  end.

(** ** The red-black invariants on trees *)

(** No red node has a red child. *)
Fixpoint nrr (t : ptree) : Prop :=
  match t with
  | PLeaf => True
  | PNode l _ c _ r =>
      (c = RED -> col l = BLACK /\ col r = BLACK) /\ nrr l /\ nrr r
  end.

(** Every path from the root of [t] to a leaf passes [n] black nodes. *)
Fixpoint bh (t : ptree) (n : nat) : Prop :=
  match t with
  | PLeaf => n = 0%nat
  | PNode l _ c _ r =>
      exists m, n = (black_count c + m)%nat /\ bh l m /\ bh r m
  end.

Definition rb (t : ptree) : Prop :=
  col t = BLACK /\ nrr t /\ exists n, bh t n.

(** The comparator never puts a later element before an earlier one. *)
Definition nondecreasing (l : list Z) : Prop :=
  StronglySorted (fun a b => comp b a = false) l.

(** ... and always puts an earlier element before a later one. *)
Definition increasing (l : list Z) : Prop :=
  StronglySorted (fun a b => comp a b = true) l.

(** The invariants of a context whose hole takes a subtree of black height
    [n]: siblings are balanced against the hole. *)
Fixpoint cbh (k : list frame) (n : nat) : Prop :=
  match k with
  | [] => True
  | FL _ c _ r :: k' => bh r n /\ cbh k' (black_count c + n)
  | FR l _ c _ :: k' => bh l n /\ cbh k' (black_count c + n)
  end.

(** No red-red edge inside the context, the edge into the hole left aside. *)
Fixpoint cnrr (k : list frame) : Prop :=
  match k with
  | [] => True
  | FL _ c _ r :: k' =>
      nrr r /\ (c = RED -> col r = BLACK /\ ctx_col k' = BLACK) /\ cnrr k'
  | FR l _ c _ :: k' =>
      nrr l /\ (c = RED -> col l = BLACK /\ ctx_col k' = BLACK) /\ cnrr k'
  end.

(** The colour of the root of [plug t k], given that of [t]. *)
Fixpoint plug_col (c : e_color) (k : list frame) : e_color :=
  match k with
  | [] => c
  | FL _ c' _ _ :: k' => plug_col c' k'
  | FR _ _ c' _ :: k' => plug_col c' k'
  end.

(** Disjoint address lists. *)
Definition disjl (X Y : list nat) : Prop := forall z, z ∈ X -> z ∉ Y.

(** Two heaps hold the same nodes, with the same colours and values. *)
Definition same_nodes (h h' : gmap nat RBNode) : Prop :=
  forall a,
    color <$> (h' !! a) = color <$> (h !! a) /\
    data <$> (h' !! a) = data <$> (h !! a).

(** The second heap allocates nothing beyond the first. *)
Definition dom_le (h h' : gmap nat RBNode) : Prop :=
  forall a, is_Some (h' !! a) -> is_Some (h !! a).

(** ** Insertion, on trees

    [ins_step X K] is what one round of the loop in
    [fixInsertionViolations] does to the tree [plug X K], where [X] is the
    subtree of the current node [k]: the new subtree of the new [k] and its
    new context. *)
Definition ins_step (X : ptree) (K : list frame) : ptree * list frame :=
  match K with
  | FR sib p cp vp :: FR uncle g cg vg :: K' =>
      match uncle with
      | PNode ul u RED vu ur =>
          (PNode (PNode ul u BLACK vu ur) g RED vg (PNode sib p BLACK vp X), K')
      | _ => (X, FR (PNode uncle g RED vg sib) p BLACK vp :: K')
      end
  | FL p cp vp sib :: FR uncle g cg vg :: K' =>
      match uncle with
      | PNode ul u RED vu ur =>
          (PNode (PNode ul u BLACK vu ur) g RED vg (PNode X p BLACK vp sib), K')
      | _ =>
          match X with
          | PNode l k ck v r =>
              (PNode r p cp vp sib, FR (PNode uncle g RED vg l) k BLACK v :: K')
          | PLeaf => (X, K)
          end
      end
  | FL p cp vp sib :: FL g cg vg uncle :: K' =>
      match uncle with
      | PNode ul u RED vu ur =>
          (PNode (PNode X p BLACK vp sib) g RED vg (PNode ul u BLACK vu ur), K')
      | _ => (X, FL p BLACK vp (PNode sib g RED vg uncle) :: K')
      end
  | FR sib p cp vp :: FL g cg vg uncle :: K' =>
      match uncle with
      | PNode ul u RED vu ur =>
          (PNode (PNode sib p BLACK vp X) g RED vg (PNode ul u BLACK vu ur), K')
      | _ =>
          match X with
          | PNode l k ck v r =>
              (PNode sib p cp vp l, FL k BLACK v (PNode r g RED vg uncle) :: K')
          | PLeaf => (X, K)
          end
      end
  | _ => (X, K)
  end.

(** The loop: it stops when the parent of [k] is black, or when [k] has
    become the root. *)
Fixpoint ins_loop (fuel : nat) (X : ptree) (K : list frame) : option ptree :=
  match fuel with
  | O => None
  | S fuel' =>
      if is_red (ctx_col K) then
        let XK := ins_step X K in
        match snd XK with
        | [] => Some (fst XK)
        | _ :: _ => ins_loop fuel' (fst XK) (snd XK)
        end
      else Some (plug X K)
  end.

(** [this->_root->color = BLACK]. *)
Definition blacken (t : ptree) : ptree :=
  match t with
  | PLeaf => PLeaf
  | PNode l a _ v r => PNode l a BLACK v r
  end.

(** The context the descent of [insert] ends in. *)
Fixpoint descend_ctx (v : Z) (t : ptree) (k : list frame) : list frame :=
  match t with
  | PLeaf => k
  | PNode l a c w r =>
      if comp v w then descend_ctx v l (FL a c w r :: k)
      else descend_ctx v r (FR l a c w :: k)
  end.

(** [insert], on trees: the new node takes address [n]. *)
Definition ins (fuel : nat) (n : nat) (v : Z) (T : ptree) : option ptree :=
  match T with
  | PLeaf => Some (PNode PLeaf n BLACK v PLeaf)
  | _ =>
      match ins_loop fuel (PNode PLeaf n RED v PLeaf) (descend_ctx v T []) with
      | Some T' => Some (blacken T')
      | None => None
      end
  end.

(** What the loop of [fixInsertionViolations] relies on and keeps: [k] is
    red with black, valid children of black height [n], the context is
    valid up to the edge into [k], and the root is black. *)
Definition red_node (X : ptree) (n : nat) : Prop :=
  exists l k v r,
    X = PNode l k RED v r /\ col l = BLACK /\ col r = BLACK /\
    nrr l /\ nrr r /\ bh l n /\ bh r n.

Definition ins_inv (X : ptree) (K : list frame) (n : nat) : Prop :=
  red_node X n /\ cnrr K /\ cbh K n /\ plug_col BLACK K = BLACK.

(** On which side of a frame's node the hole lies, as the comparisons of
    a descent towards [v] decide it. *)
Definition frame_side (v : Z) (f : frame) : Prop :=
  match f with
  | FL _ _ w _ => comp v w = true
  | FR _ _ _ w => comp v w = false
  end.

(** The second heap allocates at most the address [n] beyond the first. *)
Definition dom_le_or (n : nat) (h h' : gmap nat RBNode) : Prop :=
  forall a, is_Some (h' !! a) -> a = n \/ is_Some (h !! a).

(** ** Checking a concrete state *)

Global Instance RBNode_eq_dec : EqDecision RBNode.
Proof. solve_decision. Defined.

Fixpoint shape_b (h : gmap nat RBNode) (par : option nat) (t : ptree) : bool :=
  match t with
  | PLeaf => true
  | PNode l a c v r =>
      bool_decide (h !! a = Some (mkRBNode par (root_ptr r) (root_ptr l) v c))
      && shape_b h (Some a) l && shape_b h (Some a) r
  end.

Definition wf_b (s : state) (T : ptree) : bool :=
  bool_decide (_root s = root_ptr T)
  && shape_b (mem s) None T
  && bool_decide (NoDup (addrs T))
  && forallb (fun p => bool_decide (fst p ∈ addrs T)) (map_to_list (mem s))
  && forallb (fun a => Nat.ltb a (next_free s)) (addrs T).

Fixpoint nrr_b (t : ptree) : bool :=
  match t with
  | PLeaf => true
  | PNode l _ c _ r =>
      (is_black c || (is_black (col l) && is_black (col r)))
      && nrr_b l && nrr_b r
  end.

Fixpoint bheight (t : ptree) : option nat :=
  match t with
  | PLeaf => Some 0%nat
  | PNode l _ c _ r =>
      match bheight l, bheight r with
      | Some m, Some m' =>
          if Nat.eqb m m' then Some (black_count c + m)%nat else None
      | _, _ => None
      end
  end.

Definition rb_b (t : ptree) : bool :=
  is_black (col t) && nrr_b t
  && match bheight t with Some _ => true | None => false end.

(** What a call hands back to its caller.  [insert] is declared [void]. *)
Inductive returned := Void | Bool (b : bool).

Definition insert_returns (fuel : nat) (v : Z) (s : state) : option returned :=
  match RBTree.insert fuel v s with
  | Done tt _ => Some Void
  | _ => None
  end.


(** ** Concrete runs *)

Definition ops_10_20_30 : list op := [Insert 10; Insert 20; Insert 30].

Definition ops_corrupting : list op :=
  [Insert 20; Insert 10; Insert 30; Insert 25; Remove 20].

Definition st_10_20_30 : state :=
  Eval vm_compute in
  match run_ops 10 ops_10_20_30 empty_tree with Done _ s => s | _ => empty_tree end.

Definition st_corrupted : state :=
  Eval vm_compute in
  match run_ops 10 ops_corrupting empty_tree with Done _ s => s | _ => empty_tree end.

Definition st_cyclic : state :=
  Eval vm_compute in
  match run_ops 10 (ops_corrupting ++ [Insert 40; Insert 50]) empty_tree with
  | Done _ s => s | _ => empty_tree end.

Definition st_after_remove_20 : state :=
  Eval vm_compute in
  match RBTree.remove_value 10 20 st_10_20_30 with
  | Done _ s => s | _ => empty_tree end.

(** The tree the heap of [st_10_20_30] lays out. *)
Definition tree_10_20_30 : ptree :=
  PNode (PNode PLeaf 1%nat RED 10 PLeaf) 2%nat BLACK 20
        (PNode PLeaf 3%nat RED 30 PLeaf).

Definition st_10 : state :=
  Eval vm_compute in
  match run_ops 10 [Insert 10] empty_tree with Done _ s => s | _ => empty_tree end.

Definition st_10_10 : state :=
  Eval vm_compute in
  match run_ops 10 [Insert 10; Insert 10] empty_tree with
  | Done _ s => s | _ => empty_tree end.


(** ** Removal: the way down to the in-order successor *)

(** A frame entered from its node's left child. *)
Definition is_FL (f : frame) : Prop :=
  match f with
  | FL _ _ _ _ => True
  | FR _ _ _ _ => False
  end.

(** The state once [deleteNode] has freed the node at [x]. *)
Definition freed (x : nat) (s : state) : state :=
  mkState (delete x (mem s)) (_root s) (next_free s).

(** A frame entered from its node's right child. *)
Definition is_FR (f : frame) : Prop :=
  match f with
  | FL _ _ _ _ => False
  | FR _ _ _ _ => True
  end.

(** The tree built from 20, 10, 30, 25: the in-order successor 25 of the
    root 20 lies below the root's right child 30. *)
Definition st_20_10_30_25 : state :=
  Eval vm_compute in
  match run_ops 10 [Insert 20; Insert 10; Insert 30; Insert 25] empty_tree with
  | Done _ s => s | _ => empty_tree end.

Definition tree_20_10_30_25 : ptree :=
  PNode (PNode PLeaf 2%nat BLACK 10 PLeaf) 1%nat BLACK 20
        (PNode (PNode PLeaf 4%nat RED 25 PLeaf) 3%nat BLACK 30 PLeaf).


(** * Proof infrastructure *)

(** ** Distinct addresses out of [NoDup] *)

Lemma disjl_sym X Y : disjl X Y -> disjl Y X.
Proof. unfold disjl. intros H z HY HX. exact (H z HX HY). Qed.

Lemma disjl_mono X Y X' Y' : disjl X Y -> X' ⊆ X -> Y' ⊆ Y -> disjl X' Y'.
Proof. unfold disjl. intros H HX HY z Hz Hz'. exact (H z (HX z Hz) (HY z Hz')). Qed.

Lemma nd_app (X Y : list nat) : NoDup (X ++ Y) -> disjl X Y.
Proof. intros H. apply NoDup_app in H as (_ & H & _). exact H. Qed.

Lemma nd_cons (a : nat) Y : NoDup (a :: Y) -> disjl [a] Y.
Proof.
  intros H z Hz. apply list_elem_of_singleton in Hz as ->.
  apply NoDup_cons in H as [H _]. exact H.
Qed.

Lemma nd_app_l (X Y : list nat) : NoDup (X ++ Y) -> NoDup X.
Proof. intros H. apply NoDup_app in H as (H & _ & _). exact H. Qed.

Lemma nd_app_r (X Y : list nat) : NoDup (X ++ Y) -> NoDup Y.
Proof. intros H. apply NoDup_app in H as (_ & _ & H). exact H. Qed.

Lemma nd_cons_r (a : nat) Y : NoDup (a :: Y) -> NoDup Y.
Proof. intros H. apply NoDup_cons in H as [_ H]. exact H. Qed.

Lemma sub_refl (X : list nat) : X ⊆ X.
Proof. intros z Hz. exact Hz. Qed.

Lemma sub_app_l (X A B : list nat) : X ⊆ A -> X ⊆ A ++ B.
Proof. intros H z Hz. apply elem_of_app. left. auto. Qed.

Lemma sub_app_r (X A B : list nat) : X ⊆ B -> X ⊆ A ++ B.
Proof. intros H z Hz. apply elem_of_app. right. auto. Qed.

Lemma sub_cons_hd (a : nat) B : [a] ⊆ a :: B.
Proof.
  intros z Hz. apply list_elem_of_singleton in Hz as ->.
  apply elem_of_cons. left. reflexivity.
Qed.

Lemma sub_cons_tl (X : list nat) a B : X ⊆ B -> X ⊆ a :: B.
Proof. intros H z Hz. apply elem_of_cons. right. auto. Qed.

Lemma disjl_neq a b : disjl [a] [b] -> a <> b.
Proof. intros H ->. apply (H b); apply list_elem_of_singleton; reflexivity. Qed.

Lemma disjl_notin a Y : disjl [a] Y -> a ∉ Y.
Proof. intros H. apply H. apply list_elem_of_singleton. reflexivity. Qed.

Lemma disjl_elem a X Y : disjl X Y -> a ∈ X -> a ∉ Y.
Proof. intros H. apply H. Qed.

(** [X ⊆ E] when [X] is, syntactically, a piece of the list expression [E]. *)
Ltac sub_search :=
  lazymatch goal with
  | |- ?X ⊆ ?X => apply sub_refl
  | |- [?a] ⊆ ?a :: _ => apply sub_cons_hd
  | |- _ ⊆ _ ++ _ => first [apply sub_app_l; sub_search | apply sub_app_r; sub_search]
  | |- _ ⊆ _ :: _ => apply sub_cons_tl; sub_search
  end.

Ltac disj_from H :=
  lazymatch type of H with
  | @NoDup nat (?A ++ ?B) =>
      first [ apply (disjl_mono A B _ _ (nd_app A B H)); sub_search
            | apply disjl_sym; apply (disjl_mono A B _ _ (nd_app A B H)); sub_search
            | let H' := fresh in pose proof (nd_app_l A B H) as H'; disj_from H'
            | let H' := fresh in pose proof (nd_app_r A B H) as H'; disj_from H' ]
  | @NoDup nat (?a :: ?B) =>
      first [ apply (disjl_mono [a] B _ _ (nd_cons a B H)); sub_search
            | apply disjl_sym; apply (disjl_mono [a] B _ _ (nd_cons a B H)); sub_search
            | let H' := fresh in pose proof (nd_cons_r a B H) as H'; disj_from H' ]
  end.

(** Solves [a <> b], [Some a <> Some b], [a ∉ X] and [disjl X Y] from a
    [NoDup] hypothesis that lists the pieces. *)
Ltac distinct :=
  lazymatch goal with
  | |- Some _ <> None => discriminate
  | |- None <> Some _ => discriminate
  | |- Some ?a <> Some ?b =>
      let E := fresh in intros E; injection E; clear E; change (a <> b); distinct
  | |- disjl ?X ?Y =>
      match goal with
      | H : @NoDup nat _ |- _ => disj_from H
      end
  | |- ?a ∉ ?Y => apply disjl_notin; distinct
  | |- ?a <> ?b => apply disjl_neq; distinct
  end.

(** ** Trees and contexts *)

Lemma addrs_plug t k : addrs (plug t k) = cleft k ++ addrs t ++ cright k.
Proof.
  revert t. induction k as [|[a c v r|l a c v] k IH]; intros t; simpl.
  - rewrite app_nil_r. reflexivity.
  - rewrite IH. simpl. rewrite <- !app_assoc. reflexivity.
  - rewrite IH. simpl. rewrite <- !app_assoc. reflexivity.
Qed.

Lemma values_plug t k : values (plug t k) = cvleft k ++ values t ++ cvright k.
Proof.
  revert t. induction k as [|[a c v r|l a c v] k IH]; intros t; simpl.
  - rewrite app_nil_r. reflexivity.
  - rewrite IH. simpl. rewrite <- !app_assoc. reflexivity.
  - rewrite IH. simpl. rewrite <- !app_assoc. reflexivity.
Qed.

Lemma root_ptr_plug t k : root_ptr (plug t k) = plug_root (root_ptr t) k.
Proof.
  revert t. induction k as [|[a c v r|l a c v] k IH]; intros t; simpl;
    [reflexivity|rewrite IH; reflexivity|rewrite IH; reflexivity].
Qed.

Lemma col_plug t k : col (plug t k) = plug_col (col t) k.
Proof.
  revert t. induction k as [|[a c v r|l a c v] k IH]; intros t; simpl;
    [reflexivity|rewrite IH; reflexivity|rewrite IH; reflexivity].
Qed.

Lemma shape_plug h t k :
  shape h None (plug t k) <-> shape h (ctx_ptr k) t /\ cshape h k (root_ptr t).
Proof.
  revert t. induction k as [|[a c v r|l a c v] k IH]; intros t; simpl.
  - tauto.
  - rewrite IH. simpl. tauto.
  - rewrite IH. simpl. tauto.
Qed.

Lemma plug_app t k1 k2 : plug t (k1 ++ k2) = plug (plug t k1) k2.
Proof.
  revert t. induction k1 as [|[a c v r|l a c v] k1 IH]; intros t; simpl;
    [reflexivity|apply IH|apply IH].
Qed.

(** Every node of a tree is the focus of some context. *)
Lemma focus_exists T a :
  a ∈ addrs T -> exists l c v r k, T = plug (PNode l a c v r) k.
Proof.
  induction T as [|l IHl b c v r IHr]; simpl; intros Ha.
  - apply elem_of_nil in Ha. destruct Ha.
  - apply elem_of_app in Ha as [Ha|Ha].
    + destruct (IHl Ha) as (l' & c' & v' & r' & k & ->).
      exists l', c', v', r', (k ++ [FL b c v r]).
      rewrite plug_app. reflexivity.
    + apply elem_of_cons in Ha as [->|Ha].
      * exists l, c, v, r, []. reflexivity.
      * destruct (IHr Ha) as (l' & c' & v' & r' & k & ->).
        exists l', c', v', r', (k ++ [FR l b c v]).
        rewrite plug_app. reflexivity.
Qed.

(** ** Frame lemmas: writing elsewhere keeps a layout *)

Lemma shape_insert h par t a n :
  a ∉ addrs t -> shape h par t -> shape (<[a := n]> h) par t.
Proof.
  revert par. induction t as [|l IHl b c v r IHr]; intros par Ha; simpl; [tauto|].
  simpl in Ha. apply not_elem_of_app in Ha as [Hl Ha].
  apply not_elem_of_cons in Ha as [Hb Hr].
  intros (Hn & Sl & Sr). split; [|split; auto].
  rewrite lookup_insert_ne by auto. exact Hn.
Qed.

Lemma cshape_insert h k hp a n :
  a ∉ cleft k -> a ∉ cright k -> cshape h k hp -> cshape (<[a := n]> h) k hp.
Proof.
  revert hp. induction k as [|[b c v r|l b c v] k IH]; intros hp Hl Hr; simpl; [tauto|..].
  - simpl in Hl, Hr. apply not_elem_of_cons in Hr as [Hb Hr].
    apply not_elem_of_app in Hr as [Hr Hk].
    intros (Hn & Sr & Sk). split; [|split].
    + rewrite lookup_insert_ne by auto. exact Hn.
    + apply shape_insert; auto.
    + apply IH; auto.
  - simpl in Hl, Hr. apply not_elem_of_app in Hl as [Hk Hl].
    apply not_elem_of_app in Hl as [Hl Hb].
    apply not_elem_of_cons in Hb as [Hb _].
    intros (Hn & Sl & Sk). split; [|split].
    + rewrite lookup_insert_ne by auto. exact Hn.
    + apply shape_insert; auto.
    + apply IH; auto.
Qed.

(** The hole pointer of a context only sits in the innermost frame. *)
Lemma cshape_nil h hp : cshape h [] hp.
Proof. exact I. Qed.

(** ** Running the monad *)

Lemma run_load a n h r nf :
  h !! a = Some n -> load (Some a) (mkState h r nf) = Done n (mkState h r nf).
Proof. intros H. unfold load. simpl. rewrite H. reflexivity. Qed.

Lemma run_store a n f h r nf :
  h !! a = Some n ->
  store (Some a) f (mkState h r nf) = Done tt (mkState (<[a := f n]> h) r nf).
Proof. intros H. unfold store. simpl. rewrite H. reflexivity. Qed.

Lemma ptr_eqb_refl p : ptr_eqb p p = true.
Proof. unfold ptr_eqb. apply bool_decide_eq_true_2. reflexivity. Qed.

Lemma ptr_eqb_ne p q : p <> q -> ptr_eqb p q = false.
Proof. unfold ptr_eqb. apply bool_decide_eq_false_2. Qed.

Lemma root_ptr_addrs t a : root_ptr t = Some a -> a ∈ addrs t.
Proof.
  destruct t as [|l b c v r]; simpl; [discriminate|].
  intros [= ->]. apply elem_of_app. right. apply elem_of_cons. left. reflexivity.
Qed.

Lemma ptr_eqb_root_ne a t : a ∉ addrs t -> ptr_eqb (Some a) (root_ptr t) = false.
Proof.
  intros Ha. apply ptr_eqb_ne. intros E. symmetry in E.
  apply root_ptr_addrs in E. contradiction.
Qed.

Ltac lookup :=
  lazymatch goal with
  | |- <[?a := _]> _ !! ?a = _ => apply lookup_insert_eq
  | |- <[?b := _]> _ !! ?a = _ =>
      rewrite (lookup_insert_ne _ b a) by distinct; lookup
  | |- _ => eassumption
  end.

Ltac exec_cbn :=
  cbv beta iota zeta delta [bind ret get get2 get3 set_parent set_right set_left set_color
       get_root set_root is_null is_red is_black
       parent right left data color
       with_parent with_right with_left with_color
       mem _root next_free fst snd andb negb
       RBTree.uncle_is_red];
  cbn [root_ptr ctx_ptr].

Ltac exec1 :=
  lazymatch goal with
  | |- context [load (Some ?a) (mkState ?h ?r ?nf)] =>
      erewrite (run_load a _ h r nf) by lookup
  | |- context [store (Some ?a) ?f (mkState ?h ?r ?nf)] =>
      erewrite (run_store a _ f h r nf) by lookup
  | |- context [ptr_eqb ?p ?p] => rewrite (ptr_eqb_refl p)
  | |- context [ptr_eqb (Some ?a) (root_ptr ?t)] =>
      rewrite (ptr_eqb_root_ne a t) by distinct
  | |- context [ptr_eqb ?p ?q] => rewrite (ptr_eqb_ne p q) by distinct
  end; exec_cbn.

Ltac exec := exec_cbn; repeat exec1.

(** Rebuilding a layout after writes: the frame lemmas peel the writes off
    the untouched pieces. *)
Ltac reshape :=
  repeat lazymatch goal with
  | |- _ /\ _ => split
  | |- True => exact I
  | |- cshape _ [] _ => exact I
  | |- shape _ _ PLeaf => exact I
  | |- shape (<[_ := _]> _) _ (PNode _ _ _ _ _) => cbn [shape root_ptr]
  | |- shape (<[_ := _]> _) _ _ => apply shape_insert; [distinct|]
  | |- cshape (<[_ := _]> _) (_ :: _) _ => cbn [cshape root_ptr ctx_ptr]
  | |- cshape (<[_ := _]> _) _ _ => apply cshape_insert; [distinct|distinct|]
  | |- shape _ _ _ => eassumption
  | |- cshape _ _ _ => eassumption
  | |- _ !! _ = _ => lookup
  end.

(** Writes to allocated addresses keep the set of allocated addresses. *)
Lemma is_Some_insert_existing (h : gmap nat RBNode) a n b :
  is_Some (h !! a) -> is_Some (<[a := n]> h !! b) -> is_Some (h !! b).
Proof.
  intros Ha Hb. destruct (decide (a = b)) as [->|Hne]; [exact Ha|].
  rewrite lookup_insert_ne in Hb by exact Hne. exact Hb.
Qed.


(** ** Rotations *)

Lemma same_nodes_refl h : same_nodes h h.
Proof. intros a. split; reflexivity. Qed.

Lemma same_nodes_trans h1 h2 h3 :
  same_nodes h1 h2 -> same_nodes h2 h3 -> same_nodes h1 h3.
Proof.
  intros H12 H23 a. destruct (H12 a) as [? ?], (H23 a) as [? ?].
  split; congruence.
Qed.

Lemma same_nodes_insert h h' b n n0 :
  h' !! b = Some n0 -> color n0 = color n -> data n0 = data n ->
  same_nodes h h' -> same_nodes h (<[b := n]> h').
Proof.
  intros Hb Hc Hd H a. destruct (H a) as [H1 H2].
  destruct (decide (b = a)) as [->|Hne].
  - rewrite lookup_insert_eq. rewrite Hb in H1, H2. simpl in *.
    rewrite <- H1, <- H2, Hc, Hd. split; reflexivity.
  - rewrite lookup_insert_ne by exact Hne. split; assumption.
Qed.

Lemma same_nodes_is_Some h h' a :
  same_nodes h h' -> is_Some (h' !! a) -> is_Some (h !! a).
Proof.
  intros H Ha. destruct (H a) as [H1 _]. destruct Ha as [n Hn].
  rewrite Hn in H1. simpl in H1. destruct (h !! a); [eauto|discriminate].
Qed.

Ltac same_nodes :=
  repeat (eapply same_nodes_insert; [lookup|reflexivity|reflexivity|]);
  apply same_nodes_refl.

Lemma leftRotate_shape h nf k l x cx vx b y cy vy c :
  shape h None (plug (PNode l x cx vx (PNode b y cy vy c)) k) ->
  NoDup (addrs (plug (PNode l x cx vx (PNode b y cy vy c)) k)) ->
  exists h',
    RBTree.leftRotate (Some x) (mkState h (plug_root (Some x) k) nf)
    = Done tt (mkState h' (plug_root (Some y) k) nf) /\
    shape h' None (plug (PNode (PNode l x cx vx b) y cy vy c) k) /\
    same_nodes h h'.
Proof.
  intros HS ND. apply shape_plug in HS as [HS HK].
  rewrite addrs_plug in ND. cbn [addrs] in ND.
  cbn [shape root_ptr] in HS. destruct HS as (Hx & Sl & Hy & Sb & Sc).
  unfold RBTree.leftRotate.
  destruct b as [|bl b cb vb br];
    [|cbn [shape root_ptr] in Sb; destruct Sb as (Hb & Sbl & Sbr); cbn [addrs] in ND];
    (destruct k as [|[p cp vp s|s p cp vp] k];
     [|cbn [cshape cleft cright] in HK, ND; destruct HK as (Hp & Ss & HK)..]);
    cbn [plug_root];
    (eexists; split; [exec; reflexivity|]);
    (split; [apply shape_plug; cbn [shape root_ptr]; reshape|same_nodes]).
Qed.

Lemma rightRotate_shape h nf k a x cx vx b y cy vy c :
  shape h None (plug (PNode (PNode a x cx vx b) y cy vy c) k) ->
  NoDup (addrs (plug (PNode (PNode a x cx vx b) y cy vy c) k)) ->
  exists h',
    RBTree.rightRotate (Some y) (mkState h (plug_root (Some y) k) nf)
    = Done tt (mkState h' (plug_root (Some x) k) nf) /\
    shape h' None (plug (PNode a x cx vx (PNode b y cy vy c)) k) /\
    same_nodes h h'.
Proof.
  intros HS ND. apply shape_plug in HS as [HS HK].
  rewrite addrs_plug in ND. cbn [addrs] in ND.
  cbn [shape root_ptr] in HS. destruct HS as (Hy & (Hx & Sa & Sb) & Sc).
  unfold RBTree.rightRotate.
  destruct b as [|bl b cb vb br];
    [|cbn [shape root_ptr] in Sb; destruct Sb as (Hb & Sbl & Sbr); cbn [addrs] in ND];
    (destruct k as [|[p cp vp s|s p cp vp] k];
     [|cbn [cshape cleft cright] in HK, ND; destruct HK as (Hp & Ss & HK)..]);
    cbn [plug_root];
    (eexists; split; [exec; reflexivity|]);
    (split; [apply shape_plug; cbn [shape root_ptr]; reshape|same_nodes]).
Qed.

Lemma rot_addrs k l x cx vx b y cy vy c :
  addrs (plug (PNode (PNode l x cx vx b) y cy vy c) k)
  = addrs (plug (PNode l x cx vx (PNode b y cy vy c)) k).
Proof.
  rewrite !addrs_plug. simpl. rewrite <- !app_assoc. simpl.
  rewrite <- !app_assoc. reflexivity.
Qed.

Lemma rot_values k l x cx vx b y cy vy c :
  values (plug (PNode (PNode l x cx vx b) y cy vy c) k)
  = values (plug (PNode l x cx vx (PNode b y cy vy c)) k).
Proof.
  rewrite !values_plug. simpl. rewrite <- !app_assoc. simpl.
  rewrite <- !app_assoc. reflexivity.
Qed.

(** A state whose heap changed but holds the same nodes stays well formed
    once root and layout are re-established. *)
Lemma wf_same_nodes h r nf T h' r' T' :
  wf (mkState h r nf) T ->
  same_nodes h h' -> addrs T' = addrs T ->
  r' = root_ptr T' -> shape h' None T' ->
  wf (mkState h' r' nf) T'.
Proof.
  intros [Hr HS ND HD HF] Hsame Ha -> HS'. simpl in *.
  constructor; simpl.
  - reflexivity.
  - exact HS'.
  - rewrite Ha. exact ND.
  - intros a Hs. rewrite Ha. apply HD. eapply same_nodes_is_Some; eauto.
  - intros a. rewrite Ha. apply HF.
Qed.

Lemma leftRotate_wf s k l x cx vx b y cy vy c :
  wf s (plug (PNode l x cx vx (PNode b y cy vy c)) k) ->
  exists s',
    RBTree.leftRotate (Some x) s = Done tt s' /\
    wf s' (plug (PNode (PNode l x cx vx b) y cy vy c) k) /\
    same_nodes (mem s) (mem s') /\ next_free s' = next_free s.
Proof.
  intros W. destruct s as [h r nf].
  pose proof (wf_root _ _ W) as Hr. simpl in Hr.
  rewrite root_ptr_plug in Hr. cbn [root_ptr] in Hr. subst r.
  destruct (leftRotate_shape h nf k l x cx vx b y cy vy c
              (wf_shape _ _ W) (wf_nodup _ _ W)) as (h' & Hrun & HS' & Hsame).
  eexists. split; [exact Hrun|]. split; [|split; [exact Hsame|reflexivity]].
  eapply wf_same_nodes; eauto.
  - apply rot_addrs.
  - rewrite root_ptr_plug. reflexivity.
Qed.

Lemma rightRotate_wf s k a x cx vx b y cy vy c :
  wf s (plug (PNode (PNode a x cx vx b) y cy vy c) k) ->
  exists s',
    RBTree.rightRotate (Some y) s = Done tt s' /\
    wf s' (plug (PNode a x cx vx (PNode b y cy vy c)) k) /\
    same_nodes (mem s) (mem s') /\ next_free s' = next_free s.
Proof.
  intros W. destruct s as [h r nf].
  pose proof (wf_root _ _ W) as Hr. simpl in Hr.
  rewrite root_ptr_plug in Hr. cbn [root_ptr] in Hr. subst r.
  destruct (rightRotate_shape h nf k a x cx vx b y cy vy c
              (wf_shape _ _ W) (wf_nodup _ _ W)) as (h' & Hrun & HS' & Hsame).
  eexists. split; [exact Hrun|]. split; [|split; [exact Hsame|reflexivity]].
  eapply wf_same_nodes; eauto.
  - symmetry. apply rot_addrs.
  - rewrite root_ptr_plug. reflexivity.
Qed.

(** The node at the focus of a well-formed state, as the heap holds it. *)
Lemma wf_focus s l a c v r k :
  wf s (plug (PNode l a c v r) k) ->
  mem s !! a = Some (mkRBNode (ctx_ptr k) (root_ptr r) (root_ptr l) v c).
Proof.
  intros W. pose proof (wf_shape _ _ W) as HS.
  apply shape_plug in HS as [HS _]. simpl in HS. tauto.
Qed.

(** A node of a well-formed state with a non-null right child is the focus
    of a context, with that child as the root of its right subtree. *)
Lemma focus_right s T x nx y :
  wf s T -> mem s !! x = Some nx -> right nx = Some y ->
  exists k l cx vx b cy vy c,
    T = plug (PNode l x cx vx (PNode b y cy vy c)) k.
Proof.
  intros W Hx Hr.
  assert (Hin : x ∈ addrs T) by (apply (wf_dom _ _ W); eauto).
  destruct (focus_exists T x Hin) as (l & cx & vx & r & k & ->).
  pose proof (wf_focus _ _ _ _ _ _ _ W) as Hx'.
  rewrite Hx in Hx'. injection Hx' as ->. simpl in Hr.
  destruct r as [|b y' cy vy c]; simpl in Hr; [discriminate|].
  injection Hr as ->. eauto 10.
Qed.

Lemma focus_left s T y ny x :
  wf s T -> mem s !! y = Some ny -> left ny = Some x ->
  exists k a cx vx b cy vy c,
    T = plug (PNode (PNode a x cx vx b) y cy vy c) k.
Proof.
  intros W Hy Hl.
  assert (Hin : y ∈ addrs T) by (apply (wf_dom _ _ W); eauto).
  destruct (focus_exists T y Hin) as (l & cy & vy & c & k & ->).
  pose proof (wf_focus _ _ _ _ _ _ _ W) as Hy'.
  rewrite Hy in Hy'. injection Hy' as ->. simpl in Hl.
  destruct l as [|a x' cx vx b]; simpl in Hl; [discriminate|].
  injection Hl as ->. eauto 10.
Qed.


(** ** The insertion fix-up refines [ins_step] *)

Lemma dom_le_refl h : dom_le h h.
Proof. intros a H. exact H. Qed.

Lemma dom_le_insert h h' b n n0 :
  h' !! b = Some n0 -> dom_le h h' -> dom_le h (<[b := n]> h').
Proof.
  intros Hb H a Ha. apply H.
  eapply is_Some_insert_existing; [|exact Ha]. rewrite Hb. eauto.
Qed.

Lemma same_nodes_dom_le h h' : same_nodes h h' -> dom_le h h'.
Proof. intros H a. apply same_nodes_is_Some. exact H. Qed.

Ltac dom_le :=
  repeat (eapply dom_le_insert; [lookup|]);
  apply dom_le_refl.

(** Splits the layout of [plug X (f1 :: f2 :: K)] into the nodes the loop
    body reads and writes. *)
Ltac open_shape HS ND :=
  apply shape_plug in HS;
  rewrite addrs_plug in ND;
  cbn [shape cshape root_ptr ctx_ptr addrs cleft cright] in HS, ND;
  repeat match type of HS with
         | _ /\ _ => let H := fresh "Hn" in destruct HS as [H HS]
         end;
  repeat match goal with
         | H : _ /\ _ |- _ => destruct H
         end.

Ltac close_body :=
  cbn [ins_step fst snd plug_root root_ptr];
  (eexists; split; [exec; reflexivity|]);
  (split; [apply shape_plug; cbn [shape cshape root_ptr ctx_ptr]; reshape|dom_le]).

Lemma ins_body_RR h nf l k ck v r sib p cp vp uncle g cg vg K :
  let X := PNode l k ck v r in
  let K0 := FR sib p cp vp :: FR uncle g cg vg :: K in
  shape h None (plug X K0) -> NoDup (addrs (plug X K0)) ->
  exists h',
    RBTree.fixInsertionViolations_body (Some k)
      (mkState h (plug_root (Some k) K0) nf)
    = Done (root_ptr (fst (ins_step X K0)))
        (mkState h' (plug_root (root_ptr (fst (ins_step X K0))) (snd (ins_step X K0))) nf) /\
    shape h' None (plug (fst (ins_step X K0)) (snd (ins_step X K0))) /\
    dom_le h h'.
Proof.
  intros X K0 HS ND. subst X K0.
  unfold RBTree.fixInsertionViolations_body, RBTree.leftRotate, RBTree.rightRotate.
  destruct uncle as [|ul u [|] vu ur].
  - destruct sib as [|sl sb cs vs sr]; destruct K as [|[gp cgp vgp gs|gs gp cgp vgp] K];
      open_shape HS ND; close_body.
  - destruct sib as [|sl sb cs vs sr]; destruct K as [|[gp cgp vgp gs|gs gp cgp vgp] K];
      open_shape HS ND; close_body.
  - open_shape HS ND; close_body.
Qed.

Lemma ins_body_LR h nf l k ck v r sib p cp vp uncle g cg vg K :
  let X := PNode l k ck v r in
  let K0 := FL p cp vp sib :: FR uncle g cg vg :: K in
  shape h None (plug X K0) -> NoDup (addrs (plug X K0)) ->
  exists h',
    RBTree.fixInsertionViolations_body (Some k)
      (mkState h (plug_root (Some k) K0) nf)
    = Done (root_ptr (fst (ins_step X K0)))
        (mkState h' (plug_root (root_ptr (fst (ins_step X K0))) (snd (ins_step X K0))) nf) /\
    shape h' None (plug (fst (ins_step X K0)) (snd (ins_step X K0))) /\
    dom_le h h'.
Proof.
  intros X K0 HS ND. subst X K0.
  unfold RBTree.fixInsertionViolations_body, RBTree.leftRotate, RBTree.rightRotate.
  destruct uncle as [|ul u [|] vu ur].
  - destruct l as [|ll la cl vl lr]; destruct r as [|rl ra cr vr rr];
      destruct K as [|[gp cgp vgp gs|gs gp cgp vgp] K];
      open_shape HS ND; close_body.
  - destruct l as [|ll la cl vl lr]; destruct r as [|rl ra cr vr rr];
      destruct K as [|[gp cgp vgp gs|gs gp cgp vgp] K];
      open_shape HS ND; close_body.
  - open_shape HS ND; close_body.
Qed.

Lemma ins_body_LL h nf l k ck v r sib p cp vp uncle g cg vg K :
  let X := PNode l k ck v r in
  let K0 := FL p cp vp sib :: FL g cg vg uncle :: K in
  shape h None (plug X K0) -> NoDup (addrs (plug X K0)) ->
  exists h',
    RBTree.fixInsertionViolations_body (Some k)
      (mkState h (plug_root (Some k) K0) nf)
    = Done (root_ptr (fst (ins_step X K0)))
        (mkState h' (plug_root (root_ptr (fst (ins_step X K0))) (snd (ins_step X K0))) nf) /\
    shape h' None (plug (fst (ins_step X K0)) (snd (ins_step X K0))) /\
    dom_le h h'.
Proof.
  intros X K0 HS ND. subst X K0.
  unfold RBTree.fixInsertionViolations_body, RBTree.leftRotate, RBTree.rightRotate.
  destruct uncle as [|ul u [|] vu ur].
  - destruct sib as [|sl sb cs vs sr]; destruct K as [|[gp cgp vgp gs|gs gp cgp vgp] K];
      open_shape HS ND; close_body.
  - destruct sib as [|sl sb cs vs sr]; destruct K as [|[gp cgp vgp gs|gs gp cgp vgp] K];
      open_shape HS ND; close_body.
  - open_shape HS ND; close_body.
Qed.

Lemma ins_body_RL h nf l k ck v r sib p cp vp uncle g cg vg K :
  let X := PNode l k ck v r in
  let K0 := FR sib p cp vp :: FL g cg vg uncle :: K in
  shape h None (plug X K0) -> NoDup (addrs (plug X K0)) ->
  exists h',
    RBTree.fixInsertionViolations_body (Some k)
      (mkState h (plug_root (Some k) K0) nf)
    = Done (root_ptr (fst (ins_step X K0)))
        (mkState h' (plug_root (root_ptr (fst (ins_step X K0))) (snd (ins_step X K0))) nf) /\
    shape h' None (plug (fst (ins_step X K0)) (snd (ins_step X K0))) /\
    dom_le h h'.
Proof.
  intros X K0 HS ND. subst X K0.
  unfold RBTree.fixInsertionViolations_body, RBTree.leftRotate, RBTree.rightRotate.
  destruct uncle as [|ul u [|] vu ur].
  - destruct l as [|ll la cl vl lr]; destruct r as [|rl ra cr vr rr];
      destruct K as [|[gp cgp vgp gs|gs gp cgp vgp] K];
      open_shape HS ND; close_body.
  - destruct l as [|ll la cl vl lr]; destruct r as [|rl ra cr vr rr];
      destruct K as [|[gp cgp vgp gs|gs gp cgp vgp] K];
      open_shape HS ND; close_body.
  - open_shape HS ND; close_body.
Qed.

(** One round of the loop body on a well-formed heap, whatever the sides of
    the parent and the grandparent. *)
Lemma ins_body_refines h nf l k ck v r f1 f2 K :
  let X := PNode l k ck v r in
  let K0 := f1 :: f2 :: K in
  shape h None (plug X K0) -> NoDup (addrs (plug X K0)) ->
  exists h',
    RBTree.fixInsertionViolations_body (Some k)
      (mkState h (plug_root (Some k) K0) nf)
    = Done (root_ptr (fst (ins_step X K0)))
        (mkState h' (plug_root (root_ptr (fst (ins_step X K0))) (snd (ins_step X K0))) nf) /\
    shape h' None (plug (fst (ins_step X K0)) (snd (ins_step X K0))) /\
    dom_le h h'.
Proof.
  destruct f1 as [p cp vp sib|sib p cp vp], f2 as [g cg vg uncle|uncle g cg vg].
  - apply ins_body_LL.
  - apply ins_body_LR.
  - apply ins_body_RL.
  - apply ins_body_RR.
Qed.


(** ** The insertion fix-up on trees keeps the invariants *)

Lemma nrr_plug X K :
  nrr X -> cnrr K -> (ctx_col K = RED -> col X = BLACK) -> nrr (plug X K).
Proof.
  revert X. induction K as [|[a c v r|l a c v] K IH]; intros X HX HK Hc; simpl.
  - exact HX.
  - simpl in HK, Hc. destruct HK as (Hr & Hred & HK).
    apply IH; [|exact HK|].
    + simpl. split; [|split; assumption].
      intros ->. split; [apply Hc; reflexivity|apply Hred; reflexivity].
    + intros Hk. simpl. destruct c; [reflexivity|].
      destruct (Hred eq_refl) as [_ Hb]. congruence.
  - simpl in HK, Hc. destruct HK as (Hl & Hred & HK).
    apply IH; [|exact HK|].
    + simpl. split; [|split; assumption].
      intros ->. split; [apply Hred; reflexivity|apply Hc; reflexivity].
    + intros Hk. simpl. destruct c; [reflexivity|].
      destruct (Hred eq_refl) as [_ Hb]. congruence.
Qed.

Lemma bh_plug X K n : bh X n -> cbh K n -> exists m, bh (plug X K) m.
Proof.
  revert X n. induction K as [|[a c v r|l a c v] K IH]; intros X n HX HK; simpl.
  - eauto.
  - simpl in HK. destruct HK as [Hr HK].
    apply (IH _ (black_count c + n)%nat); [|exact HK].
    simpl. exists n. auto.
  - simpl in HK. destruct HK as [Hl HK].
    apply (IH _ (black_count c + n)%nat); [|exact HK].
    simpl. exists n. auto.
Qed.

Lemma bh_red_node X n : red_node X n -> bh X n.
Proof.
  intros (l & k & v & r & -> & _ & _ & _ & _ & Hl & Hr).
  simpl. exists n. auto.
Qed.

Lemma nrr_red_node X n : red_node X n -> nrr X.
Proof.
  intros (l & k & v & r & -> & Hcl & Hcr & Hl & Hr & _ & _).
  simpl. auto.
Qed.

(** A red parent under a black root has a grandparent, and it is black. *)
Lemma red_parent_has_grandparent K :
  ctx_col K = RED -> cnrr K -> plug_col BLACK K = BLACK ->
  exists f1 f2 K', K = f1 :: f2 :: K' /\ ctx_col (f2 :: K') = BLACK.
Proof.
  intros Hc HK Hroot.
  destruct K as [|f1 [|f2 K']].
  - simpl in Hc. discriminate.
  - destruct f1; simpl in *; congruence.
  - exists f1, f2, K'. split; [reflexivity|].
    destruct f1; simpl in Hc, HK; subst;
      destruct HK as (_ & Hred & _); destruct (Hred eq_refl) as [_ H]; exact H.
Qed.

Lemma ins_step_addrs X K :
  addrs (plug (fst (ins_step X K)) (snd (ins_step X K))) = addrs (plug X K).
Proof.
  destruct K as [|[p cp vp sib|sib p cp vp] [|[g cg vg uncle|uncle g cg vg] K]];
    try reflexivity;
    destruct uncle as [|ul u [|] vu ur]; try destruct X as [|l k ck v r];
    cbn [ins_step fst snd]; try reflexivity;
    rewrite !addrs_plug; cbn [addrs cleft cright];
    repeat first [rewrite <- app_assoc | progress cbn [app]]; reflexivity.
Qed.

Lemma ins_step_values X K :
  values (plug (fst (ins_step X K)) (snd (ins_step X K))) = values (plug X K).
Proof.
  destruct K as [|[p cp vp sib|sib p cp vp] [|[g cg vg uncle|uncle g cg vg] K]];
    try reflexivity;
    destruct uncle as [|ul u [|] vu ur]; try destruct X as [|l k ck v r];
    cbn [ins_step fst snd]; try reflexivity;
    rewrite !values_plug; cbn [values cvleft cvright];
    repeat first [rewrite <- app_assoc | progress cbn [app]]; reflexivity.
Qed.

Lemma ins_step_length l k ck v r K :
  ctx_col K = RED -> cnrr K -> plug_col BLACK K = BLACK ->
  (length (snd (ins_step (PNode l k ck v r) K)) < length K)%nat.
Proof.
  intros Hc HK Hroot.
  destruct (red_parent_has_grandparent K Hc HK Hroot) as (f1 & f2 & K' & -> & _).
  destruct f1 as [p cp vp sib|sib p cp vp], f2 as [g cg vg uncle|uncle g cg vg];
    destruct uncle as [|ul u [|] vu ur];
    cbn [ins_step fst snd length]; lia.
Qed.

(** One round keeps the loop invariant, at a black height that may grow. *)
Lemma ins_step_inv X K n :
  ins_inv X K n -> ctx_col K = RED ->
  exists n', ins_inv (fst (ins_step X K)) (snd (ins_step X K)) n'.
Proof.
  intros (HX & HK & HB & Hroot) Hc.
  destruct (red_parent_has_grandparent K Hc HK Hroot) as (f1 & f2 & K' & -> & Hg).
  destruct HX as (l & k & v & r & -> & Hcl & Hcr & Hl & Hr & Bl & Br).
  destruct f1 as [p cp vp sib|sib p cp vp], f2 as [g cg vg uncle|uncle g cg vg];
    simpl in Hc, Hg; subst cp cg;
    simpl in HK, HB, Hroot;
    destruct HK as (Hsib & Hp & Hunc & _ & HK);
    destruct (Hp eq_refl) as [Hcs _];
    destruct HB as (Bsib & Bunc & HB);
    (destruct uncle as [|ul u [|] vu ur];
     cbn [ins_step fst snd];
     [ exists n | exists n | exists (S n) ]);
    unfold ins_inv, red_node; cbn [cnrr cbh plug_col ctx_col nrr bh col black_count] in *;
    repeat match goal with
           | H : exists _, _ |- _ => destruct H
           | H : _ /\ _ |- _ => destruct H
           | H : 0%nat = _ |- _ => symmetry in H
           end;
    subst;
    repeat match goal with
           | |- _ /\ _ => split
           | |- exists _ _ _ _, _ => do 4 eexists
           | |- PNode _ _ _ _ _ = PNode _ _ _ _ _ => reflexivity
           | |- exists m, _ = (_ + m)%nat /\ _ => eexists; split; [reflexivity|]
           | |- _ -> _ => intros
           | |- nrr (PNode _ _ _ _ _) => cbn [nrr col]
           | |- bh (PNode _ _ _ _ _) _ => cbn [bh black_count]
           end;
    try solve [ reflexivity | assumption | discriminate | congruence | eauto
              | simpl; lia ].
Qed.


(** ** The loop of the insertion fix-up *)

Lemma ins_loop_ok fuel :
  forall X K n,
    ins_inv X K n -> K <> [] -> (length K <= fuel)%nat ->
    exists T',
      ins_loop fuel X K = Some T' /\
      nrr T' /\ (exists m, bh T' m) /\
      addrs T' = addrs (plug X K) /\ values T' = values (plug X K).
Proof.
  induction fuel as [|fuel IH]; intros X K n Hinv Hne Hlen.
  - destruct K; [congruence|simpl in Hlen; lia].
  - cbn [ins_loop]. destruct (ctx_col K) eqn:Hc; cbn [is_red].
    + destruct Hinv as (HX & HK & HB & _).
      exists (plug X K). split; [reflexivity|]. split; [|split; [|split; reflexivity]].
      * apply nrr_plug; [eapply nrr_red_node; eauto|exact HK|congruence].
      * eapply bh_plug; [eapply bh_red_node; eauto|exact HB].
    + destruct (ins_step_inv X K n Hinv Hc) as (n' & Hinv').
      pose proof (ins_step_addrs X K) as Ha.
      pose proof (ins_step_values X K) as Hv.
      assert (Hlt : (length (snd (ins_step X K)) < length K)%nat).
      { destruct Hinv as ((l & k & v & r & -> & _) & HK & _ & Hroot).
        apply ins_step_length; assumption. }
      destruct (snd (ins_step X K)) as [|f K'] eqn:HK'.
      * exists (fst (ins_step X K)). simpl in Ha, Hv.
        destruct Hinv' as (HX' & _).
        split; [reflexivity|]. split; [eapply nrr_red_node; eauto|].
        split; [eexists; eapply bh_red_node; eauto|]. split; assumption.
      * destruct (IH (fst (ins_step X K)) (f :: K') n' Hinv') as (T' & Hrun & H1 & H2 & H3 & H4).
        { discriminate. }
        { lia. }
        exists T'. split; [exact Hrun|]. split; [exact H1|]. split; [exact H2|].
        split; congruence.
Qed.

(** The red-black invariants of [blacken T]. *)
Lemma blacken_rb T :
  nrr T -> (exists m, bh T m) -> rb (blacken T).
Proof.
  intros Hn [m Hb]. destruct T as [|l a c v r]; simpl.
  - split; [reflexivity|]. split; [exact I|]. exists 0%nat. reflexivity.
  - simpl in Hn, Hb. destruct Hn as (_ & Hl & Hr). destruct Hb as (m' & _ & Bl & Br).
    split; [reflexivity|]. split.
    + simpl. split; [discriminate|]. auto.
    + exists (1 + m')%nat. simpl. exists m'. auto.
Qed.

Lemma blacken_addrs T : addrs (blacken T) = addrs T.
Proof. destruct T; reflexivity. Qed.

Lemma blacken_values T : values (blacken T) = values T.
Proof. destruct T; reflexivity. Qed.

(** ** The loop on the heap *)

Lemma wf_dom_le h r nf T h' r' T' :
  wf (mkState h r nf) T ->
  dom_le h h' -> addrs T' = addrs T ->
  r' = root_ptr T' -> shape h' None T' ->
  wf (mkState h' r' nf) T'.
Proof.
  intros [Hr HS ND HD HF] Hdom Ha -> HS'. simpl in *.
  constructor; simpl.
  - reflexivity.
  - exact HS'.
  - rewrite Ha. exact ND.
  - intros a Hs. rewrite Ha. apply HD. apply Hdom. exact Hs.
  - intros a. rewrite Ha. apply HF.
Qed.

(** The root of a tree with a non-empty context is a node of the context. *)
Lemma plug_root_ctx p K :
  K <> [] -> exists a, plug_root p K = Some a /\ a ∈ cleft K ++ cright K.
Proof.
  revert p. induction K as [|f K IH]; intros p Hne; [congruence|].
  destruct K as [|f' K'].
  - destruct f as [a c v r|l a c v]; simpl; exists a; (split; [reflexivity|]).
    + apply elem_of_cons. left. reflexivity.
    + rewrite app_nil_r. apply elem_of_app. right.
      apply list_elem_of_singleton. reflexivity.
  - destruct f as [a c v r|l a c v];
      destruct (IH (Some a)) as (b & Hb & Hin); try discriminate;
      exists b; (split; [exact Hb|]);
      cbn [cleft cright] in *; set (L := cleft (f' :: K')) in *;
      set (R := cright (f' :: K')) in *; clearbody L R;
      rewrite ?elem_of_app, ?elem_of_cons in *; tauto.
Qed.

Lemma root_not_focus l k c v r K :
  K <> [] -> NoDup (addrs (plug (PNode l k c v r) K)) ->
  ptr_eqb (Some k) (plug_root (Some k) K) = false.
Proof.
  intros Hne ND. destruct (plug_root_ctx (Some k) K Hne) as (a & Ha & Hin).
  rewrite Ha. apply ptr_eqb_ne. intros [= <-].
  rewrite addrs_plug in ND. cbn [addrs] in ND.
  apply elem_of_app in Hin as [Hin|Hin]; revert Hin; apply disjl_elem with (X := [k]);
    try (apply list_elem_of_singleton; reflexivity); distinct.
Qed.

Lemma bind_done {A B} (m : M A) (k : A -> M B) s x s' :
  m s = Done x s' -> bind m k s = k x s'.
Proof. intros H. unfold bind. rewrite H. reflexivity. Qed.

(** The loop test reads the colour of the parent of [k]. *)
Lemma parent_color h r nf l k c v r0 K :
  K <> [] -> shape h None (plug (PNode l k c v r0) K) ->
  get2 parent color (Some k) (mkState h r nf) = Done (ctx_col K) (mkState h r nf).
Proof.
  intros Hne HS. apply shape_plug in HS.
  destruct K as [|[p cp vp sib|sib p cp vp] K]; [congruence|..];
    cbn [shape cshape root_ptr ctx_ptr] in HS;
    destruct HS as ((Hk & _) & Hp & _); exec; reflexivity.
Qed.

Lemma fix_loop_refines fuel :
  forall X K n h nf T',
    ins_inv X K n -> K <> [] ->
    wf (mkState h (plug_root (root_ptr X) K) nf) (plug X K) ->
    ins_loop fuel X K = Some T' ->
    exists h',
      RBTree.fixInsertionViolations_loop fuel (root_ptr X)
        (mkState h (plug_root (root_ptr X) K) nf)
      = Done tt (mkState h' (root_ptr T') nf) /\
      wf (mkState h' (root_ptr T') nf) T' /\
      addrs T' = addrs (plug X K).
Proof.
  induction fuel as [|fuel IH]; intros X K n h nf T' Hinv Hne W Hloop;
    [discriminate|].
  cbn [ins_loop] in Hloop. cbn [RBTree.fixInsertionViolations_loop].
  pose proof Hinv as ((l & k & v & r0 & -> & _) & HK & _ & Hroot).
  cbn [root_ptr] in *.
  erewrite bind_done by (eapply parent_color; [exact Hne|exact (wf_shape _ _ W)]).
  destruct (ctx_col K) eqn:Hc; cbn [is_red] in *.
  - injection Hloop as <-. exists h. rewrite root_ptr_plug. cbn [root_ptr].
    split; [reflexivity|split; [exact W|reflexivity]].
  - destruct (red_parent_has_grandparent K Hc HK Hroot) as (f1 & f2 & K' & -> & _).
    destruct (ins_body_refines h nf l k RED v r0 f1 f2 K'
                (wf_shape _ _ W) (wf_nodup _ _ W)) as (h' & Hrun & HS' & Hdom).
    cbv zeta in Hrun. erewrite bind_done by exact Hrun.
    destruct (ins_step_inv _ _ _ Hinv Hc) as (n' & Hinv').
    pose proof (ins_step_addrs (PNode l k RED v r0) (f1 :: f2 :: K')) as Ha.
    remember (ins_step (PNode l k RED v r0) (f1 :: f2 :: K')) as XK eqn:EXK.
    destruct XK as [X' K1]. cbn [fst snd] in *.
    pose proof Hinv' as ((l' & k' & v' & r' & -> & _) & _).
    cbn [root_ptr] in *.
    assert (W' : wf (mkState h' (plug_root (Some k') K1) nf)
                   (plug (PNode l' k' RED v' r') K1)).
    { eapply wf_dom_le; [exact W|exact Hdom|exact Ha| |exact HS'].
      rewrite root_ptr_plug. reflexivity. }
    unfold bind at 1. unfold get_root at 1. cbn [_root].
    destruct K1 as [|f K1].
    + cbn [plug_root]. rewrite ptr_eqb_refl.
      injection Hloop as <-. exists h'. cbn [root_ptr].
      split; [reflexivity|split; [exact W'|exact Ha]].
    + rewrite (root_not_focus l' k' RED v' r' (f :: K1)) by
        (try discriminate; exact (wf_nodup _ _ W')).
      assert (Hne' : f :: K1 <> []) by discriminate.
      destruct (IH (PNode l' k' RED v' r') (f :: K1) n' h' nf T' Hinv' Hne' W' Hloop)
        as (h2 & Hrun2 & W2 & Ha2).
      exists h2. split; [exact Hrun2|split; [exact W2|congruence]].
Qed.

(** [fixInsertionViolations] as a whole: the loop, then the root made black. *)
Lemma fixInsertionViolations_refines fuel X K n h nf T' :
  ins_inv X K n -> K <> [] ->
  wf (mkState h (plug_root (root_ptr X) K) nf) (plug X K) ->
  ins_loop fuel X K = Some T' ->
  exists h',
    RBTree.fixInsertionViolations fuel (root_ptr X)
      (mkState h (plug_root (root_ptr X) K) nf)
    = Done tt (mkState h' (root_ptr (blacken T')) nf) /\
    wf (mkState h' (root_ptr (blacken T')) nf) (blacken T').
Proof.
  intros Hinv Hne W Hloop.
  destruct (fix_loop_refines fuel X K n h nf T' Hinv Hne W Hloop)
    as (h1 & Hrun & W1 & HaT).
  unfold RBTree.fixInsertionViolations.
  erewrite bind_done by exact Hrun.
  assert (HT : exists l a c v r, T' = PNode l a c v r).
  { destruct Hinv as ((l & k & v & r & -> & _) & _).
    destruct T' as [|l' a' c' v' r']; [|eauto 10].
    rewrite addrs_plug in HaT. cbn [addrs] in HaT.
    destruct (cleft K); destruct (addrs l); discriminate HaT. }
  destruct HT as (l & a & c & v & r & ->).
  pose proof (wf_shape _ _ W1) as HS. cbn [mem shape root_ptr] in HS.
  destruct HS as (Ha & Sl & Sr).
  pose proof (wf_nodup _ _ W1) as ND. cbn [addrs] in ND.
  cbn [blacken root_ptr].
  eexists. split; [exec; reflexivity|].
  eapply wf_dom_le; [exact W1| | | |].
  - dom_le.
  - reflexivity.
  - reflexivity.
  - cbn [shape root_ptr]. reshape.
Qed.


(** ** The descent of [insert] *)

Lemma nrr_plug_inv X K :
  nrr (plug X K) -> nrr X /\ cnrr K /\ (ctx_col K = RED -> col X = BLACK).
Proof.
  revert X. induction K as [|[a c v r|l a c v] K IH]; intros X H; simpl.
  - split; [exact H|]. split; [exact I|discriminate].
  - simpl in H. destruct (IH _ H) as ((Hred & HX & Hr) & HK & Hc). simpl in *.
    split; [exact HX|]. split; [|intros ->; apply Hred; reflexivity].
    split; [exact Hr|]. split; [|exact HK].
    intros ->. split; [apply Hred; reflexivity|].
    destruct (ctx_col K); [reflexivity|]. discriminate (Hc eq_refl).
  - simpl in H. destruct (IH _ H) as ((Hred & Hl & HX) & HK & Hc). simpl in *.
    split; [exact HX|]. split; [|intros ->; apply Hred; reflexivity].
    split; [exact Hl|]. split; [|exact HK].
    intros ->. split; [apply Hred; reflexivity|].
    destruct (ctx_col K); [reflexivity|]. discriminate (Hc eq_refl).
Qed.

Lemma bh_plug_inv X K m : bh (plug X K) m -> exists n, bh X n /\ cbh K n.
Proof.
  revert X. induction K as [|[a c v r|l a c v] K IH]; intros X H; simpl.
  - eauto.
  - simpl in H. destruct (IH _ H) as (n & (n' & -> & HX & Hr) & HK).
    exists n'. auto.
  - simpl in H. destruct (IH _ H) as (n & (n' & -> & Hl & HX) & HK).
    exists n'. auto.
Qed.

Lemma plug_descend v t k : plug PLeaf (descend_ctx v t k) = plug t k.
Proof.
  revert k. induction t as [|l IHl a c w r IHr]; intros k; simpl; [reflexivity|].
  destruct (comp v w); [rewrite IHl|rewrite IHr]; reflexivity.
Qed.

Lemma descend_ctx_length v t k :
  (length (descend_ctx v t k) <= height t + length k)%nat.
Proof.
  revert k. induction t as [|l IHl a c w r IHr]; intros k; simpl; [lia|].
  destruct (comp v w); [specialize (IHl (FL a c w r :: k))
                       |specialize (IHr (FR l a c w :: k))]; simpl in *; lia.
Qed.

Lemma descend_ctx_sides v t k :
  Forall (frame_side v) k -> Forall (frame_side v) (descend_ctx v t k).
Proof.
  revert k. induction t as [|l IHl a c w r IHr]; intros k Hk; simpl; [exact Hk|].
  destruct (comp v w) eqn:E; [apply IHl|apply IHr]; constructor; assumption.
Qed.

Lemma descend_ctx_nonempty v l a c w r :
  descend_ctx v (PNode l a c w r) [] <> [].
Proof.
  intros E. pose proof (f_equal (plug PLeaf) E) as H.
  rewrite plug_descend in H. simpl in H. discriminate.
Qed.

(** ** Sorted in-order sequences *)

Lemma nondecreasing_le l : nondecreasing l <-> StronglySorted Z.le l.
Proof.
  unfold nondecreasing, comp. split; intros H; induction H; constructor; auto.
  - eapply Forall_impl; [eassumption|]. simpl. intros y Hy.
    apply Z.ltb_ge in Hy. exact Hy.
  - eapply Forall_impl; [eassumption|]. simpl. intros y Hy.
    apply Z.ltb_ge. exact Hy.
Qed.

Lemma sorted_app (l1 l2 : list Z) :
  StronglySorted Z.le (l1 ++ l2) <->
  StronglySorted Z.le l1 /\ StronglySorted Z.le l2 /\
  (forall x y, x ∈ l1 -> y ∈ l2 -> x <= y).
Proof.
  induction l1 as [|a l1 IH]; simpl.
  - split.
    + intros H. split; [constructor|]. split; [exact H|].
      intros x y Hx. apply elem_of_nil in Hx. destruct Hx.
    + tauto.
  - split.
    + intros H. apply StronglySorted_inv in H as [H Ha].
      apply IH in H as (H1 & H2 & H12).
      rewrite Forall_app in Ha. destruct Ha as [Ha1 Ha2].
      split; [constructor; assumption|]. split; [exact H2|].
      intros x y Hx Hy. apply elem_of_cons in Hx as [->|Hx].
      * rewrite Forall_forall in Ha2. apply Ha2. exact Hy.
      * apply H12; assumption.
    + intros (H1 & H2 & H12). apply StronglySorted_inv in H1 as [H1 Ha].
      constructor.
      * apply IH. split; [exact H1|]. split; [exact H2|].
        intros x y Hx Hy. apply H12; [apply elem_of_cons; right|]; assumption.
      * rewrite Forall_app. split; [exact Ha|].
        rewrite Forall_forall. intros y Hy. apply H12; [|exact Hy].
        apply elem_of_cons. left. reflexivity.
Qed.

Lemma sorted_cons (a : Z) l :
  StronglySorted Z.le (a :: l) <->
  StronglySorted Z.le l /\ (forall y, y ∈ l -> a <= y).
Proof.
  split.
  - intros H. apply StronglySorted_inv in H as [H Ha].
    split; [exact H|]. rewrite Forall_forall in Ha. exact Ha.
  - intros [H Ha]. constructor; [exact H|]. rewrite Forall_forall. exact Ha.
Qed.

(** Where the descent towards [v] stops, everything on the left is at most
    [v] and everything on the right is above [v]. *)
Lemma sides_bounds v K :
  Forall (frame_side v) K ->
  StronglySorted Z.le (cvleft K ++ cvright K) ->
  (forall x, x ∈ cvleft K -> x <= v) /\ (forall x, x ∈ cvright K -> v < x).
Proof.
  induction K as [|[a c w r|l a c w] K IH]; intros HF HS.
  - split; intros x Hx; apply elem_of_nil in Hx; destruct Hx.
  - apply Forall_cons in HF as [Hside HF]. simpl in Hside.
    unfold comp in Hside. apply Z.ltb_lt in Hside.
    cbn [cvleft cvright] in *.
    apply sorted_app in HS as (HL & HR & HLR).
    change ((w :: values r) ++ cvright K) with (w :: (values r ++ cvright K)) in *.
    apply sorted_cons in HR as (HR & Hw).
    apply sorted_app in HR as (Hr & HRk & _).
    destruct IH as [IHl IHr]; [exact HF| |].
    { apply sorted_app. split; [exact HL|]. split; [exact HRk|].
      intros x y Hx Hy. apply HLR; [exact Hx|].
      apply elem_of_cons. right. apply elem_of_app. right. exact Hy. }
    split; [exact IHl|].
    intros x Hx. apply elem_of_cons in Hx as [->|Hx]; [exact Hside|].
    apply elem_of_app in Hx as [Hx|Hx]; [|apply IHr; exact Hx].
    specialize (Hw x). rewrite elem_of_app in Hw. specialize (Hw (or_introl Hx)). lia.
  - apply Forall_cons in HF as [Hside HF]. simpl in Hside.
    unfold comp in Hside. apply Z.ltb_ge in Hside.
    cbn [cvleft cvright] in *.
    apply sorted_app in HS as (HL & HR & HLR).
    apply sorted_app in HL as (HLk & Hl & HLl).
    apply sorted_app in Hl as (Hl & _ & Hlw).
    destruct IH as [IHl IHr]; [exact HF| |].
    { apply sorted_app. split; [exact HLk|]. split; [exact HR|].
      intros x y Hx Hy. apply HLR; [|exact Hy].
      apply elem_of_app. left. exact Hx. }
    split; [|exact IHr].
    intros x Hx. apply elem_of_app in Hx as [Hx|Hx]; [apply IHl; exact Hx|].
    apply elem_of_app in Hx as [Hx|Hx].
    + specialize (Hlw x w Hx). rewrite list_elem_of_singleton in Hlw.
      specialize (Hlw eq_refl). lia.
    + apply list_elem_of_singleton in Hx as ->. exact Hside.
Qed.

(** Putting [v] where the descent stops keeps the sequence sorted. *)
Lemma insert_sorted v K :
  Forall (frame_side v) K ->
  nondecreasing (cvleft K ++ cvright K) ->
  nondecreasing (cvleft K ++ [v] ++ cvright K).
Proof.
  rewrite !nondecreasing_le. intros HF HS.
  destruct (sides_bounds v K HF HS) as [Hl Hr].
  apply sorted_app in HS as (HL & HR & HLR).
  apply sorted_app. split; [exact HL|]. split.
  - simpl. apply sorted_cons. split; [exact HR|].
    intros y Hy. specialize (Hr y Hy). lia.
  - intros x y Hx Hy. simpl in Hy. apply elem_of_cons in Hy as [->|Hy].
    + apply Hl. exact Hx.
    + apply HLR; assumption.
Qed.


(** ** [insert] on the heap *)

Lemma insert_descend_refines v n pn rn ln cn :
  forall t k fuel h r nf,
    h !! n = Some (mkRBNode pn rn ln v cn) ->
    shape h (ctx_ptr k) t -> (height t < fuel)%nat ->
    RBTree.insert_descend fuel (Some n) (root_ptr t) (ctx_ptr k) (mkState h r nf)
    = Done (ctx_ptr (descend_ctx v t k)) (mkState h r nf).
Proof.
  induction t as [|l IHl a c w r0 IHr]; intros k fuel h r nf Hn HS Hf.
  - destruct fuel; [simpl in Hf; lia|]. reflexivity.
  - destruct fuel as [|fuel]; [simpl in Hf; lia|].
    cbn [height] in Hf. cbn [shape] in HS. destruct HS as (Ha & Sl & Sr).
    cbn [RBTree.insert_descend root_ptr descend_ctx]. exec.
    destruct (comp v w); exec.
    + apply (IHl (FL a c w r0 :: k)); [exact Hn|exact Sl|lia].
    + apply (IHr (FR l a c w :: k)); [exact Hn|exact Sr|lia].
Qed.

Lemma dom_le_or_base n (h : gmap nat RBNode) x : dom_le_or n h (<[n := x]> h).
Proof.
  intros a Ha. destruct (decide (n = a)) as [->|Hne]; [left; reflexivity|].
  right. rewrite lookup_insert_ne in Ha by exact Hne. exact Ha.
Qed.

Lemma dom_le_or_insert n h h' b x n0 :
  h' !! b = Some n0 -> dom_le_or n h h' -> dom_le_or n h (<[b := x]> h').
Proof.
  intros Hb H a Ha. apply H.
  eapply is_Some_insert_existing; [|exact Ha]. rewrite Hb. eauto.
Qed.

Lemma dom_le_or_trans n h h1 h2 :
  dom_le_or n h h1 -> dom_le h1 h2 -> dom_le_or n h h2.
Proof. intros H1 H2 a Ha. apply H1. apply H2. exact Ha. Qed.

Ltac dom_le_or :=
  repeat (eapply dom_le_or_insert; [lookup|]);
  apply dom_le_or_base.

(** A state that gained the node [n], the allocator's next address. *)
Lemma wf_extend h r nf T h' r' T' :
  wf (mkState h r nf) T ->
  dom_le_or nf h h' ->
  (forall a, a ∈ addrs T' <-> a = nf \/ a ∈ addrs T) ->
  NoDup (addrs T') ->
  r' = root_ptr T' -> shape h' None T' ->
  wf (mkState h' r' (S nf)) T'.
Proof.
  intros [Hr HS ND HD HF] Hdom Ha ND' -> HS'. simpl in *.
  constructor; simpl.
  - reflexivity.
  - exact HS'.
  - exact ND'.
  - intros a Hs. apply Ha. destruct (Hdom a Hs) as [->|H]; [left; reflexivity|].
    right. apply HD. exact H.
  - intros a Hin. apply Ha in Hin as [->|Hin]; [lia|].
    specialize (HF a Hin). lia.
Qed.

Lemma fresh_not_in s T : wf s T -> next_free s ∉ addrs T.
Proof.
  intros W Hin. pose proof (wf_fresh _ _ W _ Hin). lia.
Qed.

Lemma NoDup_insert_middle (n : nat) L R :
  NoDup (L ++ R) -> n ∉ L ++ R -> NoDup (L ++ n :: R).
Proof.
  intros ND Hn. apply not_elem_of_app in Hn as [HnL HnR].
  apply NoDup_app in ND as (NL & HLR & NR).
  apply NoDup_app. split; [exact NL|]. split.
  - intros x Hx HxR. apply elem_of_cons in HxR as [->|HxR]; [contradiction|].
    exact (HLR x Hx HxR).
  - apply NoDup_cons. split; assumption.
Qed.

(** The loop invariant holds for the new red leaf in a valid tree. *)
Lemma ins_inv_new_leaf n v K :
  rb (plug PLeaf K) -> ins_inv (PNode PLeaf n RED v PLeaf) K 0.
Proof.
  intros (Hc & Hn & m & Hb).
  apply nrr_plug_inv in Hn as (_ & HK & _).
  apply bh_plug_inv in Hb as (n0 & Hleaf & HB). simpl in Hleaf. subst n0.
  rewrite col_plug in Hc. simpl in Hc.
  split; [|split; [exact HK|split; [exact HB|exact Hc]]].
  exists PLeaf, n, v, PLeaf. simpl. auto 10.
Qed.


(** [insert] refines [ins]: on a well-formed red-black tree, with fuel
    beyond the height, it returns, and the heap lays out the new tree. *)
Theorem insert_refines s T v fuel :
  wf s T -> rb T -> (height T < fuel)%nat ->
  exists T' s',
    ins fuel (next_free s) v T = Some T' /\
    RBTree.insert fuel v s = Done tt s' /\
    wf s' T' /\ next_free s' = S (next_free s).
Proof.
  intros W Hrb Hfuel. destruct s as [h r nf].
  pose proof (wf_root _ _ W) as Hr. cbn [_root] in Hr. subst r.
  pose proof (fresh_not_in _ _ W) as Hfresh. cbn [next_free] in *.
  pose proof (wf_shape _ _ W) as HS. cbn [mem] in HS.
  pose proof (wf_nodup _ _ W) as ND.
  destruct T as [|l a c w r0].
  - (* the empty tree *)
    exists (PNode PLeaf nf BLACK v PLeaf). eexists.
    split; [reflexivity|].
    split; [unfold RBTree.insert, RBTree.createNode; exec; reflexivity|].
    split; [|reflexivity].
    eapply wf_extend; [exact W| | | | |].
    + dom_le_or.
    + intros b. simpl. rewrite list_elem_of_singleton, elem_of_nil. tauto.
    + simpl. apply NoDup_singleton.
    + reflexivity.
    + cbn [shape root_ptr]. reshape.
  - (* a non-empty tree *)
    set (T := PNode l a c w r0) in *.
    set (X := PNode PLeaf nf RED v PLeaf).
    pose proof (plug_descend v T []) as HT. cbn [plug] in HT.
    pose proof (descend_ctx_length v T []) as HlenK. cbn [length] in HlenK.
    pose proof (descend_ctx_sides v T [] (Forall_nil_2 _)) as Hsides.
    pose proof (descend_ctx_nonempty v l a c w r0) as HneK. fold T in HneK.
    assert (Hinv : ins_inv X (descend_ctx v T []) 0).
    { apply ins_inv_new_leaf. rewrite HT. exact Hrb. }
    destruct (ins_loop_ok fuel X (descend_ctx v T []) 0 Hinv HneK) as
      (T1 & Hloop & _); [lia|].
    (* the heap after the new node is linked in *)
    assert (Hlink : exists h1,
      RBTree.insert fuel v (mkState h (root_ptr T) nf)
      = RBTree.fixInsertionViolations fuel (Some nf)
          (mkState h1 (root_ptr T) (S nf)) /\
      wf (mkState h1 (root_ptr T) (S nf)) (plug X (descend_ctx v T []))).
    { clear Hinv Hloop.
      assert (HrT : root_ptr T = root_ptr (plug X (descend_ctx v T []))).
      { rewrite <- HT at 1. rewrite !root_ptr_plug.
        destruct (descend_ctx v T []) as [|[] ?]; [congruence|reflexivity..]. }
      assert (HS1 : shape (<[nf := mkRBNode None None None v RED]> h) None T)
        by (apply shape_insert; assumption).
      pose proof (insert_descend_refines v nf None None None RED T [] fuel
                    (<[nf := mkRBNode None None None v RED]> h) (root_ptr T) (S nf)
                    (lookup_insert_eq _ _ _) HS1 Hfuel) as Hdesc.
      rewrite <- HT in HS, ND, Hfresh.
      rewrite addrs_plug in ND, Hfresh. cbn [addrs app] in ND, Hfresh.
      apply shape_plug in HS as [_ HCK].
      pose proof (NoDup_insert_middle nf _ _ ND Hfresh) as NDK.
      destruct (descend_ctx v T []) as [|f K'] eqn:EK; [congruence|].
      apply Forall_cons in Hsides as [Hside _].
      unfold RBTree.insert, RBTree.createNode.
      destruct f as [p cp wp sib|sib p cp wp];
        cbn [cshape cleft cright root_ptr ctx_ptr frame_side] in *;
        destruct HCK as (Hp & Ssib & HCK);
        (eexists; split;
         [ exec_cbn; cbn [T root_ptr is_null];
           change (Some a) with (root_ptr T);
           rewrite Hdesc; exec; rewrite Hside; exec; reflexivity
         | ]).
      all: eapply wf_extend; [exact W| | | | |];
        [ dom_le_or
        | intros b; rewrite <- HT; rewrite !addrs_plug; unfold X;
          cbn [addrs cleft cright app];
          rewrite ?elem_of_app, ?elem_of_cons, ?elem_of_app, ?elem_of_nil; tauto
        | rewrite addrs_plug; unfold X; cbn [addrs cleft cright app]; exact NDK
        | exact HrT
        | apply shape_plug; unfold X; cbn [shape cshape root_ptr ctx_ptr]; reshape ]. }
    destruct Hlink as (h1 & Hrun1 & W1).
    assert (HrT : root_ptr T = plug_root (root_ptr X) (descend_ctx v T [])).
    { rewrite <- HT at 1. rewrite !root_ptr_plug.
      destruct (descend_ctx v T []) as [|[] ?]; [congruence|reflexivity..]. }
    rewrite HrT in W1.
    destruct (fixInsertionViolations_refines fuel X (descend_ctx v T []) 0 h1 (S nf) T1
                Hinv HneK W1 Hloop) as (h2 & Hrun2 & W2).
    exists (blacken T1). eexists.
    split.
    { change (ins fuel nf v T)
        with (match ins_loop fuel X (descend_ctx v T []) with
              | Some T' => Some (blacken T')
              | None => None
              end).
      rewrite Hloop. reflexivity. }
    split; [rewrite Hrun1, HrT; exact Hrun2|].
    split; [exact W2|reflexivity].
Qed.


(** ** What [ins] does to a red-black tree *)

Lemma addrs_values_length t : length (addrs t) = length (values t).
Proof.
  induction t as [|l IHl a c v r IHr]; simpl; [reflexivity|].
  rewrite !length_app. simpl. lia.
Qed.

Lemma cleft_cvleft_length K : length (cleft K) = length (cvleft K).
Proof.
  induction K as [|[a c v r|l a c v] K IH]; simpl; [reflexivity|exact IH|].
  rewrite !length_app, IH, addrs_values_length. reflexivity.
Qed.

(** The node at a position of the in-order sequence holds the value at
    that position. *)
Lemma shape_nth h t :
  forall par i a v,
    shape h par t -> addrs t !! i = Some a -> values t !! i = Some v ->
    exists n, h !! a = Some n /\ data n = v.
Proof.
  induction t as [|l IHl b c w r IHr]; intros par i a v HS Ha Hv; simpl in *.
  - rewrite lookup_nil in Ha. discriminate.
  - destruct HS as (Hb & Sl & Sr).
    destruct (decide (i < length (addrs l))%nat) as [Hlt|Hge].
    + rewrite lookup_app_l in Ha by exact Hlt.
      rewrite lookup_app_l in Hv by (rewrite <- addrs_values_length; exact Hlt).
      eapply IHl; eauto.
    + rewrite lookup_app_r in Ha by lia.
      rewrite lookup_app_r in Hv by (rewrite <- addrs_values_length; lia).
      rewrite <- addrs_values_length in Hv.
      destruct (i - length (addrs l))%nat as [|j]; simpl in Ha, Hv.
      * injection Ha as <-. injection Hv as <-. eexists. split; [exact Hb|reflexivity].
      * eapply IHr; eauto.
Qed.

Theorem ins_ok fuel n v T :
  rb T -> (height T < fuel)%nat ->
  exists T' L R Lv Rv,
    ins fuel n v T = Some T' /\ rb T' /\
    addrs T = L ++ R /\ addrs T' = L ++ n :: R /\
    values T = Lv ++ Rv /\ values T' = Lv ++ v :: Rv /\
    length L = length Lv /\
    (nondecreasing (values T) -> nondecreasing (values T')).
Proof.
  intros Hrb Hfuel. destruct T as [|l a c w r0].
  - exists (PNode PLeaf n BLACK v PLeaf), [], [], [], [].
    split; [reflexivity|]. split.
    { split; [reflexivity|]. split; [simpl; split; [discriminate|auto]|].
      exists 1%nat. simpl. exists 0%nat. auto. }
    repeat (split; [reflexivity|]).
    intros _. simpl. apply nondecreasing_le. repeat constructor.
  - set (T := PNode l a c w r0) in *.
    set (X := PNode PLeaf n RED v PLeaf).
    pose proof (plug_descend v T []) as HT. cbn [plug] in HT.
    pose proof (descend_ctx_length v T []) as HlenK. cbn [length] in HlenK.
    pose proof (descend_ctx_sides v T [] (Forall_nil_2 _)) as Hsides.
    pose proof (descend_ctx_nonempty v l a c w r0) as HneK. fold T in HneK.
    assert (Hinv : ins_inv X (descend_ctx v T []) 0).
    { apply ins_inv_new_leaf. rewrite HT. exact Hrb. }
    destruct (ins_loop_ok fuel X (descend_ctx v T []) 0 Hinv HneK) as
      (T1 & Hloop & Hnrr & Hbh & Ha & Hv); [lia|].
    exists (blacken T1), (cleft (descend_ctx v T [])), (cright (descend_ctx v T [])),
      (cvleft (descend_ctx v T [])), (cvright (descend_ctx v T [])).
    split.
    { change (ins fuel n v T)
        with (match ins_loop fuel X (descend_ctx v T []) with
              | Some T' => Some (blacken T')
              | None => None
              end).
      rewrite Hloop. reflexivity. }
    split; [apply blacken_rb; assumption|].
    split; [rewrite <- HT at 1; rewrite addrs_plug; reflexivity|].
    split; [rewrite blacken_addrs, Ha, addrs_plug; reflexivity|].
    split; [rewrite <- HT at 1; rewrite values_plug; reflexivity|].
    split; [rewrite blacken_values, Hv, values_plug; reflexivity|].
    split; [apply cleft_cvleft_length|].
    intros Hs. rewrite blacken_values, Hv, values_plug.
    apply insert_sorted; [exact Hsides|].
    rewrite <- HT in Hs. rewrite values_plug in Hs. exact Hs.
Qed.

Lemma height_le_size T : (height T <= length (addrs T))%nat.
Proof.
  induction T as [|l IHl a c v r IHr]; simpl; [lia|].
  rewrite length_app. simpl. lia.
Qed.

(** ** The heap-level invariants of a well-formed red-black tree *)

Lemma shape_lookup h par t a :
  shape h par t -> a ∈ addrs t -> is_Some (h !! a).
Proof.
  revert par. induction t as [|l IHl b c v r IHr]; intros par HS Ha; simpl in *.
  - apply elem_of_nil in Ha. destruct Ha.
  - destruct HS as (Hb & Sl & Sr).
    apply elem_of_app in Ha as [Ha|Ha]; [eauto|].
    apply elem_of_cons in Ha as [->|Ha]; eauto.
Qed.

(** In a laid-out subtree of black height [m], every path to a null child
    counts [m] black nodes. *)
Lemma nil_path_bh h t :
  forall par m k,
    shape h par t -> bh t m -> nil_path h (root_ptr t) k -> k = m.
Proof.
  induction t as [|l IHl a c v r IHr]; intros par m k HS Hb Hp; simpl in *.
  - inversion Hp. subst. reflexivity.
  - destruct HS as (Ha & Sl & Sr). destruct Hb as (m' & -> & Bl & Br).
    inversion Hp as [|a' n k' Hn Hp'|a' n k' Hn Hp']; subst;
      rewrite Ha in Hn; injection Hn as <-; simpl in *;
      f_equal; [eapply IHl|eapply IHr]; eauto.
Qed.

Lemma wf_rb_invariants s T : wf s T -> rb T -> rb_invariants s.
Proof.
  intros W (Hc & Hn & m & Hb). split; [|split].
  - intros a n Hr Ha. rewrite (wf_root _ _ W) in Hr.
    destruct T as [|l a' c v r]; simpl in Hr; [discriminate|].
    injection Hr as ->. pose proof (wf_shape _ _ W) as HS. simpl in HS.
    destruct HS as (Ha' & _). rewrite Ha in Ha'. injection Ha' as ->.
    simpl. exact Hc.
  - intros a n c0 m0 Ha Hred Hchild Hc0.
    assert (Hin : a ∈ addrs T) by (apply (wf_dom _ _ W); eauto).
    destruct (focus_exists T a Hin) as (l & ca & va & r & k & ->).
    pose proof (wf_shape _ _ W) as HS. apply shape_plug in HS as [HS _].
    simpl in HS. destruct HS as (Ha' & Sl & Sr).
    rewrite Ha in Ha'. injection Ha' as ->. simpl in Hred, Hchild. subst ca.
    apply nrr_plug_inv in Hn as ((Hcol & _) & _).
    destruct (Hcol eq_refl) as [Hcl Hcr].
    destruct Hchild as [Hch|Hch].
    + destruct l as [|ll la cl vl lr]; simpl in Hch; [discriminate|].
      injection Hch as ->. simpl in Sl. destruct Sl as (Hl & _).
      rewrite Hc0 in Hl. injection Hl as ->. exact Hcl.
    + destruct r as [|rl ra cr vr rr]; simpl in Hch; [discriminate|].
      injection Hch as ->. simpl in Sr. destruct Sr as (Hr' & _).
      rewrite Hc0 in Hr'. injection Hr' as ->. exact Hcr.
  - intros p k1 k2 H1 H2. destruct p as [a|].
    + assert (Hin : a ∈ addrs T).
      { apply (wf_dom _ _ W). inversion H1; eauto. }
      destruct (focus_exists T a Hin) as (l & ca & va & r & k & ->).
      pose proof (wf_shape _ _ W) as HS. apply shape_plug in HS as [HS _].
      apply bh_plug_inv in Hb as (m' & Hb' & _).
      rewrite (nil_path_bh _ _ _ _ _ HS Hb' H1).
      rewrite (nil_path_bh _ _ _ _ _ HS Hb' H2). reflexivity.
    + inversion H1. inversion H2. reflexivity.
Qed.

(** [snapshot] reads a laid-out tree back. *)
Lemma snapshot_shape h t :
  forall par fuel,
    shape h par t -> (height t <= fuel)%nat ->
    snapshot fuel h (root_ptr t) = Some (erase t).
Proof.
  induction t as [|l IHl a c v r IHr]; intros par fuel HS Hf; simpl in *.
  - destruct fuel; reflexivity.
  - destruct fuel as [|fuel]; [lia|]. destruct HS as (Ha & Sl & Sr).
    simpl. rewrite Ha. simpl.
    rewrite (IHl (Some a) fuel Sl) by lia.
    rewrite (IHr (Some a) fuel Sr) by lia. reflexivity.
Qed.

Lemma inorder_erase t : inorder (erase t) = values t.
Proof.
  induction t as [|l IHl a c v r IHr]; simpl; [reflexivity|].
  rewrite IHl, IHr. reflexivity.
Qed.

(** [size()] counts the nodes of a laid-out tree. *)
Lemma size_from_shape t :
  forall par fuel h r nf,
    shape h par t -> (height t < fuel)%nat ->
    RBTree.size_from fuel (root_ptr t) (mkState h r nf)
    = Done (length (addrs t)) (mkState h r nf).
Proof.
  induction t as [|l IHl a c v r0 IHr]; intros par fuel h r nf HS Hf.
  - destruct fuel; [simpl in Hf; lia|]. reflexivity.
  - destruct fuel as [|fuel]; [simpl in Hf; lia|].
    cbn [height] in Hf. cbn [shape] in HS. destruct HS as (Ha & Sl & Sr).
    cbn [RBTree.size_from root_ptr]. exec.
    rewrite (IHl (Some a) fuel h r nf Sl) by lia. exec.
    rewrite (IHr (Some a) fuel h r nf Sr) by lia. exec.
    cbn [addrs]. rewrite length_app. cbn [length]. f_equal. lia.
Qed.

Lemma size_wf s T fuel :
  wf s T -> (height T < fuel)%nat ->
  RBTree.size fuel s = Done (length (addrs T)) s.
Proof.
  intros W Hf. destruct s as [h r nf].
  pose proof (wf_root _ _ W) as Hr. simpl in Hr. subst r.
  unfold RBTree.size. exec_cbn.
  apply (size_from_shape T None); [exact (wf_shape _ _ W)|exact Hf].
Qed.


(** ** The checkers are sound *)

Lemma shape_b_sound h t : forall par, shape_b h par t = true -> shape h par t.
Proof.
  induction t as [|l IHl a c v r IHr]; intros par H; simpl in *; [exact I|].
  apply andb_prop in H as [H Hr]. apply andb_prop in H as [Ha Hl].
  apply bool_decide_eq_true in Ha. auto.
Qed.

Lemma wf_b_sound s T : wf_b s T = true -> wf s T.
Proof.
  unfold wf_b. intros H.
  apply andb_prop in H as [H Hfresh]. apply andb_prop in H as [H Hdom].
  apply andb_prop in H as [H Hnd]. apply andb_prop in H as [Hroot Hshape].
  constructor.
  - apply bool_decide_eq_true in Hroot. exact Hroot.
  - apply shape_b_sound. exact Hshape.
  - apply bool_decide_eq_true in Hnd. exact Hnd.
  - intros a [n Hn]. apply elem_of_map_to_list in Hn.
    rewrite forallb_forall in Hdom. apply list_elem_of_In in Hn.
    specialize (Hdom _ Hn). apply bool_decide_eq_true in Hdom. exact Hdom.
  - intros a Ha. rewrite forallb_forall in Hfresh. apply list_elem_of_In in Ha.
    specialize (Hfresh _ Ha). apply Nat.ltb_lt in Hfresh. exact Hfresh.
Qed.

Lemma nrr_b_sound t : nrr_b t = true -> nrr t.
Proof.
  induction t as [|l IHl a c v r IHr]; simpl; intros H; [exact I|].
  apply andb_prop in H as [H Hr]. apply andb_prop in H as [Hc Hl].
  split; [|auto]. intros ->. simpl in Hc.
  apply andb_prop in Hc as [H1 H2].
  destruct (col l), (col r); simpl in *; try discriminate; auto.
Qed.

Lemma bheight_sound t : forall n, bheight t = Some n -> bh t n.
Proof.
  induction t as [|l IHl a c v r IHr]; simpl; intros n H.
  - congruence.
  - destruct (bheight l) as [m|]; [|discriminate].
    destruct (bheight r) as [m'|]; [|discriminate].
    destruct (Nat.eqb m m') eqn:E; [|discriminate].
    apply Nat.eqb_eq in E. subst m'. injection H as <-.
    exists m. auto.
Qed.

Lemma rb_b_sound t : rb_b t = true -> rb t.
Proof.
  unfold rb_b. intros H.
  apply andb_prop in H as [H Hb]. apply andb_prop in H as [Hc Hn].
  split; [destruct (col t); [reflexivity|discriminate]|].
  split; [apply nrr_b_sound; exact Hn|].
  destruct (bheight t) as [n|] eqn:E; [|discriminate].
  exists n. apply bheight_sound. exact E.
Qed.

(** ** Sequences of insertions *)

Lemma wf_empty : wf empty_tree PLeaf.
Proof. apply wf_b_sound. reflexivity. Qed.

Lemma rb_leaf : rb PLeaf.
Proof. apply rb_b_sound. reflexivity. Qed.

Lemma run_inserts vs :
  forall s T fuel,
    wf s T -> rb T -> nondecreasing (values T) ->
    (length (addrs T) + length vs <= fuel)%nat ->
    exists s' T',
      run_ops fuel (map Insert vs) s = Done tt s' /\
      wf s' T' /\ rb T' /\ nondecreasing (values T') /\
      values T' ≡ₚ values T ++ vs /\
      length (addrs T') = (length (addrs T) + length vs)%nat.
Proof.
  induction vs as [|v vs IH]; intros s T fuel W Hrb Hs Hf.
  - exists s, T. simpl. rewrite app_nil_r, Nat.add_0_r. auto 10.
  - simpl in Hf. pose proof (height_le_size T) as Hh.
    destruct (ins_ok fuel (next_free s) v T Hrb) as
      (T1 & L & R & Lv & Rv & Hins & Hrb1 & Ha & Ha1 & Hv & Hv1 & _ & Hs1); [lia|].
    destruct (insert_refines s T v fuel W Hrb) as (T1' & s1 & Hins' & Hrun & W1 & _);
      [lia|].
    rewrite Hins in Hins'. injection Hins' as <-.
    assert (Hlen1 : length (addrs T1) = S (length (addrs T))).
    { rewrite Ha, Ha1, !length_app. simpl. lia. }
    destruct (IH s1 T1 fuel W1 Hrb1 (Hs1 Hs)) as (s' & T' & Hrun' & W' & Hrb' & Hs' & Hp & Hl);
      [lia|].
    exists s', T'. split.
    { cbn [map run_ops run_op]. unfold bind. rewrite Hrun. exact Hrun'. }
    split; [exact W'|]. split; [exact Hrb'|]. split; [exact Hs'|]. split; [|simpl; lia].
    rewrite Hp, Hv1, Hv. rewrite <- !app_assoc. simpl.
    rewrite <- !Permutation_middle. reflexivity.
Qed.


(** ** Removal of a node with two children *)

Lemma cleft_app k1 k2 : cleft (k1 ++ k2) = cleft k2 ++ cleft k1.
Proof.
  induction k1 as [|[a c v r|l a c v] k1 IH]; simpl.
  - rewrite app_nil_r. reflexivity.
  - exact IH.
  - rewrite IH, <- !app_assoc. reflexivity.
Qed.

Lemma cright_app k1 k2 : cright (k1 ++ k2) = cright k1 ++ cright k2.
Proof.
  induction k1 as [|[a c v r|l a c v] k1 IH]; simpl.
  - reflexivity.
  - rewrite IH, <- !app_assoc. reflexivity.
  - exact IH.
Qed.

Lemma plug_root_some a k : exists b, plug_root (Some a) k = Some b.
Proof.
  revert a. induction k as [|[b c v r|l b c v] k IH]; intros a; simpl; eauto.
Qed.

Lemma ctx_ptr_app k1 k2 :
  k1 <> [] -> ctx_ptr (k1 ++ k2) = ctx_ptr k1.
Proof. destruct k1 as [|[] k1]; [congruence|reflexivity..]. Qed.

(** The outer part of a context lays out around the root of the inner. *)
Lemma cshape_app h k1 k2 hp :
  cshape h (k1 ++ k2) hp -> cshape h k2 (plug_root hp k1).
Proof.
  revert hp. induction k1 as [|[a c v r|l a c v] k1 IH]; intros hp H; simpl in *.
  - exact H.
  - apply IH. tauto.
  - apply IH. tauto.
Qed.

(** The loop that looks for the successor walks down an all-left spine. *)
Lemma leftmost_refines h r nf y py ry vy cy :
  h !! y = Some (mkRBNode py ry None vy cy) ->
  forall k1 k2 fuel,
    Forall is_FL k1 -> cshape h (k1 ++ k2) (Some y) ->
    (length k1 < fuel)%nat ->
    RBTree.leftmost fuel (plug_root (Some y) k1) (mkState h r nf)
    = Done (Some y) (mkState h r nf).
Proof.
  intros Hy k1. induction k1 as [|f k1 IH] using rev_ind; intros k2 fuel HF HC Hf.
  - destruct fuel; [simpl in Hf; lia|].
    cbn [RBTree.leftmost plug_root]. exec. reflexivity.
  - rewrite length_app in Hf. simpl in Hf.
    destruct fuel as [|fuel]; [lia|].
    apply Forall_app in HF as [HF1 Hfl]. apply Forall_cons in Hfl as [Hfl _].
    destruct f as [a c v r0|]; [|destruct Hfl].
    rewrite <- app_assoc in HC. cbn [app] in HC.
    pose proof (cshape_app _ _ _ _ HC) as HC2. cbn [cshape] in HC2.
    destruct HC2 as (Ha & _ & _).
    assert (Er : plug_root (Some y) (k1 ++ [FL a c v r0]) = Some a).
    { clear. revert y. induction k1 as [|[] k1 IH]; intros y; simpl; auto. }
    rewrite Er. cbn [RBTree.leftmost].
    destruct (plug_root_some y k1) as (b & Eb). rewrite Eb in Ha.
    exec. rewrite <- Eb.
    apply (IH (FL a c v r0 :: k2)); [exact HF1|exact HC|lia].
Qed.

Lemma list_ends {A} (l : list A) :
  l = [] \/ (exists x, l = [x]) \/ (exists x m y, l = x :: m ++ [y]).
Proof.
  destruct l as [|x l]; [left; reflexivity|right].
  destruct l as [|x' l'] using rev_ind; [left; eauto|right; eauto].
Qed.

Lemma plug_root_snoc p k a c v r : plug_root p (k ++ [FL a c v r]) = Some a.
Proof.
  revert p. induction k as [|[] k IH]; intros p; simpl; auto.
Qed.

(** A node below the context is not the root. *)
Lemma ptr_eqb_plug_root_ne a p k :
  a <> p -> a ∉ cleft k -> a ∉ cright k ->
  ptr_eqb (Some a) (plug_root (Some p) k) = false.
Proof.
  intros Hp Hl Hr. destruct k as [|f k].
  - simpl. apply ptr_eqb_ne. congruence.
  - destruct (plug_root_ctx (Some p) (f :: k)) as (b & Hb & Hin); [discriminate|].
    rewrite Hb. apply ptr_eqb_ne. intros [= <-].
    apply elem_of_app in Hin as [Hin|Hin]; contradiction.
Qed.

Ltac exec1r :=
  lazymatch goal with
  | |- context [ptr_eqb (Some ?a) (plug_root (Some ?p) ?k)] =>
      rewrite (ptr_eqb_plug_root_ne a p k) by distinct; exec_cbn
  | |- _ => exec1
  end.

Ltac execr := exec_cbn; repeat exec1r.

Ltac unchanged := repeat (rewrite lookup_insert_ne by distinct); reflexivity.







(** After the unlinking part, [remove] frees the node and lets the recorded
    colour decide whether the fix-up runs. *)
Lemma remove_after_unlink fuel x s c nn s' :
  RBTree.remove_unlink fuel (Some x) s = Done (c, nn) s' ->
  is_Some (mem s' !! x) ->
  RBTree.remove fuel (Some x) s
  = (if is_black c then RBTree.fixDeleteViolations fuel nn (freed x s')
     else Done tt (freed x s')).
Proof.
  intros Hrun [n Hn]. unfold RBTree.remove. cbn [is_null].
  erewrite bind_done by exact Hrun.
  unfold bind at 1. unfold RBTree.deleteNode. rewrite Hn. cbn [fst snd].
  destruct c; reflexivity.
Qed.



(** ** Left spines and heights *)

Lemma left_spine_exists R :
  R <> PLeaf ->
  exists y cy vy ry kR,
    R = plug (PNode PLeaf y cy vy ry) kR /\ Forall is_FL kR /\
    (length kR < height R)%nat.
Proof.
  induction R as [|l IHl a c v r _]; intros HR; [congruence|].
  destruct l as [|ll la lc lv lr].
  - exists a, c, v, r, []. split; [reflexivity|]. split; [constructor|simpl; lia].
  - destruct IHl as (y & cy & vy & ry & kR & E & HF & Hlen); [discriminate|].
    exists y, cy, vy, ry, (kR ++ [FL a c v r]).
    split; [rewrite plug_app, <- E; reflexivity|].
    split; [apply Forall_app; split; [exact HF|repeat constructor]|].
    rewrite length_app. cbn [length height] in *. lia.
Qed.

Lemma height_plug t k : (height t <= height (plug t k))%nat.
Proof.
  revert t. induction k as [|[a c v r|l a c v] k IH]; intros t; simpl; [lia|..];
    (etransitivity; [|apply IH]); simpl; lia.
Qed.

(** ** Traversal of a well-formed tree *)

Lemma walk_S steps fuel a s :
  walk (S steps) fuel (Some a) s
  = match get data (Some a) s with
    | Done d s1 =>
        match RBTree.next_inorder fuel (Some a) s1 with
        | Done nxt s2 =>
            match walk steps fuel nxt s2 with
            | Done rest s3 => Done (d :: rest) s3
            | Fault f => Fault f
            | OutOfFuel => OutOfFuel
            end
        | Fault f => Fault f
        | OutOfFuel => OutOfFuel
        end
    | Fault f => Fault f
    | OutOfFuel => OutOfFuel
    end.
Proof. reflexivity. Qed.

Lemma cvleft_FL k : Forall is_FL k -> cvleft k = [].
Proof.
  induction 1 as [|[a c v r|] k Hf _ IH]; simpl; [reflexivity|exact IH|destruct Hf].
Qed.

Lemma cvright_app k1 k2 : cvright (k1 ++ k2) = cvright k1 ++ cvright k2.
Proof.
  induction k1 as [|[a c v r|l a c v] k1 IH]; simpl.
  - reflexivity.
  - rewrite IH, <- !app_assoc. reflexivity.
  - exact IH.
Qed.

Lemma cvright_FR k : Forall is_FR k -> cvright k = [].
Proof.
  induction 1 as [|[|l a c v] k Hf _ IH]; simpl; [reflexivity|destruct Hf|exact IH].
Qed.

Lemma cleft_FL k : Forall is_FL k -> cleft k = [].
Proof.
  induction 1 as [|[a c v r|] k Hf _ IH]; simpl; [reflexivity|exact IH|destruct Hf].
Qed.

Lemma cright_FR k : Forall is_FR k -> cright k = [].
Proof.
  induction 1 as [|[|l a c v] k Hf _ IH]; simpl; [reflexivity|destruct Hf|exact IH].
Qed.

(** A context splits into its leading right-child frames and the rest. *)
Lemma split_FR k :
  exists k1 k2,
    k = k1 ++ k2 /\ Forall is_FR k1 /\
    match k2 with FR _ _ _ _ :: _ => False | _ => True end.
Proof.
  induction k as [|f k (k1 & k2 & -> & HF & H2)].
  - exists [], []. simpl. auto.
  - destruct f as [a c v r|l a c v].
    + exists [], (FL a c v r :: k1 ++ k2). simpl. auto.
    + exists (FR l a c v :: k1), k2. simpl. split; [reflexivity|].
      split; [constructor; [exact I|exact HF]|exact H2].
Qed.

(** The climb of [next_inorder] goes up through the right-child frames. *)
Lemma climb_refines h r nf k2 :
  match k2 with FR _ _ _ _ :: _ => False | _ => True end ->
  forall k1 l a c v r0 fuel,
    Forall is_FR k1 ->
    shape h None (plug (PNode l a c v r0) (k1 ++ k2)) ->
    NoDup (addrs (plug (PNode l a c v r0) (k1 ++ k2))) ->
    (length k1 < fuel)%nat ->
    bind (RBTree.climb fuel (Some a)) (get parent) (mkState h r nf)
    = Done (ctx_ptr k2) (mkState h r nf).
Proof.
  intros H2. induction k1 as [|f k1 IH]; intros l a c v r0 fuel HF HS ND Hf.
  - cbn [app] in *. destruct fuel as [|fuel]; [simpl in Hf; lia|].
    apply shape_plug in HS as [HS HK]. rewrite addrs_plug in ND.
    cbn [shape addrs] in HS, ND. destruct HS as (Ha & _).
    cbn [RBTree.climb].
    destruct k2 as [|[p cp vp sib|] k2]; [| |destruct H2].
    + exec. reflexivity.
    + cbn [cshape cleft cright] in HK, ND. destruct HK as (Hp & _).
      exec. reflexivity.
  - apply Forall_cons in HF as [Hfr HF].
    destruct f as [|l' a' c' v']; [destruct Hfr|].
    destruct fuel as [|fuel]; [simpl in Hf; lia|].
    pose proof HS as HS0. pose proof ND as ND0.
    apply shape_plug in HS as [HS HK]. rewrite addrs_plug in ND.
    cbn [app shape cshape addrs cleft cright] in HS, HK, ND.
    destruct HS as (Ha & _). destruct HK as (Ha' & _).
    cbn [RBTree.climb]. exec.
    cbn [app plug] in HS0, ND0.
    simpl in Hf. apply (IH l' a' c' v' (PNode l a c v r0) fuel HF HS0 ND0). lia.
Qed.

(** A context adds its length to the height of what it holds. *)
Lemma height_plug_ctx t k : (height t + length k <= height (plug t k))%nat.
Proof.
  revert t. induction k as [|[a c v r|l a c v] k IH]; intros t; simpl; [lia|..];
    (etransitivity; [|apply IH]); simpl; lia.
Qed.

(** [next_inorder] at the focus of a context: the node whose value comes
    next in the in-order sequence, as a new focus, or null at the end. *)
Lemma next_inorder_focus h r nf l a c v r0 k fuel :
  shape h None (plug (PNode l a c v r0) k) ->
  NoDup (addrs (plug (PNode l a c v r0) k)) ->
  (height (plug (PNode l a c v r0) k) < fuel)%nat ->
  (values r0 ++ cvright k = [] /\ addrs r0 ++ cright k = [] /\
   RBTree.next_inorder fuel (Some a) (mkState h r nf) = Done None (mkState h r nf))
  \/
  (exists l' a' c' v' r' k',
     plug (PNode l' a' c' v' r') k' = plug (PNode l a c v r0) k /\
     values r0 ++ cvright k = v' :: values r' ++ cvright k' /\
     addrs r0 ++ cright k = a' :: addrs r' ++ cright k' /\
     RBTree.next_inorder fuel (Some a) (mkState h r nf)
     = Done (Some a') (mkState h r nf)).
Proof.
  intros HS ND Hf. unfold RBTree.next_inorder. cbn [is_null].
  pose proof (height_plug_ctx (PNode l a c v r0) k) as Hh. cbn [height] in Hh.
  pose proof HS as HS0. apply shape_plug in HS0 as [HSa HKa].
  cbn [shape] in HSa. destruct HSa as (Ha & _ & Sr).
  destruct r0 as [|rl ra rc rv rr].
  - (* no right child: climb *)
    destruct (split_FR k) as (k1 & k2 & -> & HF & H2).
    rewrite length_app in Hh.
    pose proof (climb_refines h r nf k2 H2 k1 l a c v PLeaf fuel HF HS ND) as Hc.
    assert (Hn : (r1 <- get right (Some a);;
                  if is_null r1
                  then (node <- RBTree.climb fuel (Some a);; get parent node)
                  else (node <- get right (Some a);; RBTree.leftmost fuel node))
                 (mkState h r nf) = Done (ctx_ptr k2) (mkState h r nf)).
    { erewrite bind_done by (exec; reflexivity). cbn [is_null root_ptr].
      apply Hc. lia. }
    rewrite Hn.
    rewrite cvright_app, (cvright_FR k1 HF), cright_app, (cright_FR k1 HF).
    cbn [values addrs app].
    destruct k2 as [|[p cp vp sib|] k2]; [left|right|destruct H2].
    + repeat split; reflexivity.
    + exists (plug (PNode l a c v PLeaf) k1), p, cp, vp, sib, k2.
      split; [rewrite plug_app; reflexivity|]. repeat split; reflexivity.
  - (* a right child: its leftmost node *)
    right.
    destruct (left_spine_exists (PNode rl ra rc rv rr)) as
      (y & cy & vy & ry & kR & ER & HF & Hlen); [discriminate|].
    rewrite ER in *. clear ER rl ra rc rv rr.
    assert (ET : plug (PNode l a c v (plug (PNode PLeaf y cy vy ry) kR)) k
                 = plug (PNode PLeaf y cy vy ry) (kR ++ FR l a c v :: k)).
    { rewrite plug_app. reflexivity. }
    exists PLeaf, y, cy, vy, ry, (kR ++ FR l a c v :: k).
    split; [symmetry; exact ET|].
    split.
    { rewrite values_plug, (cvleft_FL kR HF), cvright_app.
      cbn [values app cvright]. rewrite <- !app_assoc. reflexivity. }
    split.
    { rewrite addrs_plug, (cleft_FL kR HF), cright_app.
      cbn [addrs app cright]. rewrite <- !app_assoc. reflexivity. }
    rewrite ET in HS. apply shape_plug in HS as [HSy HKy].
    cbn [shape root_ptr] in HSy. destruct HSy as (Hy & _).
    rewrite root_ptr_plug in Ha. cbn [root_ptr] in Ha.
    destruct (plug_root_some y kR) as (b & Eb).
    rewrite Eb in Ha. exec. rewrite <- Eb.
    apply (leftmost_refines h r nf y _ _ _ _ Hy kR (FR l a c v :: k) fuel HF HKy).
    cbn [height] in Hlen, Hh. lia.
Qed.

(** The walk from a focus yields its value and all that follow in order. *)
Lemma walk_focus n :
  forall l a c v r0 k steps fuel h r nf,
    length (values r0 ++ cvright k) = n ->
    shape h None (plug (PNode l a c v r0) k) ->
    NoDup (addrs (plug (PNode l a c v r0) k)) ->
    (height (plug (PNode l a c v r0) k) < fuel)%nat ->
    (S n < steps)%nat ->
    walk steps fuel (Some a) (mkState h r nf)
    = Done (v :: values r0 ++ cvright k) (mkState h r nf).
Proof.
  induction n as [n IH] using lt_wf_ind.
  intros l a c v r0 k steps fuel h r nf Hn HS ND Hf Hsteps.
  destruct steps as [|steps]; [lia|].
  pose proof HS as HS0. apply shape_plug in HS0 as [HSa _].
  cbn [shape] in HSa. destruct HSa as (Ha & _).
  rewrite walk_S.
  replace (get data (Some a) (mkState h r nf)) with (Done v (mkState h r nf))
    by (symmetry; exec; reflexivity).
  cbv beta iota.
  destruct (next_inorder_focus h r nf l a c v r0 k fuel HS ND Hf)
    as [(Hnil & _ & Hnext)|(l' & a' & c' & v' & r' & k' & ET & Hv & _ & Hnext)];
    rewrite Hnext; cbv beta iota.
  - rewrite Hnil. destruct steps as [|steps]; [lia|]. reflexivity.
  - rewrite <- ET in HS, ND, Hf.
    assert (Hlt : (length (values r' ++ cvright k') < n)%nat).
    { rewrite <- Hn, Hv. simpl. lia. }
    rewrite (IH _ Hlt l' a' c' v' r' k' steps fuel h r nf eq_refl HS ND Hf) by lia.
    rewrite Hv. reflexivity.
Qed.

(** On a well-formed tree the traversal from [first()] by [next_inorder]
    returns the values of the tree, left to right. *)
Lemma traversal_wf s T steps fuel :
  wf s T -> (height T < fuel)%nat -> (S (length (addrs T)) < steps)%nat ->
  traversal steps fuel s = Done (values T) s.
Proof.
  intros W Hf Hsteps. destruct s as [h r nf].
  pose proof (wf_root _ _ W) as Hr. cbn [_root] in Hr. subst r.
  pose proof (wf_shape _ _ W) as HS. pose proof (wf_nodup _ _ W) as ND.
  cbn [mem] in HS. unfold traversal, RBTree.first.
  destruct T as [|tl ta tc tv tr].
  - exec_cbn. destruct steps; [lia|]. reflexivity.
  - destruct (left_spine_exists (PNode tl ta tc tv tr)) as
      (y & cy & vy & ry & kR & ER & HF & Hlen); [discriminate|].
    rewrite ER in *. clear ER tl ta tc tv tr.
    rewrite root_ptr_plug. cbn [root_ptr].
    pose proof HS as HS0. apply shape_plug in HS0 as [HSy HKy].
    cbn [shape root_ptr] in HSy. destruct HSy as (Hy & _).
    destruct (plug_root_some y kR) as (b & Eb). rewrite Eb.
    exec_cbn. rewrite <- Eb.
    rewrite <- (app_nil_r kR) in HKy.
    rewrite (leftmost_refines h _ nf y _ _ _ _ Hy kR [] fuel HF HKy) by lia.
    rewrite (walk_focus (length (values ry ++ cvright kR)) PLeaf y cy vy ry kR steps fuel
               h _ nf eq_refl HS ND Hf).
    + rewrite values_plug, (cvleft_FL kR HF). reflexivity.
    + rewrite addrs_values_length in Hsteps.
      rewrite values_plug, (cvleft_FL kR HF) in Hsteps. simpl in Hsteps. lia.
Qed.


(** * Properties of the tree operations *)

(** ** Rotations *)

Lemma snapshot_wf s T fuel :
  wf s T -> (height T <= fuel)%nat ->
  inorder <$> snapshot_of fuel s = Some (values T).
Proof.
  intros W Hf. unfold snapshot_of. rewrite (wf_root _ _ W).
  rewrite (snapshot_shape _ _ None fuel (wf_shape _ _ W) Hf).
  simpl. rewrite inorder_erase. reflexivity.
Qed.

Lemma height_plug_rotl k l x cx vx b y cy vy c :
  (height (plug (PNode (PNode l x cx vx b) y cy vy c) k)
   <= S (height (plug (PNode l x cx vx (PNode b y cy vy c)) k)))%nat.
Proof.
  assert (G : forall t t' k, (height t' <= S (height t))%nat ->
                (height (plug t' k) <= S (height (plug t k)))%nat).
  { clear. intros t t' k. revert t t'.
    induction k as [|[a c v r|l a c v] k IH]; intros t t' H; simpl; [exact H|..];
      apply IH; simpl; lia. }
  apply G. simpl. lia.
Qed.

Lemma height_plug_rotr k l x cx vx b y cy vy c :
  (height (plug (PNode l x cx vx (PNode b y cy vy c)) k)
   <= S (height (plug (PNode (PNode l x cx vx b) y cy vy c) k)))%nat.
Proof.
  assert (G : forall t t' k, (height t' <= S (height t))%nat ->
                (height (plug t' k) <= S (height (plug t k)))%nat).
  { clear. intros t t' k. revert t t'.
    induction k as [|[a c v r|l a c v] k IH]; intros t t' H; simpl; [exact H|..];
      apply IH; simpl; lia. }
  apply G. simpl. lia.
Qed.

(** What the former parent of a rotated node holds afterwards: the slot that
    pointed at [x] points at [y]. *)
Lemma parent_slot s s' k X Y x y :
  root_ptr X = Some x -> root_ptr Y = Some y ->
  wf s (plug X k) -> wf s' (plug Y k) ->
  forall p np,
    ctx_ptr k = Some p -> mem s !! p = Some np ->
    mem s' !! p
    = Some (if ptr_eqb (Some x) (left np) then with_left (Some y) np
            else with_right (Some y) np).
Proof.
  intros HX HY W W' p np Hp Hnp.
  destruct X as [|xl x0 xc xv xr]; [discriminate|]. injection HX as ->.
  destruct Y as [|yl y0 yc yv yr]; [discriminate|]. injection HY as ->.
  pose proof (wf_nodup _ _ W) as ND. rewrite addrs_plug in ND.
  destruct k as [|[q cq vq sib|sib q cq vq] k]; simpl in Hp; [discriminate|..];
    injection Hp as ->;
    cbn [addrs cleft cright] in ND;
    [ pose proof (wf_focus s (PNode xl x xc xv xr) p cq vq sib k W) as H1;
      pose proof (wf_focus s' (PNode yl y yc yv yr) p cq vq sib k W') as H2
    | pose proof (wf_focus s sib p cq vq (PNode xl x xc xv xr) k W) as H1;
      pose proof (wf_focus s' sib p cq vq (PNode yl y yc yv yr) k W') as H2 ];
    rewrite Hnp in H1; injection H1 as ->; rewrite H2; cbn [left root_ptr].
  - rewrite ptr_eqb_refl. reflexivity.
  - rewrite ptr_eqb_root_ne by distinct. reflexivity.
Qed.

Lemma root_after_rotation s s' k X Y x y :
  root_ptr X = Some x -> root_ptr Y = Some y ->
  wf s (plug X k) -> wf s' (plug Y k) ->
  (_root s = Some x -> _root s' = Some y) /\
  (_root s <> Some x -> _root s' = _root s).
Proof.
  intros HX HY W W'.
  destruct X as [|xl x0 xc xv xr]; [discriminate|]. injection HX as ->.
  destruct Y as [|yl y0 yc yv yr]; [discriminate|]. injection HY as ->.
  rewrite (wf_root _ _ W), (wf_root _ _ W'), !root_ptr_plug. cbn [root_ptr].
  destruct k as [|f k].
  - simpl. split; [reflexivity|congruence].
  - split.
    + intros E. pose proof (root_not_focus xl x xc xv xr (f :: k)) as H.
      rewrite E, ptr_eqb_refl in H.
      discriminate H; [discriminate|exact (wf_nodup _ _ W)].
    + intros _. destruct f; reflexivity.
Qed.

Lemma leftRotate_effect s T x nx y :
  wf s T -> mem s !! x = Some nx -> right nx = Some y ->
  exists k l cx vx b cy vy c s',
    T = plug (PNode l x cx vx (PNode b y cy vy c)) k /\
    RBTree.leftRotate (Some x) s = Done tt s' /\
    wf s' (plug (PNode (PNode l x cx vx b) y cy vy c) k) /\
    values (plug (PNode (PNode l x cx vx b) y cy vy c) k) = values T /\
    (forall fuel, (height T < fuel)%nat ->
       inorder <$> snapshot_of fuel s = Some (values T) /\
       inorder <$> snapshot_of fuel s' = Some (values T)) /\
    same_nodes (mem s) (mem s') /\
    mem s' !! x = Some (mkRBNode (Some y) (root_ptr b) (left nx) vx cx) /\
    mem s' !! y = Some (mkRBNode (parent nx) (root_ptr c) (Some x) vy cy) /\
    (forall b0 nb,
       root_ptr b = Some b0 -> mem s' !! b0 = Some nb -> parent nb = Some x) /\
    (forall p np,
       parent nx = Some p -> mem s !! p = Some np ->
       mem s' !! p
       = Some (if ptr_eqb (Some x) (left np) then with_left (Some y) np
               else with_right (Some y) np)) /\
    (_root s = Some x -> _root s' = Some y) /\
    (_root s <> Some x -> _root s' = _root s).
Proof.
  intros W Hx Hr.
  destruct (focus_right s T x nx y W Hx Hr) as (k & l & cx & vx & b & cy & vy & c & ->).
  destruct (leftRotate_wf s k l x cx vx b y cy vy c W) as (s' & Hrun & W' & Hsame & _).
  pose proof (wf_focus _ _ _ _ _ _ _ W) as Hx'. rewrite Hx in Hx'.
  injection Hx' as ->. cbn [left right parent] in *.
  exists k, l, cx, vx, b, cy, vy, c, s'.
  split; [reflexivity|]. split; [exact Hrun|]. split; [exact W'|].
  split; [apply rot_values|].
  split.
  { intros fuel Hf. split; [apply snapshot_wf; [exact W|lia]|].
    rewrite <- rot_values. apply snapshot_wf; [exact W'|].
    pose proof (height_plug_rotl k l x cx vx b y cy vy c). lia. }
  split; [exact Hsame|].
  split; [exact (wf_focus s' l x cx vx b (FL y cy vy c :: k) W')|].
  split; [exact (wf_focus s' (PNode l x cx vx b) y cy vy c k W')|].
  split.
  { intros b0 nb Hb Hnb. destruct b as [|bl b0' cb vb br]; [discriminate|].
    injection Hb as ->.
    pose proof (wf_focus s' bl b0 cb vb br (FR l x cx vx :: FL y cy vy c :: k) W') as H.
    rewrite Hnb in H. injection H as ->. reflexivity. }
  split.
  { intros p np Hp Hnp.
    eapply (parent_slot s s' k _ _ x y); eauto; reflexivity. }
  eapply (root_after_rotation s s' k _ _ x y); eauto; reflexivity.
Qed.

Lemma rightRotate_effect s T y ny x :
  wf s T -> mem s !! y = Some ny -> left ny = Some x ->
  exists k a cx vx b cy vy c s',
    T = plug (PNode (PNode a x cx vx b) y cy vy c) k /\
    RBTree.rightRotate (Some y) s = Done tt s' /\
    wf s' (plug (PNode a x cx vx (PNode b y cy vy c)) k) /\
    values (plug (PNode a x cx vx (PNode b y cy vy c)) k) = values T /\
    (forall fuel, (height T < fuel)%nat ->
       inorder <$> snapshot_of fuel s = Some (values T) /\
       inorder <$> snapshot_of fuel s' = Some (values T)) /\
    same_nodes (mem s) (mem s') /\
    mem s' !! y = Some (mkRBNode (Some x) (right ny) (root_ptr b) vy cy) /\
    mem s' !! x = Some (mkRBNode (parent ny) (Some y) (root_ptr a) vx cx) /\
    (forall b0 nb,
       root_ptr b = Some b0 -> mem s' !! b0 = Some nb -> parent nb = Some y) /\
    (forall p np,
       parent ny = Some p -> mem s !! p = Some np ->
       mem s' !! p
       = Some (if ptr_eqb (Some y) (left np) then with_left (Some x) np
               else with_right (Some x) np)) /\
    (_root s = Some y -> _root s' = Some x) /\
    (_root s <> Some y -> _root s' = _root s).
Proof.
  intros W Hy Hl.
  destruct (focus_left s T y ny x W Hy Hl) as (k & a & cx & vx & b & cy & vy & c & ->).
  destruct (rightRotate_wf s k a x cx vx b y cy vy c W) as (s' & Hrun & W' & Hsame & _).
  pose proof (wf_focus _ _ _ _ _ _ _ W) as Hy'. rewrite Hy in Hy'.
  injection Hy' as ->. cbn [left right parent] in *.
  exists k, a, cx, vx, b, cy, vy, c, s'.
  split; [reflexivity|]. split; [exact Hrun|]. split; [exact W'|].
  split; [symmetry; apply rot_values|].
  split.
  { intros fuel Hf. split; [apply snapshot_wf; [exact W|lia]|].
    rewrite rot_values. apply snapshot_wf; [exact W'|].
    pose proof (height_plug_rotr k a x cx vx b y cy vy c). lia. }
  split; [exact Hsame|].
  split; [exact (wf_focus s' b y cy vy c (FR a x cx vx :: k) W')|].
  split; [exact (wf_focus s' a x cx vx (PNode b y cy vy c) k W')|].
  split.
  { intros b0 nb Hb Hnb. destruct b as [|bl b0' cb vb br]; [discriminate|].
    injection Hb as ->.
    pose proof (wf_focus s' bl b0 cb vb br (FL y cy vy c :: FR a x cx vx :: k) W') as H.
    rewrite Hnb in H. injection H as ->. reflexivity. }
  split.
  { intros p np Hp Hnp.
    eapply (parent_slot s s' k _ _ y x); eauto; reflexivity. }
  eapply (root_after_rotation s s' k _ _ y x); eauto; reflexivity.
Qed.

(** C8.  In a well-formed tree, for every node [x] with a non-null right
    child [y], [leftRotate(x)] returns and leaves a well-formed tree in which
    [y] stands where [x] stood, [x] is the left child of [y], and the former
    left subtree [b] of [y] is the right subtree of [x], its root's parent
    pointer set to [x].  The in-order sequence of values is the same, read
    from the tree or from the heap; every node keeps its colour and value;
    the child slot of the former parent of [x] that pointed at [x] points at
    [y]; the root pointer is [y] if it was [x] and is unchanged otherwise.
    [rightRotate] does the same, mirrored, for a node with a non-null left
    child. *)
Theorem C8_rotations :
  (forall s T x nx y,
     wf s T -> mem s !! x = Some nx -> right nx = Some y ->
     exists k l cx vx b cy vy c s',
       T = plug (PNode l x cx vx (PNode b y cy vy c)) k /\
       RBTree.leftRotate (Some x) s = Done tt s' /\
       wf s' (plug (PNode (PNode l x cx vx b) y cy vy c) k) /\
       values (plug (PNode (PNode l x cx vx b) y cy vy c) k) = values T /\
       (forall fuel, (height T < fuel)%nat ->
          inorder <$> snapshot_of fuel s = Some (values T) /\
          inorder <$> snapshot_of fuel s' = Some (values T)) /\
       same_nodes (mem s) (mem s') /\
       mem s' !! x = Some (mkRBNode (Some y) (root_ptr b) (left nx) vx cx) /\
       mem s' !! y = Some (mkRBNode (parent nx) (root_ptr c) (Some x) vy cy) /\
       (forall b0 nb,
          root_ptr b = Some b0 -> mem s' !! b0 = Some nb -> parent nb = Some x) /\
       (forall p np,
          parent nx = Some p -> mem s !! p = Some np ->
          mem s' !! p
          = Some (if ptr_eqb (Some x) (left np) then with_left (Some y) np
                  else with_right (Some y) np)) /\
       (_root s = Some x -> _root s' = Some y) /\
       (_root s <> Some x -> _root s' = _root s)) /\
  (forall s T y ny x,
     wf s T -> mem s !! y = Some ny -> left ny = Some x ->
     exists k a cx vx b cy vy c s',
       T = plug (PNode (PNode a x cx vx b) y cy vy c) k /\
       RBTree.rightRotate (Some y) s = Done tt s' /\
       wf s' (plug (PNode a x cx vx (PNode b y cy vy c)) k) /\
       values (plug (PNode a x cx vx (PNode b y cy vy c)) k) = values T /\
       (forall fuel, (height T < fuel)%nat ->
          inorder <$> snapshot_of fuel s = Some (values T) /\
          inorder <$> snapshot_of fuel s' = Some (values T)) /\
       same_nodes (mem s) (mem s') /\
       mem s' !! y = Some (mkRBNode (Some x) (right ny) (root_ptr b) vy cy) /\
       mem s' !! x = Some (mkRBNode (parent ny) (Some y) (root_ptr a) vx cx) /\
       (forall b0 nb,
          root_ptr b = Some b0 -> mem s' !! b0 = Some nb -> parent nb = Some y) /\
       (forall p np,
          parent ny = Some p -> mem s !! p = Some np ->
          mem s' !! p
          = Some (if ptr_eqb (Some y) (left np) then with_left (Some x) np
                  else with_right (Some x) np)) /\
       (_root s = Some y -> _root s' = Some x) /\
       (_root s <> Some y -> _root s' = _root s)).
Proof.
  split.
  - exact leftRotate_effect.
  - exact rightRotate_effect.
Qed.

Lemma wf_10_20_30 : wf st_10_20_30 tree_10_20_30.
Proof. apply wf_b_sound. vm_compute. reflexivity. Defined.

(** C8, at the root 20 of the tree built from 10, 20, 30: its right child
    is 30. *)
Lemma C8_rotations_witness :
  wf st_10_20_30 tree_10_20_30 /\
  mem st_10_20_30 !! 2%nat
  = Some (mkRBNode None (Some 3%nat) (Some 1%nat) 20 BLACK) /\
  exists s',
    RBTree.leftRotate (Some 2%nat) st_10_20_30 = Done tt s' /\
    same_nodes (mem st_10_20_30) (mem s') /\
    (_root st_10_20_30 = Some 2%nat -> _root s' = Some 3%nat).
Proof.
  split; [exact wf_10_20_30|].
  assert (H2 : mem st_10_20_30 !! 2%nat
               = Some (mkRBNode None (Some 3%nat) (Some 1%nat) 20 BLACK))
    by (vm_compute; reflexivity).
  split; [exact H2|].
  destruct (proj1 C8_rotations st_10_20_30 tree_10_20_30 2%nat _ 3%nat
              wf_10_20_30 H2 eq_refl)
    as (k & l & cx & vx & b & cy & vy & c & s' & _ & Hrun & _ & _ & _ & Hsame
        & _ & _ & _ & _ & Hroot & _).
  exists s'. split; [exact Hrun|]. split; [exact Hsame|exact Hroot].
Defined.

(** ** Insertion *)

(** C5 (counterexample).  Inserting 10 twice stores two nodes; the in-order
    sequence [10; 10] is not strictly increasing, and the second call was
    not a no-op. *)
Lemma C5_equivalent_values_coexist :
  run_ops 10 [Insert 10; Insert 10] empty_tree = Done tt st_10_10 /\
  snapshot_of 10 st_10_10 = Some (Node BLACK Leaf 10 (Node RED Leaf 10 Leaf)) /\
  RBTree.size 10 st_10_10 = Done 2%nat st_10_10 /\
  equiv 10 10 = true /\
  ~ increasing [10; 10].
Proof.
  split; [vm_compute; reflexivity|]. split; [vm_compute; reflexivity|].
  split; [vm_compute; reflexivity|]. split; [reflexivity|].
  intros H. inversion H as [|? ? _ Hf]. inversion Hf as [|? ? Hc _].
  vm_compute in Hc. discriminate Hc.
Qed.

(** C5 (amended).  Whatever values are inserted into the empty tree, in
    whatever order, every call returns, and the resulting heap lays out a
    tree whose in-order sequence is non-decreasing under the comparator and
    holds exactly the inserted values, repeated ones included: an equivalent
    value is stored in a node of its own. *)
Theorem C5_inorder_nondecreasing :
  forall vs fuel,
    (length vs <= fuel)%nat ->
    exists s T,
      run_ops fuel (map Insert vs) empty_tree = Done tt s /\
      wf s T /\
      inorder <$> snapshot_of fuel s = Some (values T) /\
      nondecreasing (values T) /\
      values T ≡ₚ vs.
Proof.
  intros vs fuel Hf.
  destruct (run_inserts vs empty_tree PLeaf fuel wf_empty rb_leaf) as
    (s & T & Hrun & W & _ & Hs & Hp & Hl).
  - apply nondecreasing_le. constructor.
  - simpl. exact Hf.
  - exists s, T. split; [exact Hrun|]. split; [exact W|].
    split; [|split; [exact Hs|exact Hp]].
    apply snapshot_wf; [exact W|].
    pose proof (height_le_size T). simpl in Hl. lia.
Qed.

(** C5, for the values 10, 10: the fuel 2 is enough. *)
Lemma C5_inorder_nondecreasing_witness :
  (length [10; 10] <= 2)%nat /\
  exists s T,
    run_ops 2 (map Insert [10; 10]) empty_tree = Done tt s /\
    wf s T /\
    inorder <$> snapshot_of 2 s = Some (values T) /\
    nondecreasing (values T) /\
    values T ≡ₚ [10; 10].
Proof.
  split; [simpl; lia|].
  apply (C5_inorder_nondecreasing [10; 10] 2%nat). simpl. lia.
Defined.

(** C6 (counterexample).  [insert] is declared [void]: a call hands back no
    boolean, whether or not the value was already stored. *)
Lemma C6_insert_returns_no_boolean :
  insert_returns 10 10 empty_tree = Some Void /\
  insert_returns 10 10 st_10 = Some Void /\
  ~ (exists b, insert_returns 10 10 empty_tree = Some (Bool b)) /\
  ~ (exists b, insert_returns 10 10 st_10 = Some (Bool b)).
Proof.
  split; [vm_compute; reflexivity|]. split; [vm_compute; reflexivity|].
  split; intros [b H]; vm_compute in H; discriminate H.
Qed.

(** C6 (amended).  On every well-formed red-black tree, with fuel beyond
    its height, [insert(v)] returns, hands back no value, and creates
    exactly one node: the allocator's next address was free, it now holds a
    node with the value [v], every other node is still allocated and nothing
    else is, and [size()] is one more than before. *)
Theorem C6_insert_creates_one_node :
  forall s T v fuel,
    wf s T -> rb T -> (height T < fuel)%nat ->
    exists s' T',
      RBTree.insert fuel v s = Done tt s' /\
      insert_returns fuel v s = Some Void /\
      wf s' T' /\ rb T' /\
      mem s !! next_free s = None /\
      (exists n, mem s' !! next_free s = Some n /\ data n = v) /\
      (forall a, is_Some (mem s' !! a) <-> a = next_free s \/ is_Some (mem s !! a)) /\
      (forall fuel', (length (addrs T) + 1 < fuel')%nat ->
         RBTree.size fuel' s = Done (length (addrs T)) s /\
         RBTree.size fuel' s' = Done (S (length (addrs T))) s').
Proof.
  intros s T v fuel W Hrb Hf.
  destruct (ins_ok fuel (next_free s) v T Hrb Hf) as
    (T1 & L & R & Lv & Rv & Hins & Hrb1 & Ha & Ha1 & Hv & Hv1 & Hlen & _).
  destruct (insert_refines s T v fuel W Hrb Hf) as (T1' & s1 & Hins' & Hrun & W1 & _).
  rewrite Hins in Hins'. injection Hins' as <-.
  exists s1, T1. split; [exact Hrun|].
  split; [unfold insert_returns; rewrite Hrun; reflexivity|].
  split; [exact W1|]. split; [exact Hrb1|].
  assert (Hfree : mem s !! next_free s = None).
  { destruct (mem s !! next_free s) eqn:E; [|reflexivity].
    exfalso. apply (fresh_not_in _ _ W). apply (wf_dom _ _ W). eauto. }
  split; [exact Hfree|].
  split.
  { apply (shape_nth (mem s1) T1 None (length L)); [exact (wf_shape _ _ W1)| |].
    - rewrite Ha1. rewrite lookup_app_r by lia. rewrite Nat.sub_diag. reflexivity.
    - rewrite Hv1. rewrite lookup_app_r by lia.
      rewrite Hlen, Nat.sub_diag. reflexivity. }
  split.
  { intros a. split.
    - intros Hs. apply (wf_dom _ _ W1) in Hs. rewrite Ha1 in Hs.
      rewrite elem_of_app, elem_of_cons in Hs.
      destruct Hs as [Hs|[->|Hs]]; [right|left; reflexivity|right];
        apply (shape_lookup _ None T _ (wf_shape _ _ W)); rewrite Ha;
        apply elem_of_app; auto.
    - intros Hs. apply (shape_lookup _ None T1 _ (wf_shape _ _ W1)). rewrite Ha1.
      rewrite elem_of_app, elem_of_cons.
      destruct Hs as [->|Hs]; [right; left; reflexivity|].
      apply (wf_dom _ _ W) in Hs. rewrite Ha, elem_of_app in Hs. tauto. }
  intros fuel' Hf'.
  assert (Hl1 : length (addrs T1) = S (length (addrs T))).
  { rewrite Ha, Ha1, !length_app. simpl. lia. }
  split.
  - apply size_wf; [exact W|]. pose proof (height_le_size T). lia.
  - rewrite <- Hl1. apply size_wf; [exact W1|].
    pose proof (height_le_size T1). lia.
Qed.

(** C6, at the tree built from 10, 20, 30 with the value 25. *)
Lemma C6_insert_creates_one_node_witness :
  wf st_10_20_30 tree_10_20_30 /\ rb tree_10_20_30 /\
  (height tree_10_20_30 < 3)%nat /\
  exists s' T',
    RBTree.insert 3 25 st_10_20_30 = Done tt s' /\
    wf s' T' /\
    (exists n, mem s' !! next_free st_10_20_30 = Some n /\ data n = 25).
Proof.
  assert (Hrb : rb tree_10_20_30) by (apply rb_b_sound; vm_compute; reflexivity).
  assert (Hh : (height tree_10_20_30 < 3)%nat) by (vm_compute; lia).
  split; [exact wf_10_20_30|]. split; [exact Hrb|]. split; [exact Hh|].
  destruct (C6_insert_creates_one_node st_10_20_30 tree_10_20_30 25 3%nat
              wf_10_20_30 Hrb Hh)
    as (s' & T' & Hrun & _ & W' & _ & _ & Hn & _).
  exists s', T'. split; [exact Hrun|]. split; [exact W'|exact Hn].
Defined.


(** ** Trees built by insertion alone *)

(** X1.  Any sequence of [insert] calls on the empty tree returns, given
    fuel for one descent per stored value, and leaves a tree whose root is
    black, in which no red node has a red child, and in which every path
    from the root to a null child crosses the same number of black nodes. *)
Theorem insert_sequence_keeps_invariants (vs : list Z) (fuel : nat) :
  (length vs <= fuel)%nat ->
  exists s', run_ops fuel (map Insert vs) empty_tree = Done tt s' /\
             rb_invariants s'.
Proof.
  intros Hf.
  destruct (run_inserts vs empty_tree PLeaf fuel wf_empty rb_leaf)
    as (s' & T' & Hrun & W & Hrb & _); [constructor|simpl; lia|].
  exists s'. split; [exact Hrun|]. exact (wf_rb_invariants s' T' W Hrb).
Qed.

(** X1, for the values 10, 20, 30. *)
Lemma insert_sequence_keeps_invariants_witness :
  exists s', run_ops 3 (map Insert [10; 20; 30]) empty_tree = Done tt s' /\
             rb_invariants s'.
Proof.
  apply (insert_sequence_keeps_invariants [10; 20; 30] 3). simpl. lia.
Defined.

(** X2.  After any sequence of [insert] calls on the empty tree, the
    traversal by [first()] and [next_inorder] visits the inserted values,
    each as often as it was inserted, in non-decreasing order, and [size()]
    is the number of insertions. *)
Theorem traversal_after_inserts (vs : list Z) (steps fuel : nat) :
  (length vs < fuel)%nat -> (S (length vs) < steps)%nat ->
  exists s' xs,
    run_ops fuel (map Insert vs) empty_tree = Done tt s' /\
    traversal steps fuel s' = Done xs s' /\
    nondecreasing xs /\ xs ≡ₚ vs /\
    RBTree.size fuel s' = Done (length vs) s'.
Proof.
  intros Hf Hsteps.
  destruct (run_inserts vs empty_tree PLeaf fuel wf_empty rb_leaf)
    as (s' & T' & Hrun & W & Hrb & Hs & Hp & Hlen); [constructor|simpl; lia|].
  simpl in Hp, Hlen. pose proof (height_le_size T') as Hh.
  exists s', (values T').
  split; [exact Hrun|].
  split; [apply (traversal_wf s' T'); [exact W|lia|lia]|].
  split; [exact Hs|]. split; [exact Hp|].
  rewrite <- Hlen. apply size_wf; [exact W|lia].
Qed.

(** X2, for the values 30, 10, 20, 10. *)
Lemma traversal_after_inserts_witness :
  exists s' xs,
    run_ops 5 (map Insert [30; 10; 20; 10]) empty_tree = Done tt s' /\
    traversal 6 5 s' = Done xs s' /\
    nondecreasing xs /\ xs ≡ₚ [30; 10; 20; 10] /\
    RBTree.size 5 s' = Done 4%nat s'.
Proof.
  apply (traversal_after_inserts [30; 10; 20; 10] 6 5); simpl; lia.
Defined.

(** ** Traversal against the recursive in-order reading *)

(** X3.  On a well-formed tree the traversal from [first()] by
    [next_inorder] returns, and yields exactly the in-order sequence of the
    tree read recursively from the root (left subtree, node, right subtree);
    [size()] is the length of that sequence. *)
Theorem traversal_is_inorder (s : state) (T : ptree) (steps fuel : nat) :
  wf s T -> (height T < fuel)%nat -> (S (length (addrs T)) < steps)%nat ->
  exists t,
    snapshot_of fuel s = Some t /\
    traversal steps fuel s = Done (inorder t) s /\
    RBTree.size fuel s = Done (length (inorder t)) s.
Proof.
  intros W Hf Hsteps. exists (erase T).
  split.
  { unfold snapshot_of. rewrite (wf_root _ _ W).
    apply (snapshot_shape _ _ None fuel (wf_shape _ _ W)). lia. }
  rewrite inorder_erase.
  split; [apply traversal_wf; assumption|].
  rewrite <- addrs_values_length. apply size_wf; assumption.
Qed.

(** X3, on the tree built from 10, 20, 30. *)
Lemma traversal_is_inorder_witness :
  exists t,
    snapshot_of 3 st_10_20_30 = Some t /\
    traversal 5 3 st_10_20_30 = Done (inorder t) st_10_20_30 /\
    RBTree.size 3 st_10_20_30 = Done (length (inorder t)) st_10_20_30.
Proof.
  apply (traversal_is_inorder st_10_20_30 tree_10_20_30 5 3 wf_10_20_30);
    vm_compute; lia.
Defined.


(** ** Balance: the height of a red-black tree is logarithmic *)

(** A subtree of black height [n] is at most [2n] high, one more when its
    root is red. *)
Lemma bh_height t :
  forall n, nrr t -> bh t n ->
            (height t <= 2 * n + (if is_red (col t) then 1 else 0))%nat.
Proof.
  induction t as [|l IHl a c v r IHr]; intros n Hn Hb; [simpl; lia|].
  cbn [nrr bh height col] in *.
  destruct Hn as (Hc & Hnl & Hnr). destruct Hb as (m & -> & Hbl & Hbr).
  specialize (IHl m Hnl Hbl). specialize (IHr m Hnr Hbr).
  destruct c; cbn [is_red black_count].
  - destruct (is_red (col l)), (is_red (col r)); lia.
  - destruct (Hc eq_refl) as [El Er]. rewrite El in IHl. rewrite Er in IHr.
    cbn [is_red] in *. lia.
Qed.

(** A subtree of black height [n] holds at least [2^n - 1] nodes. *)
Lemma bh_size t : forall n, bh t n -> (2 ^ n <= S (length (addrs t)))%nat.
Proof.
  induction t as [|l IHl a c v r IHr]; intros n Hb; simpl in *.
  - subst n. simpl. lia.
  - destruct Hb as (m & -> & Hbl & Hbr).
    specialize (IHl m Hbl). specialize (IHr m Hbr).
    rewrite length_app. simpl.
    assert (2 ^ (black_count c + m) <= 2 * 2 ^ m)%nat.
    { destruct c; simpl; lia. }
    lia.
Qed.

Lemma rb_height_log T :
  rb T -> (height T <= 2 * Nat.log2 (S (length (addrs T))))%nat.
Proof.
  intros (Hc & Hn & n & Hb).
  pose proof (bh_height T n Hn Hb) as Hh. rewrite Hc in Hh. simpl in Hh.
  pose proof (bh_size T n Hb) as Hs.
  apply Nat.log2_le_pow2 in Hs; lia.
Qed.

(** Insertions one after another, each with fuel for a logarithmic number
    of loop rounds. *)
Lemma run_inserts_log vs :
  forall s T fuel,
    wf s T -> rb T ->
    (2 * Nat.log2 (S (length (addrs T) + length vs)) < fuel)%nat ->
    exists s' T',
      run_ops fuel (map Insert vs) s = Done tt s' /\
      wf s' T' /\ rb T' /\
      length (addrs T') = (length (addrs T) + length vs)%nat.
Proof.
  induction vs as [|v vs IH]; intros s T fuel W Hrb Hf.
  - exists s, T. simpl. rewrite Nat.add_0_r. auto.
  - cbn [length] in Hf. pose proof (rb_height_log T Hrb) as Hh.
    assert (Hmono : (Nat.log2 (S (length (addrs T)))
                     <= Nat.log2 (S (length (addrs T) + S (length vs))))%nat)
      by (apply Nat.log2_le_mono; lia).
    destruct (ins_ok fuel (next_free s) v T Hrb) as
      (T1 & L & R & Lv & Rv & Hins & Hrb1 & Ha & Ha1 & _); [lia|].
    destruct (insert_refines s T v fuel W Hrb) as (T1' & s1 & Hins' & Hrun & W1 & _);
      [lia|].
    rewrite Hins in Hins'. injection Hins' as <-.
    assert (Hlen1 : length (addrs T1) = S (length (addrs T))).
    { rewrite Ha, Ha1, !length_app. simpl. lia. }
    destruct (IH s1 T1 fuel W1 Hrb1) as (s' & T' & Hrun' & W' & Hrb' & Hl).
    { rewrite Hlen1. replace (S (length (addrs T)) + length vs)%nat
        with (length (addrs T) + S (length vs))%nat by lia. exact Hf. }
    exists s', T'. split.
    { cbn [map run_ops run_op]. unfold bind. rewrite Hrun. exact Hrun'. }
    split; [exact W'|]. split; [exact Hrb'|]. cbn [length]. lia.
Qed.

(** X4.  A tree built by [n] calls of [insert] is at most [2 log2 (n+1)]
    high: every call returns when its descent loop and its fix-up loop are
    given [2 log2 (n+1) + 1] rounds, and so do [size()], one more [insert]
    and the traversal by [first()] and [next_inorder]. *)
Theorem inserts_need_logarithmic_fuel (vs : list Z) (fuel steps : nat) :
  (2 * Nat.log2 (S (length vs)) < fuel)%nat ->
  (S (length vs) < steps)%nat ->
  exists s' T',
    run_ops fuel (map Insert vs) empty_tree = Done tt s' /\
    wf s' T' /\
    (height T' <= 2 * Nat.log2 (S (length vs)))%nat /\
    RBTree.size fuel s' = Done (length vs) s' /\
    traversal steps fuel s' = Done (values T') s' /\
    forall v, exists s'', RBTree.insert fuel v s' = Done tt s''.
Proof.
  intros Hf Hsteps.
  destruct (run_inserts_log vs empty_tree PLeaf fuel wf_empty rb_leaf Hf)
    as (s' & T' & Hrun & W & Hrb & Hlen).
  simpl in Hlen. pose proof (rb_height_log T' Hrb) as Hh. rewrite Hlen in Hh.
  exists s', T'. split; [exact Hrun|]. split; [exact W|]. split; [exact Hh|].
  split; [rewrite <- Hlen; apply size_wf; [exact W|lia]|].
  split; [apply traversal_wf; [exact W|lia|lia]|].
  intros v.
  destruct (insert_refines s' T' v fuel W Hrb) as (T1 & s1 & _ & Hrun1 & _); [lia|].
  exists s1. exact Hrun1.
Qed.

(** X4, for seven values and seven rounds. *)
Lemma inserts_need_logarithmic_fuel_witness :
  exists s' T',
    run_ops 7 (map Insert [1; 2; 3; 4; 5; 6; 7]) empty_tree = Done tt s' /\
    wf s' T' /\
    (height T' <= 2 * Nat.log2 (S (length [1; 2; 3; 4; 5; 6; 7])))%nat /\
    RBTree.size 7 s' = Done (length [1; 2; 3; 4; 5; 6; 7]) s' /\
    traversal 9 7 s' = Done (values T') s' /\
    forall v, exists s'', RBTree.insert 7 v s' = Done tt s''.
Proof.
  apply (inserts_need_logarithmic_fuel [1; 2; 3; 4; 5; 6; 7] 7 9);
    vm_compute; lia.
Defined.


(** ** Iteration: [first], [last] and [next_inorder] by position *)

(** The loop of [last()] walks down an all-right spine. *)
Lemma rightmost_refines h r nf y py ly vy cy :
  h !! y = Some (mkRBNode py None ly vy cy) ->
  forall k1 k2 fuel,
    Forall is_FR k1 -> cshape h (k1 ++ k2) (Some y) ->
    (length k1 < fuel)%nat ->
    RBTree.rightmost fuel (plug_root (Some y) k1) (mkState h r nf)
    = Done (Some y) (mkState h r nf).
Proof.
  intros Hy k1. induction k1 as [|f k1 IH] using rev_ind; intros k2 fuel HF HC Hf.
  - destruct fuel; [simpl in Hf; lia|].
    cbn [RBTree.rightmost plug_root]. exec. reflexivity.
  - rewrite length_app in Hf. simpl in Hf.
    destruct fuel as [|fuel]; [lia|].
    apply Forall_app in HF as [HF1 Hfl]. apply Forall_cons in Hfl as [Hfl _].
    destruct f as [|l0 a c v]; [destruct Hfl|].
    rewrite <- app_assoc in HC. cbn [app] in HC.
    pose proof (cshape_app _ _ _ _ HC) as HC2. cbn [cshape] in HC2.
    destruct HC2 as (Ha & _ & _).
    assert (Er : plug_root (Some y) (k1 ++ [FR l0 a c v]) = Some a).
    { clear. revert y. induction k1 as [|[] k1 IH]; intros y; simpl; auto. }
    rewrite Er. cbn [RBTree.rightmost].
    destruct (plug_root_some y k1) as (b & Eb). rewrite Eb in Ha.
    exec. rewrite <- Eb.
    apply (IH (FR l0 a c v :: k2)); [exact HF1|exact HC|lia].
Qed.

Lemma right_spine_exists R :
  R <> PLeaf ->
  exists y cy vy ly kR,
    R = plug (PNode ly y cy vy PLeaf) kR /\ Forall is_FR kR /\
    (length kR < height R)%nat.
Proof.
  induction R as [|l _ a c v r IHr]; intros HR; [congruence|].
  destruct r as [|rl ra rc rv rr].
  - exists a, c, v, l, []. split; [reflexivity|]. split; [constructor|simpl; lia].
  - destruct IHr as (y & cy & vy & ly & kR & E & HF & Hlen); [discriminate|].
    exists y, cy, vy, ly, (kR ++ [FR l a c v]).
    split; [rewrite plug_app, <- E; reflexivity|].
    split; [apply Forall_app; split; [exact HF|repeat constructor]|].
    rewrite length_app. cbn [length height] in *. lia.
Qed.

(** In a list without repetition an element has one place. *)
Lemma NoDup_split_unique (a : nat) p1 q1 p2 q2 :
  NoDup (p1 ++ a :: q1) -> p1 ++ a :: q1 = p2 ++ a :: q2 -> p1 = p2 /\ q1 = q2.
Proof.
  revert p2. induction p1 as [|x p1 IH]; intros p2 ND E.
  - destruct p2 as [|y p2]; simpl in E.
    + injection E as ->. auto.
    + injection E as <- E. exfalso. simpl in ND. apply NoDup_cons in ND as [Hn _].
      apply Hn. rewrite E. apply elem_of_app. right. left.
  - simpl in ND. apply NoDup_cons in ND as [Hn ND].
    destruct p2 as [|y p2]; simpl in E.
    + injection E as -> E. exfalso. apply Hn. apply elem_of_app. right. left.
    + injection E as <- E. destruct (IH p2 ND E) as [-> ->]. auto.
Qed.

(** [first()] and [last()] are the two ends of the in-order sequence. *)
Lemma first_last_wf s T fuel :
  wf s T -> (height T < fuel)%nat ->
  RBTree.first fuel s = Done (head (addrs T)) s /\
  RBTree.last fuel s = Done (last (addrs T)) s.
Proof.
  intros W Hf. destruct s as [h r nf].
  pose proof (wf_root _ _ W) as Hr. cbn [_root] in Hr. subst r.
  pose proof (wf_shape _ _ W) as HS. cbn [mem] in HS.
  unfold RBTree.first, RBTree.last.
  destruct T as [|tl ta tc tv tr]; [split; reflexivity|].
  split.
  - destruct (left_spine_exists (PNode tl ta tc tv tr)) as
      (y & cy & vy & ry & kR & ER & HF & Hlen); [discriminate|].
    rewrite ER in *. clear ER tl ta tc tv tr.
    rewrite root_ptr_plug. cbn [root_ptr].
    apply shape_plug in HS as [HSy HKy].
    cbn [shape root_ptr] in HSy. destruct HSy as (Hy & _).
    destruct (plug_root_some y kR) as (b & Eb). rewrite Eb.
    exec_cbn. rewrite <- Eb.
    rewrite <- (app_nil_r kR) in HKy.
    rewrite (leftmost_refines h _ nf y _ _ _ _ Hy kR [] fuel HF HKy) by lia.
    rewrite addrs_plug, (cleft_FL kR HF). reflexivity.
  - destruct (right_spine_exists (PNode tl ta tc tv tr)) as
      (y & cy & vy & ly & kR & ER & HF & Hlen); [discriminate|].
    rewrite ER in *. clear ER tl ta tc tv tr.
    rewrite root_ptr_plug. cbn [root_ptr].
    apply shape_plug in HS as [HSy HKy].
    cbn [shape root_ptr] in HSy. destruct HSy as (Hy & _).
    destruct (plug_root_some y kR) as (b & Eb). rewrite Eb.
    exec_cbn. rewrite <- Eb.
    rewrite <- (app_nil_r kR) in HKy.
    rewrite (rightmost_refines h _ nf y _ _ _ _ Hy kR [] fuel HF HKy) by lia.
    rewrite addrs_plug, (cright_FR kR HF). cbn [addrs app].
    rewrite app_nil_r, app_assoc, last_snoc. reflexivity.
Qed.

(** X5.  On a well-formed tree [next_inorder(node)] returns the node that
    follows [node] in the in-order sequence, and null when [node] is the
    last one; the heap is left as it was. *)
Theorem next_inorder_is_successor (s : state) (T : ptree) (a : nat)
    (pre post : list nat) (fuel : nat) :
  wf s T -> addrs T = pre ++ a :: post -> (height T < fuel)%nat ->
  RBTree.next_inorder fuel (Some a) s = Done (head post) s.
Proof.
  intros W E Hf. destruct s as [h r nf].
  pose proof (wf_shape _ _ W) as HS. pose proof (wf_nodup _ _ W) as ND.
  cbn [mem] in HS.
  assert (Ha : a ∈ addrs T) by (rewrite E; apply elem_of_app; right; left).
  destruct (focus_exists T a Ha) as (l & c & v & r0 & k & ->).
  assert (EA : addrs (plug (PNode l a c v r0) k)
               = (cleft k ++ addrs l) ++ a :: addrs r0 ++ cright k).
  { rewrite addrs_plug. cbn [addrs]. rewrite <- !app_assoc. reflexivity. }
  assert (E' : (cleft k ++ addrs l) ++ a :: addrs r0 ++ cright k = pre ++ a :: post)
    by (rewrite <- EA; exact E).
  assert (ND' : NoDup ((cleft k ++ addrs l) ++ a :: addrs r0 ++ cright k))
    by (rewrite <- EA; exact ND).
  destruct (NoDup_split_unique _ _ _ _ _ ND' E') as [_ <-].
  destruct (next_inorder_focus h r nf l a c v r0 k fuel HS ND Hf)
    as [(_ & Hnil & Hnext)|(l' & a' & c' & v' & r' & k' & _ & _ & Hv & Hnext)];
    rewrite Hnext.
  - rewrite Hnil. reflexivity.
  - rewrite Hv. reflexivity.
Qed.

(** X5, at the root 20 of the tree built from 10, 20, 30: the next node
    holds 30. *)
Lemma next_inorder_is_successor_witness :
  RBTree.next_inorder 3 (Some 2%nat) st_10_20_30
  = Done (head [3%nat]) st_10_20_30.
Proof.
  apply (next_inorder_is_successor st_10_20_30 tree_10_20_30 2 [1%nat] [3%nat] 3
           wf_10_20_30); [reflexivity|vm_compute; lia].
Defined.

Lemma sorted_head_le (xs : list Z) x y :
  nondecreasing xs -> head xs = Some x -> y ∈ xs -> (x <= y).
Proof.
  intros Hs Hx Hy. destruct xs as [|z xs]; [discriminate|].
  injection Hx as ->. apply StronglySorted_inv in Hs as [_ Hall].
  apply elem_of_cons in Hy as [->|Hy]; [lia|].
  rewrite List.Forall_forall in Hall.
  specialize (Hall y (proj1 (list_elem_of_In _ _) Hy)).
  unfold comp in Hall. lia.
Qed.

Lemma sorted_last_ge (xs : list Z) x y :
  nondecreasing xs -> last xs = Some x -> y ∈ xs -> (y <= x).
Proof.
  intros Hs Hx Hy. induction xs as [|z xs IH]; [discriminate|].
  apply StronglySorted_inv in Hs as [Hs' Hall].
  destruct xs as [|z' xs].
  - injection Hx as ->. apply list_elem_of_singleton in Hy as ->. lia.
  - change (last (z :: z' :: xs)) with (last (z' :: xs)) in Hx.
    apply elem_of_cons in Hy as [->|Hy]; [|exact (IH Hs' Hx Hy)].
    rewrite List.Forall_forall in Hall.
    assert (Hin : x ∈ z' :: xs) by (apply last_Some_elem_of; exact Hx).
    specialize (Hall x (proj1 (list_elem_of_In _ _) Hin)).
    unfold comp in Hall. lia.
Qed.

(** X6.  After any non-empty sequence of [insert] calls on the empty tree,
    [first()] returns a node holding the least inserted value and [last()]
    a node holding the greatest. *)
Theorem first_last_are_extremes (vs : list Z) (fuel : nat) :
  vs <> [] -> (length vs < fuel)%nat ->
  exists s' a b na nb,
    run_ops fuel (map Insert vs) empty_tree = Done tt s' /\
    RBTree.first fuel s' = Done (Some a) s' /\
    RBTree.last fuel s' = Done (Some b) s' /\
    mem s' !! a = Some na /\ mem s' !! b = Some nb /\
    data na ∈ vs /\ data nb ∈ vs /\
    forall v, v ∈ vs -> data na <= v <= data nb.
Proof.
  intros Hne Hf.
  destruct (run_inserts vs empty_tree PLeaf fuel wf_empty rb_leaf)
    as (s' & T' & Hrun & W & Hrb & Hs & Hp & Hlen); [constructor|simpl; lia|].
  simpl in Hp, Hlen. pose proof (height_le_size T') as Hh.
  destruct (first_last_wf s' T' fuel W) as [Hfirst Hlast]; [lia|].
  assert (Hpos : (0 < length (addrs T'))%nat).
  { rewrite Hlen. destruct vs; [congruence|simpl; lia]. }
  destruct (head (addrs T')) as [a|] eqn:Ea;
    [|destruct (addrs T'); [simpl in Hpos; lia|discriminate]].
  destruct (last (addrs T')) as [b|] eqn:Eb;
    [|apply last_None in Eb; rewrite Eb in Hpos; simpl in Hpos; lia].
  rewrite head_lookup in Ea. rewrite last_lookup in Eb.
  assert (Hv0 : is_Some (values T' !! 0%nat)).
  { apply lookup_lt_is_Some. rewrite <- addrs_values_length. lia. }
  assert (Hvl : is_Some (values T' !! pred (length (addrs T')))).
  { apply lookup_lt_is_Some. rewrite <- addrs_values_length. lia. }
  destruct Hv0 as (v0 & Da). destruct Hvl as (vl & Db).
  destruct (shape_nth _ _ _ _ _ _ (wf_shape _ _ W) Ea Da) as (na & Ha & Dna).
  destruct (shape_nth _ _ _ _ _ _ (wf_shape _ _ W) Eb Db) as (nb & Hb & Dnb).
  rewrite addrs_values_length in Db.
  rewrite <- head_lookup in Da. rewrite <- last_lookup in Db.
  subst v0 vl.
  exists s', a, b, na, nb.
  split; [exact Hrun|]. split; [exact Hfirst|]. split; [exact Hlast|].
  split; [exact Ha|]. split; [exact Hb|].
  assert (Ina : data na ∈ values T').
  { destruct (values T'); [discriminate|]. injection Da as ->. left. }
  assert (Inb : data nb ∈ values T') by (apply last_Some_elem_of; exact Db).
  split; [rewrite <- Hp; exact Ina|]. split; [rewrite <- Hp; exact Inb|].
  intros v Hv. rewrite <- Hp in Hv. split.
  - exact (sorted_head_le _ _ _ Hs Da Hv).
  - exact (sorted_last_ge _ _ _ Hs Db Hv).
Qed.

(** X6, for the values 20, 10, 30. *)
Lemma first_last_are_extremes_witness :
  exists s' a b na nb,
    run_ops 4 (map Insert [20; 10; 30]) empty_tree = Done tt s' /\
    RBTree.first 4 s' = Done (Some a) s' /\
    RBTree.last 4 s' = Done (Some b) s' /\
    mem s' !! a = Some na /\ mem s' !! b = Some nb /\
    data na ∈ [20; 10; 30] /\ data nb ∈ [20; 10; 30] /\
    forall v, v ∈ [20; 10; 30] -> data na <= v <= data nb.
Proof.
  apply (first_last_are_extremes [20; 10; 30] 4); [discriminate|simpl; lia].
Defined.


(** ** [clear]: every node is freed, children before their parent *)

(** A layout only reads the heap at its own addresses. *)
Lemma shape_ext h h' t :
  forall par,
    (forall a, a ∈ addrs t -> h' !! a = h !! a) ->
    shape h par t -> shape h' par t.
Proof.
  induction t as [|l IHl a c v r IHr]; intros par E HS; [exact I|].
  cbn [shape addrs] in *. destruct HS as (Ha & HSl & HSr).
  split; [|split].
  - rewrite E; [exact Ha|]. apply elem_of_app. right. left.
  - apply IHl; [|exact HSl]. intros b Hb. apply E. apply elem_of_app. left. exact Hb.
  - apply IHr; [|exact HSr]. intros b Hb. apply E. apply elem_of_app. right. right. exact Hb.
Qed.

(** The recursion of [clear(node)] frees exactly the nodes of the subtree
    and meets no freed node on its way. *)
Lemma clear_from_shape t :
  forall par fuel h r nf,
    shape h par t -> NoDup (addrs t) -> (height t < fuel)%nat ->
    exists h',
      RBTree.clear_from fuel (root_ptr t) (mkState h r nf)
      = Done tt (mkState h' r nf) /\
      forall a, h' !! a = if decide (a ∈ addrs t) then None else h !! a.
Proof.
  induction t as [|l IHl x c v r0 IHr]; intros par fuel h r nf HS ND Hf.
  - destruct fuel as [|fuel]; [simpl in Hf; lia|].
    exists h. split; [reflexivity|]. intros a. simpl.
    destruct (decide (a ∈ [])) as [Hin|_]; [inversion Hin|reflexivity].
  - destruct fuel as [|fuel]; [simpl in Hf; lia|].
    cbn [height] in Hf. cbn [shape addrs] in HS, ND.
    destruct HS as (Hx & HSl & HSr).
    assert (NDl : NoDup (addrs l)) by (apply NoDup_app in ND; tauto).
    assert (NDr : NoDup (addrs r0)).
    { apply NoDup_app in ND as (_ & _ & ND). apply NoDup_cons in ND. tauto. }
    assert (Hxl : x ∉ addrs l).
    { apply NoDup_app in ND as (_ & Hd & _). intros Hin. apply (Hd x Hin). left. }
    assert (Hxr : x ∉ addrs r0).
    { apply NoDup_app in ND as (_ & _ & ND). apply NoDup_cons in ND. tauto. }
    assert (Hlr : forall a, a ∈ addrs l -> a ∉ addrs r0).
    { apply NoDup_app in ND as (_ & Hd & _). intros a Hin Hr. apply (Hd a Hin).
      right. exact Hr. }
    destruct (IHl (Some x) fuel h r nf HSl NDl) as (h1 & Hrun1 & Hh1); [lia|].
    assert (Hx1 : h1 !! x = h !! x).
    { rewrite Hh1. destruct (decide (x ∈ addrs l)); [contradiction|reflexivity]. }
    assert (HSr1 : shape h1 (Some x) r0).
    { apply (shape_ext h); [|exact HSr]. intros a Ha. rewrite Hh1.
      destruct (decide (a ∈ addrs l)) as [Hin|_]; [|reflexivity].
      exfalso. exact (Hlr a Hin Ha). }
    destruct (IHr (Some x) fuel h1 r nf HSr1 NDr) as (h2 & Hrun2 & Hh2); [lia|].
    assert (Hx2 : h2 !! x = h !! x).
    { rewrite Hh2. destruct (decide (x ∈ addrs r0)); [contradiction|exact Hx1]. }
    exists (delete x h2). split.
    + cbn [RBTree.clear_from root_ptr is_null].
      erewrite bind_done by (exec; reflexivity). cbn [left].
      erewrite bind_done by exact Hrun1.
      erewrite bind_done by (unfold get; erewrite bind_done by
        (apply run_load; rewrite Hx1; exact Hx); reflexivity).
      cbn [right].
      erewrite bind_done by exact Hrun2.
      unfold RBTree.deleteNode. cbn [mem _root next_free].
      rewrite Hx2, Hx. reflexivity.
    + intros a. cbn [addrs]. destruct (decide (a = x)) as [->|Hne].
      * rewrite lookup_delete_eq.
        destruct (decide (x ∈ addrs l ++ x :: addrs r0)) as [_|Hn]; [reflexivity|].
        exfalso. apply Hn. apply elem_of_app. right. left.
      * rewrite lookup_delete_ne by congruence. rewrite Hh2, Hh1.
        destruct (decide (a ∈ addrs l ++ x :: addrs r0)) as [Hin|Hn].
        -- apply elem_of_app in Hin as [Hin|Hin].
           ++ destruct (decide (a ∈ addrs r0)); [reflexivity|].
              destruct (decide (a ∈ addrs l)); [reflexivity|contradiction].
           ++ apply elem_of_cons in Hin as [->|Hin]; [congruence|].
              destruct (decide (a ∈ addrs r0)); [reflexivity|contradiction].
        -- destruct (decide (a ∈ addrs r0)) as [Hin|_].
           { exfalso. apply Hn. apply elem_of_app. right. right. exact Hin. }
           destruct (decide (a ∈ addrs l)) as [Hin|_]; [|reflexivity].
           exfalso. apply Hn. apply elem_of_app. left. exact Hin.
Qed.

(** X7.  On a well-formed tree [clear()] returns without touching a freed
    node, frees every node (the heap is empty afterwards) and resets the
    root to null, so that the tree is the empty tree again and [size()] is
    0. *)
Theorem clear_frees_every_node (s : state) (T : ptree) (fuel : nat) :
  wf s T -> (height T < fuel)%nat ->
  RBTree.clear fuel s = Done tt (mkState ∅ None (next_free s)) /\
  wf (mkState ∅ None (next_free s)) PLeaf /\
  RBTree.size fuel (mkState ∅ None (next_free s))
  = Done 0%nat (mkState ∅ None (next_free s)).
Proof.
  intros W Hf. destruct s as [h r nf]. cbn [next_free].
  pose proof (wf_root _ _ W) as Hr. cbn [_root] in Hr. subst r.
  destruct (clear_from_shape T None fuel h (root_ptr T) nf
              (wf_shape _ _ W) (wf_nodup _ _ W) Hf) as (h' & Hrun & Hh').
  assert (E : h' = ∅).
  { apply map_eq. intros a. rewrite Hh', lookup_empty.
    destruct (decide (a ∈ addrs T)) as [_|Hn]; [reflexivity|].
    destruct (h !! a) as [n|] eqn:Ha; [|reflexivity].
    exfalso. apply Hn. apply (wf_dom _ _ W). cbn [mem]. rewrite Ha. eauto. }
  subst h'. split; [|split].
  - unfold RBTree.clear. exec_cbn. rewrite Hrun. reflexivity.
  - constructor; cbn [mem _root next_free addrs root_ptr shape].
    + reflexivity.
    + exact I.
    + constructor.
    + intros a [n Hn]. rewrite lookup_empty in Hn. discriminate.
    + intros a Ha. inversion Ha.
  - destruct fuel as [|fuel]; [lia|]. reflexivity.
Qed.

(** X7, on the tree built from 10, 20, 30. *)
Lemma clear_frees_every_node_witness :
  RBTree.clear 3 st_10_20_30
  = Done tt (mkState ∅ None (next_free st_10_20_30)) /\
  wf (mkState ∅ None (next_free st_10_20_30)) PLeaf /\
  RBTree.size 3 (mkState ∅ None (next_free st_10_20_30))
  = Done 0%nat (mkState ∅ None (next_free st_10_20_30)).
Proof.
  apply (clear_frees_every_node st_10_20_30 tree_10_20_30 3 wf_10_20_30).
  vm_compute. lia.
Defined.


(** ** Rotations undo each other *)

(** Two heaps that lay out the same tree agree on its addresses. *)
Lemma shape_det h h' t :
  forall par a,
    shape h par t -> shape h' par t -> a ∈ addrs t -> h !! a = h' !! a.
Proof.
  induction t as [|l IHl x c v r IHr]; intros par a HS HS' Ha.
  - inversion Ha.
  - cbn [shape addrs] in *. destruct HS as (Hx & HSl & HSr).
    destruct HS' as (Hx' & HSl' & HSr').
    apply elem_of_app in Ha as [Ha|Ha]; [exact (IHl _ _ HSl HSl' Ha)|].
    apply elem_of_cons in Ha as [->|Ha]; [congruence|exact (IHr _ _ HSr HSr' Ha)].
Qed.

(** A well-formed state is determined by its tree and its allocator. *)
Lemma wf_unique s s' T :
  wf s T -> wf s' T -> next_free s = next_free s' -> s = s'.
Proof.
  intros W W' Hn. destruct s as [h r nf], s' as [h' r' nf']. cbn [next_free] in Hn.
  subst nf'.
  pose proof (wf_root _ _ W) as Hr. pose proof (wf_root _ _ W') as Hr'.
  cbn [_root] in Hr, Hr'. subst r r'.
  f_equal. apply map_eq. intros a.
  destruct (decide (a ∈ addrs T)) as [Ha|Hn].
  - exact (shape_det _ _ _ _ _ (wf_shape _ _ W) (wf_shape _ _ W') Ha).
  - destruct (h !! a) as [n|] eqn:E.
    { exfalso. apply Hn. apply (wf_dom _ _ W). cbn [mem]. rewrite E. eauto. }
    destruct (h' !! a) as [n'|] eqn:E'; [|reflexivity].
    exfalso. apply Hn. apply (wf_dom _ _ W'). cbn [mem]. rewrite E'. eauto.
Qed.

(** X8.  On a well-formed tree, [leftRotate(x)] followed by [rightRotate]
    at the node that came up (the former right child of [x]) restores the
    heap and the root pointer exactly, and so does [rightRotate(y)]
    followed by [leftRotate] at the former left child of [y]. *)
Theorem rotations_are_inverse (s : state) (T : ptree) :
  wf s T ->
  (forall x nx y,
     mem s !! x = Some nx -> right nx = Some y ->
     exists s',
       RBTree.leftRotate (Some x) s = Done tt s' /\
       RBTree.rightRotate (Some y) s' = Done tt s) /\
  (forall y ny x,
     mem s !! y = Some ny -> left ny = Some x ->
     exists s',
       RBTree.rightRotate (Some y) s = Done tt s' /\
       RBTree.leftRotate (Some x) s' = Done tt s).
Proof.
  intros W. split.
  - intros x nx y Hx Hy.
    destruct (focus_right s T x nx y W Hx Hy) as (k & l & cx & vx & b & cy & vy & c & ->).
    destruct (leftRotate_wf s k l x cx vx b y cy vy c W) as (s1 & Hrun1 & W1 & _ & Hn1).
    destruct (rightRotate_wf s1 k l x cx vx b y cy vy c W1) as (s2 & Hrun2 & W2 & _ & Hn2).
    exists s1. split; [exact Hrun1|]. rewrite Hrun2. f_equal.
    apply (wf_unique _ _ _ W2 W). congruence.
  - intros y ny x Hy Hx.
    destruct (focus_left s T y ny x W Hy Hx) as (k & a & cx & vx & b & cy & vy & c & ->).
    destruct (rightRotate_wf s k a x cx vx b y cy vy c W) as (s1 & Hrun1 & W1 & _ & Hn1).
    destruct (leftRotate_wf s1 k a x cx vx b y cy vy c W1) as (s2 & Hrun2 & W2 & _ & Hn2).
    exists s1. split; [exact Hrun1|]. rewrite Hrun2. f_equal.
    apply (wf_unique _ _ _ W2 W). congruence.
Qed.

(** X8, at the root 20 of the tree built from 10, 20, 30, whose right child
    is the node of 30. *)
Lemma rotations_are_inverse_witness :
  exists s',
    RBTree.leftRotate (Some 2%nat) st_10_20_30 = Done tt s' /\
    RBTree.rightRotate (Some 3%nat) s' = Done tt st_10_20_30.
Proof.
  apply (proj1 (rotations_are_inverse st_10_20_30 tree_10_20_30 wf_10_20_30)
           2%nat (mkRBNode None (Some 3%nat) (Some 1%nat) 20 BLACK) 3%nat);
    reflexivity.
Defined.

(** * Properties *)


Lemma run_10_20_30 : run_ops 10 ops_10_20_30 empty_tree = Done tt st_10_20_30.
Proof. vm_compute. reflexivity. Qed.

Lemma run_corrupting : run_ops 10 ops_corrupting empty_tree = Done tt st_corrupted.
Proof. vm_compute. reflexivity. Qed.

Lemma run_cyclic :
  run_ops 10 (ops_corrupting ++ [Insert 40; Insert 50]) empty_tree = Done tt st_cyclic.
Proof. vm_compute. reflexivity. Qed.

Lemma nil_path_left' h a n k k' :
  h !! a = Some n -> nil_path h (left n) k ->
  k' = (black_count (color n) + k)%nat -> nil_path h (Some a) k'.
Proof. intros ? ? ->. eapply nil_path_left; eauto. Qed.

Lemma nil_path_right' h a n k k' :
  h !! a = Some n -> nil_path h (right n) k ->
  k' = (black_count (color n) + k)%nat -> nil_path h (Some a) k'.
Proof. intros ? ? ->. eapply nil_path_right; eauto. Qed.

(** C1 (code defect).  Inserting 20, 10, 30, 25, removing 20, then inserting
    40 and 50: every call returns, and the resulting structure has two paths
    from the root to a null child with different numbers of black nodes, so
    the red-black invariants do not hold after the last operation. *)
Theorem C1_invariants_lost_after_remove :
  exists s,
    run_ops 10 [Insert 20; Insert 10; Insert 30; Insert 25; Remove 20;
                Insert 40; Insert 50] empty_tree = Done tt s /\
    nil_path (mem s) (_root s) 2 /\
    nil_path (mem s) (_root s) 1 /\
    ~ rb_invariants s.
Proof.
  exists st_cyclic. split; [exact run_cyclic|].
  assert (P2 : nil_path (mem st_cyclic) (_root st_cyclic) 2).
  { eapply (nil_path_left' _ 4%nat _ 1%nat); [reflexivity| |reflexivity].
    eapply (nil_path_left' _ 2%nat _ 0%nat); [reflexivity| |reflexivity].
    apply nil_path_nil. }
  assert (P1 : nil_path (mem st_cyclic) (_root st_cyclic) 1).
  { eapply (nil_path_right' _ 4%nat _ 0%nat); [reflexivity| |reflexivity].
    eapply (nil_path_left' _ 3%nat _ 0%nat); [reflexivity| |reflexivity].
    apply nil_path_nil. }
  repeat split; [exact P2|exact P1|].
  intros (_ & _ & Hb). specialize (Hb _ _ _ P2 P1). discriminate.
Qed.

(** C2 (code defect).  In the tree built from 10, 20, 30 the value 30 is
    stored (in node 3), yet [search(30)] returns null for every amount of
    fuel that lets it finish; read with the loop guard regrouped, it returns
    the root, which holds 20.  Under neither reading of line 438 does
    [search] return the node equivalent to the value sought. *)
Theorem C2_search_misses_stored_value :
  (exists n, mem st_10_20_30 !! 3%nat = Some n /\ data n = 30 /\
             equiv 30 (data n) = true) /\
  (forall fuel,
     RBTree.search (3 + fuel) 30 st_10_20_30 = Done None st_10_20_30) /\
  (forall fuel,
     RBTree.search_with RBTree.search_guard_regrouped (1 + fuel) 30 st_10_20_30
     = Done (Some 2%nat) st_10_20_30) /\
  (exists n, mem st_10_20_30 !! 2%nat = Some n /\ data n = 20 /\
             equiv 30 (data n) = false).
Proof.
  split; [|split; [|split]].
  - eexists. split; [reflexivity|]. split; reflexivity.
  - intros fuel. reflexivity.
  - intros fuel. reflexivity.
  - eexists. split; [reflexivity|]. split; reflexivity.
Qed.

(** [fixDeleteViolations] on a null pointer dereferences it, whatever the
    tree: in the loop test when the root is not null, in the final
    [x->color = BLACK] otherwise. *)
Lemma fixDeleteViolations_null fuel s :
  RBTree.fixDeleteViolations (S fuel) None s = Fault NullDeref.
Proof.
  unfold RBTree.fixDeleteViolations, bind. simpl.
  unfold RBTree.fixDeleteViolations_guard, bind, get_root, ptr_eqb.
  destruct (_root s) as [r|]; reflexivity.
Qed.

(** C4 (code defect).  Removing the only node of a tree removes a black
    node whose replacement is null; the fix-up then runs on the null pointer
    and dereferences it.  The same happens on every tree: fix-up on a null
    pointer always faults. *)
Theorem C4_fixup_on_null_replacement_faults :
  (forall fuel,
     run_ops (S fuel) [Insert 10; Remove 10] empty_tree = Fault NullDeref) /\
  (forall fuel s, RBTree.fixDeleteViolations (S fuel) None s = Fault NullDeref).
Proof.
  split.
  - intros fuel. reflexivity.
  - apply fixDeleteViolations_null.
Qed.

(** C10.  [next_inorder] of a null handle returns null and leaves the state
    alone, for every tree and without using any fuel. *)
Theorem C10_next_inorder_null :
  forall fuel s, RBTree.next_inorder fuel None s = Done None s.
Proof. intros fuel s. reflexivity. Qed.

(** C7 (counterexample).  After inserting 10, 20, 30 and removing 20, the
    left child 10 of the new root 30 is red, not black: the removed node's
    successor 30 was red, so no fix-up ran. *)
Lemma C7_left_child_is_red :
  run_ops 10 [Insert 10; Insert 20; Insert 30; Remove 20] empty_tree
  = Done tt st_after_remove_20 /\
  snapshot_of 10 st_after_remove_20
  = Some (Node BLACK (Node RED Leaf 10 Leaf) 30 Leaf) /\
  snapshot_of 10 st_after_remove_20
  <> Some (Node BLACK (Node BLACK Leaf 10 Leaf) 30 Leaf).
Proof.
  split; [vm_compute; reflexivity|]. split; [vm_compute; reflexivity|].
  vm_compute. discriminate.
Qed.

(** C7 (amended).  Inserting 10, 20, 30 into the empty tree gives the root
    20, black, with red children 10 and 30; removing 20 then gives the root
    30, black, with the single left child 10, still red; [size()] is 2 and
    the traversal by [first]/[next_inorder] yields 10, 30.  This holds for
    every fuel from 3 on. *)
Theorem C7_scenario :
  forall fuel,
    run_ops (3 + fuel) [Insert 10; Insert 20; Insert 30] empty_tree
    = Done tt st_10_20_30 /\
    snapshot_of 2 st_10_20_30
    = Some (Node BLACK (Node RED Leaf 10 Leaf) 20 (Node RED Leaf 30 Leaf)) /\
    RBTree.remove_value (3 + fuel) 20 st_10_20_30 = Done tt st_after_remove_20 /\
    snapshot_of 2 st_after_remove_20
    = Some (Node BLACK (Node RED Leaf 10 Leaf) 30 Leaf) /\
    RBTree.size (3 + fuel) st_after_remove_20 = Done 2%nat st_after_remove_20 /\
    traversal 3 (3 + fuel) st_after_remove_20 = Done [10; 30] st_after_remove_20.
Proof.
  intros fuel.
  split; [vm_compute; reflexivity|]. split; [vm_compute; reflexivity|].
  split; [vm_compute; reflexivity|]. split; [vm_compute; reflexivity|].
  split; vm_compute; reflexivity.
Qed.

Lemma next_inorder_corrupted_30 fuel :
  RBTree.next_inorder (S fuel) (Some 3%nat) st_corrupted
  = Done (Some 3%nat) st_corrupted.
Proof. vm_compute. reflexivity. Qed.

Lemma walk_corrupted_stuck steps fuel :
  result (walk steps fuel (Some 3%nat) st_corrupted) = None.
Proof.
  induction steps as [|steps IH]; [reflexivity|].
  destruct fuel as [|fuel]; [vm_compute; reflexivity|].
  rewrite walk_S.
  replace (get data (Some 3%nat) st_corrupted) with (Done 30 st_corrupted)
    by (vm_compute; reflexivity).
  cbv beta iota. rewrite next_inorder_corrupted_30.
  destruct (walk steps (S fuel) (Some 3%nat) st_corrupted);
    [discriminate IH| |]; reflexivity.
Qed.

(** C9 (code defect).  After inserting 20, 10, 30, 25 and removing 20 the
    tree holds three nodes and [size()] is 3, but the node holding 30 is its
    own parent, [next_inorder] maps it to itself, and the traversal from
    [first()] never reaches null, whatever the number of steps and fuel. *)
Theorem C9_traversal_never_ends_after_remove :
  run_ops 10 [Insert 20; Insert 10; Insert 30; Insert 25; Remove 20] empty_tree
  = Done tt st_corrupted /\
  RBTree.size 3 st_corrupted = Done 3%nat st_corrupted /\
  (forall fuel, RBTree.next_inorder (S fuel) (Some 3%nat) st_corrupted
                = Done (Some 3%nat) st_corrupted) /\
  (forall steps fuel, result (traversal steps fuel st_corrupted) = None).
Proof.
  split; [exact run_corrupting|]. split; [vm_compute; reflexivity|].
  split; [exact next_inorder_corrupted_30|].
  intros steps fuel.
  destruct fuel as [|[|fuel]]; [vm_compute; reflexivity|vm_compute; reflexivity|].
  destruct steps as [|[|steps]]; [vm_compute; reflexivity|vm_compute; reflexivity|].
  pose proof (walk_corrupted_stuck steps (S (S fuel))) as H.
  unfold traversal, bind.
  replace (RBTree.first (S (S fuel)) st_corrupted)
    with (Done (Some 2%nat) st_corrupted) by (vm_compute; reflexivity).
  rewrite walk_S.
  replace (get data (Some 2%nat) st_corrupted) with (Done 10 st_corrupted)
    by (vm_compute; reflexivity).
  cbv beta iota.
  replace (RBTree.next_inorder (S (S fuel)) (Some 2%nat) st_corrupted)
    with (Done (Some 4%nat) st_corrupted) by (vm_compute; reflexivity).
  cbv beta iota. rewrite walk_S.
  replace (get data (Some 4%nat) st_corrupted) with (Done 25 st_corrupted)
    by (vm_compute; reflexivity).
  cbv beta iota.
  replace (RBTree.next_inorder (S (S fuel)) (Some 4%nat) st_corrupted)
    with (Done (Some 3%nat) st_corrupted) by (vm_compute; reflexivity).
  cbv beta iota.
  destruct (walk steps (S (S fuel)) (Some 3%nat) st_corrupted);
    [discriminate H| |]; reflexivity.
Qed.


(** ** Removal of a node with at most one child *)

Lemma shape_delete h par t a :
  a ∉ addrs t -> shape h par t -> shape (delete a h) par t.
Proof.
  intros Ha. apply shape_ext. intros b Hb. apply lookup_delete_ne.
  intros ->. contradiction.
Qed.

(** The state after [deleteNode(x)] is well formed for the tree without
    [x]. *)
Lemma wf_remove h r nf T h' r' T' x :
  wf (mkState h r nf) T ->
  dom_le h h' -> x ∉ addrs T' ->
  (forall a, a ∈ addrs T' -> a ∈ addrs T) ->
  (forall a, a ∈ addrs T -> a = x \/ a ∈ addrs T') ->
  NoDup (addrs T') -> r' = root_ptr T' -> shape h' None T' ->
  wf (mkState (delete x h') r' nf) T'.
Proof.
  intros [Hr HS ND HD HF] Hdom Hx Hsub Hsup ND' -> HS'. simpl in *.
  constructor; simpl.
  - reflexivity.
  - apply shape_delete; assumption.
  - exact ND'.
  - intros a Hs. destruct (decide (a = x)) as [->|Hne].
    + rewrite lookup_delete_eq in Hs. destruct Hs; discriminate.
    + rewrite lookup_delete_ne in Hs by congruence.
      destruct (Hsup a (HD a (Hdom a Hs))); [contradiction|assumption].
  - intros a Ha. apply HF, Hsub, Ha.
Qed.

(** A node without children: its parent's slot, or the root, becomes null. *)
Lemma remove_unlink_leaf h nf k x cx vx :
  shape h None (plug (PNode PLeaf x cx vx PLeaf) k) ->
  NoDup (addrs (plug (PNode PLeaf x cx vx PLeaf) k)) ->
  forall fuel,
  exists h',
    RBTree.remove_unlink fuel (Some x) (mkState h (plug_root (Some x) k) nf)
    = Done (cx, None) (mkState h' (plug_root None k) nf) /\
    shape h' None (plug PLeaf k) /\ dom_le h h' /\ h' !! x = h !! x.
Proof.
  intros HS ND fuel.
  apply shape_plug in HS as [HS HK].
  rewrite addrs_plug in ND. cbn [addrs] in ND.
  cbn [shape root_ptr] in HS. destruct HS as (Hx & _ & _).
  unfold RBTree.remove_unlink, RBTree.replaceNode.
  destruct k as [|[p cp vp sib|sib p cp vp] k];
    [|cbn [cshape cleft cright] in HK, ND; destruct HK as (Hp & Ss & HK)..];
    cbn [plug_root];
    (eexists; split; [execr; reflexivity|]);
    (split; [apply shape_plug; cbn [shape cshape root_ptr ctx_ptr]; reshape|]);
    (split; [dom_le|unchanged]).
Qed.

(** A node with a left child only: the child takes its place. *)
Lemma remove_unlink_left_child h nf k cl c cc cv cr x cx vx :
  let C := PNode cl c cc cv cr in
  shape h None (plug (PNode C x cx vx PLeaf) k) ->
  NoDup (addrs (plug (PNode C x cx vx PLeaf) k)) ->
  forall fuel,
  exists h',
    RBTree.remove_unlink fuel (Some x) (mkState h (plug_root (Some x) k) nf)
    = Done (cx, Some c) (mkState h' (plug_root (Some c) k) nf) /\
    shape h' None (plug C k) /\ dom_le h h' /\ h' !! x = h !! x.
Proof.
  intros C HS ND fuel. subst C.
  apply shape_plug in HS as [HS HK].
  rewrite addrs_plug in ND. cbn [addrs] in ND.
  cbn [shape root_ptr] in HS. destruct HS as (Hx & (Hc & Scl & Scr) & _).
  unfold RBTree.remove_unlink, RBTree.replaceNode.
  destruct k as [|[p cp vp sib|sib p cp vp] k];
    [|cbn [cshape cleft cright] in HK, ND; destruct HK as (Hp & Ss & HK)..];
    cbn [plug_root];
    (eexists; split; [execr; reflexivity|]);
    (split; [apply shape_plug; cbn [shape cshape root_ptr ctx_ptr]; reshape|]);
    (split; [dom_le|unchanged]).
Qed.

(** A node with a right child only. *)
Lemma remove_unlink_right_child h nf k cl c cc cv cr x cx vx :
  let C := PNode cl c cc cv cr in
  shape h None (plug (PNode PLeaf x cx vx C) k) ->
  NoDup (addrs (plug (PNode PLeaf x cx vx C) k)) ->
  forall fuel,
  exists h',
    RBTree.remove_unlink fuel (Some x) (mkState h (plug_root (Some x) k) nf)
    = Done (cx, Some c) (mkState h' (plug_root (Some c) k) nf) /\
    shape h' None (plug C k) /\ dom_le h h' /\ h' !! x = h !! x.
Proof.
  intros C HS ND fuel. subst C.
  apply shape_plug in HS as [HS HK].
  rewrite addrs_plug in ND. cbn [addrs] in ND.
  cbn [shape root_ptr] in HS. destruct HS as (Hx & _ & (Hc & Scl & Scr)).
  unfold RBTree.remove_unlink, RBTree.replaceNode.
  destruct k as [|[p cp vp sib|sib p cp vp] k];
    [|cbn [cshape cleft cright] in HK, ND; destruct HK as (Hp & Ss & HK)..];
    cbn [plug_root];
    (eexists; split; [execr; reflexivity|]);
    (split; [apply shape_plug; cbn [shape cshape root_ptr ctx_ptr]; reshape|]);
    (split; [dom_le|unchanged]).
Qed.

(** [fixDeleteViolations(x)] on the root or on a red node skips its loop
    and colours [x] black. *)
Lemma fixDeleteViolations_red_or_root fuel h r nf c n :
  h !! c = Some n -> r = Some c \/ color n = RED ->
  RBTree.fixDeleteViolations (S fuel) (Some c) (mkState h r nf)
  = Done tt (mkState (<[c := with_color BLACK n]> h) r nf).
Proof.
  intros Hc Hor. unfold RBTree.fixDeleteViolations.
  cbn [RBTree.fixDeleteViolations_loop]. unfold RBTree.fixDeleteViolations_guard.
  destruct n as [pn rn ln dn cn]. cbn [color] in Hor.
  destruct (decide (r = Some c)) as [->|Hne].
  - exec. reflexivity.
  - destruct Hor as [E| ->]; [contradiction|].
    exec_cbn. rewrite (ptr_eqb_ne (Some c) r) by congruence.
    exec. reflexivity.
Qed.

(** Colouring one node. *)
Lemma shape_recolor h l a c v r k c' n :
  shape h None (plug (PNode l a c v r) k) ->
  NoDup (addrs (plug (PNode l a c v r) k)) ->
  h !! a = Some n ->
  shape (<[a := with_color c' n]> h) None (plug (PNode l a c' v r) k).
Proof.
  intros HS ND Hn.
  apply shape_plug in HS as [HS HK].
  rewrite addrs_plug in ND. cbn [addrs] in ND.
  cbn [shape root_ptr] in HS. destruct HS as (Ha & Sl & Sr).
  rewrite Ha in Hn. injection Hn as <-.
  apply shape_plug. cbn [shape root_ptr]. unfold with_color. cbn [parent right left data color].
  reshape.
Qed.

(** ** The invariants after a local replacement *)

Lemma plug_col_ne c c' k : k <> [] -> plug_col c k = plug_col c' k.
Proof. destruct k as [|[] k]; [congruence|reflexivity..]. Qed.

Lemma rb_replace X X' k :
  rb (plug X k) -> nrr X' -> (forall n, bh X n -> bh X' n) ->
  col X' = BLACK \/ col X' = col X ->
  rb (plug X' k).
Proof.
  intros (Hc & Hn & m & Hb) Hn' Hb' Hcol.
  apply nrr_plug_inv in Hn as (_ & HnK & Hedge).
  apply bh_plug_inv in Hb as (n & HbX & HbK).
  rewrite col_plug in Hc.
  split; [|split].
  - rewrite col_plug. destruct Hcol as [E|E]; rewrite E; [|exact Hc].
    destruct k as [|f k]; [reflexivity|].
    rewrite (plug_col_ne BLACK (col X)) by discriminate. exact Hc.
  - apply nrr_plug; [exact Hn'|exact HnK|].
    intros Hr. destruct Hcol as [E|E]; [exact E|]. rewrite E. exact (Hedge Hr).
  - exact (bh_plug X' k n (Hb' n HbX) HbK).
Qed.

(** Every allocated node of a well-formed state is the focus of a context. *)
Lemma wf_node s T x nx :
  wf s T -> mem s !! x = Some nx ->
  exists l r k,
    T = plug (PNode l x (color nx) (data nx) r) k /\
    left nx = root_ptr l /\ right nx = root_ptr r /\ parent nx = ctx_ptr k.
Proof.
  intros W Hx.
  assert (Hin : x ∈ addrs T) by (apply (wf_dom _ _ W); rewrite Hx; eauto).
  destruct (focus_exists T x Hin) as (l & c & v & r & k & ->).
  pose proof (wf_focus _ _ _ _ _ _ _ W) as Hx'. rewrite Hx in Hx'.
  injection Hx' as ->. exists l, r, k. cbn. auto.
Qed.

Lemma root_ptr_None t : root_ptr t = None -> t = PLeaf.
Proof. destruct t; [reflexivity|discriminate]. Qed.

(** In a red-black tree the only child of a node is red and has no
    children, and the node itself is black. *)
Lemma only_child_red cl c cc cv cr x cx vx n :
  (bh (PNode (PNode cl c cc cv cr) x cx vx PLeaf) n \/
   bh (PNode PLeaf x cx vx (PNode cl c cc cv cr)) n) ->
  (cx = RED -> cc = BLACK) ->
  cc = RED /\ cx = BLACK /\ n = 1%nat /\ bh cl 0 /\ bh cr 0.
Proof.
  intros Hb Hedge.
  assert (H : exists m, n = (black_count cx + m)%nat /\ bh (PNode cl c cc cv cr) m /\ m = 0%nat).
  { destruct Hb as [(m & -> & Hc & Hl)|(m & -> & Hl & Hc)]; simpl in Hl; subst m; eauto. }
  destruct H as (m & -> & (m' & Em & Hl & Hr) & ->).
  destruct cc; simpl in Em; [lia|]. subst m'.
  destruct cx; [|specialize (Hedge eq_refl); discriminate].
  simpl. auto.
Qed.

(** The tree without the focus [x], when a subtree [X'] made of the nodes
    below [x] takes its place. *)
Lemma wf_after_remove h nf l x c v r k h' X' :
  wf (mkState h (plug_root (Some x) k) nf) (plug (PNode l x c v r) k) ->
  shape h' None (plug X' k) -> dom_le h h' ->
  addrs X' = addrs l ++ addrs r ->
  wf (mkState (delete x h') (root_ptr (plug X' k)) nf) (plug X' k).
Proof.
  intros W HS' Hdom Ha.
  pose proof (wf_nodup _ _ W) as ND. rewrite addrs_plug in ND. cbn [addrs] in ND.
  assert (EA : forall a, a ∈ addrs (plug (PNode l x c v r) k) <->
                         a = x \/ a ∈ addrs (plug X' k)).
  { intros a. rewrite !addrs_plug, Ha. cbn [addrs].
    repeat (rewrite elem_of_app || rewrite elem_of_cons). tauto. }
  assert (Hx : x ∉ addrs (plug X' k)).
  { assert (H1 : x ∉ cleft k) by distinct. assert (H2 : x ∉ addrs l) by distinct.
    assert (H3 : x ∉ addrs r) by distinct. assert (H4 : x ∉ cright k) by distinct.
    rewrite addrs_plug, Ha. rewrite !elem_of_app. tauto. }
  eapply wf_remove; [exact W|exact Hdom|exact Hx| | | |reflexivity|exact HS'].
  - intros a Hin. apply EA. right. exact Hin.
  - intros a Hin. apply EA. exact Hin.
  - rewrite addrs_plug, Ha.
    apply NoDup_app in ND as (NDl & Hd1 & ND).
    apply NoDup_app in ND as (ND2 & Hd2 & NDr).
    apply NoDup_app in ND2 as (ND2l & Hd3 & ND2r). apply NoDup_cons in ND2r as [_ ND2r].
    apply NoDup_app. split; [exact NDl|]. split.
    + intros a Hin Hin'. apply (Hd1 a Hin). rewrite !elem_of_app in Hin'.
      rewrite !elem_of_app, elem_of_cons. tauto.
    + apply NoDup_app. split; [|split; [|exact NDr]].
      * apply NoDup_app. split; [exact ND2l|]. split; [|exact ND2r].
        intros a Hin Hin'. apply (Hd3 a Hin). right. exact Hin'.
      * intros a Hin. apply Hd2. rewrite elem_of_app in Hin.
        rewrite elem_of_app, elem_of_cons. tauto.
Qed.

(** The fix-up on a red node of a well-formed tree. *)
Lemma fixDeleteViolations_red_focus fuel s cl c cv cr k :
  wf s (plug (PNode cl c RED cv cr) k) ->
  exists s',
    RBTree.fixDeleteViolations (S fuel) (Some c) s = Done tt s' /\
    wf s' (plug (PNode cl c BLACK cv cr) k) /\
    forall a, a <> c -> mem s' !! a = mem s !! a.
Proof.
  intros W. destruct s as [h r nf].
  pose proof (wf_focus _ _ _ _ _ _ _ W) as Hc. cbn [mem] in Hc.
  pose proof (wf_root _ _ W) as Hr. cbn [_root] in Hr. subst r.
  eexists. split; [|split].
  - apply (fixDeleteViolations_red_or_root fuel h _ nf c _ Hc). right. reflexivity.
  - eapply wf_dom_le; [exact W| | | |].
    + eapply dom_le_insert; [exact Hc|apply dom_le_refl].
    + rewrite !addrs_plug. reflexivity.
    + rewrite !root_ptr_plug. reflexivity.
    + exact (shape_recolor h cl c RED cv cr k BLACK _ (wf_shape _ _ W) (wf_nodup _ _ W) Hc).
  - intros a Ha. cbn [mem]. apply lookup_insert_ne. congruence.
Qed.

(** The in-order sequences before and after: the removed node leaves its
    place, the others keep their order. *)
Lemma removed_sequences l x c v r k X' :
  addrs X' = addrs l ++ addrs r -> values X' = values l ++ values r ->
  exists apre apost pre post,
    addrs (plug (PNode l x c v r) k) = apre ++ x :: apost /\
    addrs (plug X' k) = apre ++ apost /\
    values (plug (PNode l x c v r) k) = pre ++ v :: post /\
    values (plug X' k) = pre ++ post /\
    length apre = length pre.
Proof.
  intros Ha Hv.
  exists (cleft k ++ addrs l), (addrs r ++ cright k),
         (cvleft k ++ values l), (values r ++ cvright k).
  rewrite !addrs_plug, !values_plug, Ha, Hv. cbn [addrs values].
  rewrite !length_app, cleft_cvleft_length, addrs_values_length.
  rewrite <- !app_assoc. cbn [app]. auto.
Qed.

(** Removal of a node with at most one child, on trees: the subtree of the
    only child, its root coloured black, takes the place of the node. *)
Lemma remove_one_child_tree (s : state) (T : ptree) (x : nat)
    (nx : RBNode) (fuel : nat) :
  wf s T -> rb T -> mem s !! x = Some nx ->
  left nx = None \/ right nx = None ->
  ~ (left nx = None /\ right nx = None /\ color nx = BLACK) ->
  (0 < fuel)%nat ->
  exists s' T' apre apost pre post l r k,
    RBTree.remove fuel (Some x) s = Done tt s' /\
    wf s' T' /\ rb T' /\
    mem s' !! x = None /\
    addrs T = apre ++ x :: apost /\ addrs T' = apre ++ apost /\
    values T = pre ++ data nx :: post /\ values T' = pre ++ post /\
    length apre = length pre /\
    T = plug (PNode l x (color nx) (data nx) r) k /\
    parent nx = ctx_ptr k /\ left nx = root_ptr l /\ right nx = root_ptr r /\
    T' = plug (blacken (match l with PLeaf => r | _ => l end)) k.
Proof.
  intros W Hrb Hx Hone Hnot Hfuel.
  destruct (wf_node s T x nx W Hx) as (l & r0 & k & -> & Hl & Hr & Hp).
  destruct s as [h r nf]. cbn [mem] in Hx.
  pose proof (wf_root _ _ W) as Hroot. cbn [_root] in Hroot.
  rewrite root_ptr_plug in Hroot. cbn [root_ptr] in Hroot. subst r.
  pose proof (wf_shape _ _ W) as HS. pose proof (wf_nodup _ _ W) as ND.
  cbn [mem] in HS.
  pose proof Hrb as (_ & Hnrr & m & Hbh).
  apply nrr_plug_inv in Hnrr as (HnX & _ & _).
  apply bh_plug_inv in Hbh as (n & HbX & _).
  destruct fuel as [|fuel]; [lia|].
  assert (Hfin : forall h' X' nn cc,
    RBTree.remove_unlink (S fuel) (Some x) (mkState h (plug_root (Some x) k) nf)
    = Done (cc, nn) (mkState h' (root_ptr (plug X' k)) nf) ->
    shape h' None (plug X' k) -> dom_le h h' -> h' !! x = h !! x ->
    addrs X' = addrs l ++ addrs r0 ->
    RBTree.remove (S fuel) (Some x) (mkState h (plug_root (Some x) k) nf)
    = (if is_black cc
       then RBTree.fixDeleteViolations (S fuel) nn
              (mkState (delete x h') (root_ptr (plug X' k)) nf)
       else Done tt (mkState (delete x h') (root_ptr (plug X' k)) nf)) /\
    wf (mkState (delete x h') (root_ptr (plug X' k)) nf) (plug X' k)).
  { intros h' X' nn cc Hrun HS' Hdom Hsame Ha. split.
    - rewrite (remove_after_unlink _ _ _ _ _ _ Hrun); [reflexivity|].
      cbn [mem]. rewrite Hsame, Hx. eauto.
    - exact (wf_after_remove h nf l x _ _ r0 k h' X' W HS' Hdom Ha). }
  destruct l as [|cl c cc cv cr]; destruct r0 as [|dl d dc dv dr].
  - (* no child: the node is red *)
    assert (Hc : color nx = RED).
    { destruct (color nx); [exfalso; apply Hnot; auto|reflexivity]. }
    rewrite Hc in *.
    destruct (remove_unlink_leaf h nf k x RED (data nx) HS ND (S fuel))
      as (h' & Hrun & HS' & Hdom & Hsame).
    assert (Er : plug_root None k = root_ptr (plug PLeaf k))
      by (rewrite root_ptr_plug; reflexivity).
    rewrite Er in Hrun.
    destruct (Hfin h' PLeaf None RED Hrun HS' Hdom Hsame eq_refl) as (Hrem & W').
    destruct (removed_sequences PLeaf x RED (data nx) PLeaf k PLeaf eq_refl eq_refl)
      as (apre & apost & pre & post & E1 & E2 & E3 & E4 & E5).
    eexists _, (plug PLeaf k), apre, apost, pre, post, PLeaf, PLeaf, k.
    split; [exact Hrem|]. split; [exact W'|]. split.
    { apply (rb_replace (PNode PLeaf x RED (data nx) PLeaf)); [exact Hrb|exact I| |left; reflexivity].
      intros n0 (m' & -> & Hm & _). simpl in Hm. subst m'. reflexivity. }
    split; [cbn [mem]; apply lookup_delete_eq|].
    repeat (split; [first [assumption|reflexivity]|]). reflexivity.
  - (* a right child only *)
    destruct (only_child_red dl d dc dv dr x (color nx) (data nx) n (or_intror HbX))
      as (-> & Ecx & -> & Hbl & Hbr).
    { cbn [nrr col] in HnX. intros E. exact (proj2 (proj1 HnX E)). }
    rewrite Ecx in *.
    destruct (remove_unlink_right_child h nf k dl d RED dv dr x BLACK (data nx) HS ND (S fuel))
      as (h' & Hrun & HS' & Hdom & Hsame).
    assert (Er : plug_root (Some d) k = root_ptr (plug (PNode dl d RED dv dr) k))
      by (rewrite root_ptr_plug; reflexivity).
    rewrite Er in Hrun.
    destruct (Hfin h' (PNode dl d RED dv dr) (Some d) BLACK Hrun HS' Hdom Hsame eq_refl)
      as (Hrem & W').
    cbn [is_black] in Hrem.
    destruct (fixDeleteViolations_red_focus fuel _ dl d dv dr k W') as (s2 & Hfix & W2 & Hmem).
    destruct (removed_sequences PLeaf x BLACK (data nx) (PNode dl d RED dv dr) k
                (PNode dl d BLACK dv dr) eq_refl eq_refl)
      as (apre & apost & pre & post & E1 & E2 & E3 & E4 & E5).
    exists s2, (plug (PNode dl d BLACK dv dr) k), apre, apost, pre, post,
      PLeaf, (PNode dl d RED dv dr), k.
    split; [rewrite Hrem; exact Hfix|]. split; [exact W2|]. split.
    { apply (rb_replace (PNode PLeaf x BLACK (data nx) (PNode dl d RED dv dr)));
        [exact Hrb| | |left; reflexivity].
      - cbn [nrr] in HnX |- *. split; [discriminate|]. tauto.
      - intros n' Hb'.
        destruct (only_child_red dl d RED dv dr x BLACK (data nx) n' (or_intror Hb'))
          as (_ & _ & -> & _); [discriminate|].
        exists 0%nat. auto. }
    split.
    { rewrite Hmem; [cbn [mem]; apply lookup_delete_eq|].
      rewrite addrs_plug in ND. cbn [addrs] in ND. distinct. }
    repeat (split; [first [assumption|reflexivity]|]). reflexivity.
  - (* a left child only *)
    destruct (only_child_red cl c cc cv cr x (color nx) (data nx) n (or_introl HbX))
      as (-> & Ecx & -> & Hbl & Hbr).
    { cbn [nrr col] in HnX. intros E. exact (proj1 (proj1 HnX E)). }
    rewrite Ecx in *.
    destruct (remove_unlink_left_child h nf k cl c RED cv cr x BLACK (data nx) HS ND (S fuel))
      as (h' & Hrun & HS' & Hdom & Hsame).
    assert (Er : plug_root (Some c) k = root_ptr (plug (PNode cl c RED cv cr) k))
      by (rewrite root_ptr_plug; reflexivity).
    rewrite Er in Hrun.
    destruct (Hfin h' (PNode cl c RED cv cr) (Some c) BLACK Hrun HS' Hdom Hsame)
      as (Hrem & W'); [cbn [addrs]; rewrite app_nil_r; reflexivity|].
    cbn [is_black] in Hrem.
    destruct (fixDeleteViolations_red_focus fuel _ cl c cv cr k W') as (s2 & Hfix & W2 & Hmem).
    destruct (removed_sequences (PNode cl c RED cv cr) x BLACK (data nx) PLeaf k
                (PNode cl c BLACK cv cr))
      as (apre & apost & pre & post & E1 & E2 & E3 & E4 & E5);
      [cbn [addrs]; rewrite app_nil_r; reflexivity
      |cbn [values]; rewrite app_nil_r; reflexivity|].
    exists s2, (plug (PNode cl c BLACK cv cr) k), apre, apost, pre, post,
      (PNode cl c RED cv cr), PLeaf, k.
    split; [rewrite Hrem; exact Hfix|]. split; [exact W2|]. split.
    { apply (rb_replace (PNode (PNode cl c RED cv cr) x BLACK (data nx) PLeaf));
        [exact Hrb| | |left; reflexivity].
      - cbn [nrr] in HnX |- *. split; [discriminate|]. tauto.
      - intros n' Hb'.
        destruct (only_child_red cl c RED cv cr x BLACK (data nx) n' (or_introl Hb'))
          as (_ & _ & -> & _); [discriminate|].
        exists 0%nat. auto. }
    split.
    { rewrite Hmem; [cbn [mem]; apply lookup_delete_eq|].
      rewrite addrs_plug in ND. cbn [addrs] in ND. distinct. }
    repeat (split; [first [assumption|reflexivity]|]). reflexivity.
  - exfalso. destruct Hone as [H|H]; rewrite ?Hl, ?Hr in H; discriminate H.
Qed.

(** The slot that held a node, and the root pointer, once a subtree [Y] has
    taken the place of the node. *)
Lemma replaced_slot s s' k l x c v r Y :
  wf s (plug (PNode l x c v r) k) -> wf s' (plug Y k) ->
  (_root s = Some x -> _root s' = root_ptr Y) /\
  (_root s <> Some x -> _root s' = _root s) /\
  (forall p np,
     ctx_ptr k = Some p -> mem s !! p = Some np ->
     mem s' !! p
     = Some (if ptr_eqb (Some x) (left np) then with_left (root_ptr Y) np
             else with_right (root_ptr Y) np)).
Proof.
  intros W W'.
  pose proof (wf_nodup _ _ W) as ND.
  rewrite (wf_root _ _ W), (wf_root _ _ W'), !root_ptr_plug. cbn [root_ptr].
  split; [|split].
  - destruct k as [|f k]; [reflexivity|].
    intros E. pose proof (root_not_focus l x c v r (f :: k)) as H.
    rewrite E, ptr_eqb_refl in H. discriminate H; [discriminate|exact ND].
  - destruct k as [|f k]; [simpl; congruence|]. intros _. destruct f; reflexivity.
  - intros p np Hp Hnp. rewrite addrs_plug in ND.
    destruct k as [|[q cq vq sib|sib q cq vq] k]; simpl in Hp; [discriminate|..];
      injection Hp as ->;
      cbn [addrs cleft cright] in ND;
      [ pose proof (wf_focus s (PNode l x c v r) p cq vq sib k W) as H1;
        pose proof (wf_focus s' Y p cq vq sib k W') as H2
      | pose proof (wf_focus s sib p cq vq (PNode l x c v r) k W) as H1;
        pose proof (wf_focus s' sib p cq vq Y k W') as H2 ];
      rewrite Hnp in H1; injection H1 as ->; rewrite H2; cbn [left root_ptr].
    + rewrite ptr_eqb_refl. reflexivity.
    + rewrite ptr_eqb_root_ne by distinct. reflexivity.
Qed.

(** Two heaps that lay out the same context around the same pointer agree
    on the nodes of the context. *)
Lemma cshape_det h h' k :
  forall hp a,
    cshape h k hp -> cshape h' k hp -> a ∈ cleft k ++ cright k ->
    h !! a = h' !! a.
Proof.
  induction k as [|[p c v r|l p c v] k IH]; intros hp a HK HK' Ha.
  - inversion Ha.
  - cbn [cshape cleft cright] in *.
    destruct HK as (Hp & Sr & HK). destruct HK' as (Hp' & Sr' & HK').
    rewrite !elem_of_app, elem_of_cons in Ha.
    destruct Ha as [Ha|[[->|Ha]|Ha]].
    + apply (IH (Some p)); [exact HK|exact HK'|apply elem_of_app; auto].
    + congruence.
    + exact (shape_det _ _ _ _ _ Sr Sr' Ha).
    + apply (IH (Some p)); [exact HK|exact HK'|apply elem_of_app; auto].
  - cbn [cshape cleft cright] in *.
    destruct HK as (Hp & Sl & HK). destruct HK' as (Hp' & Sl' & HK').
    rewrite !elem_of_app in Ha. rewrite list_elem_of_singleton in Ha.
    destruct Ha as [[Ha|[Ha| ->]]|Ha].
    + apply (IH (Some p)); [exact HK|exact HK'|apply elem_of_app; auto].
    + exact (shape_det _ _ _ _ _ Sl Sl' Ha).
    + congruence.
    + apply (IH (Some p)); [exact HK|exact HK'|apply elem_of_app; auto].
Qed.

(** When the hole changes, only the node just above it does. *)
Lemma cshape_frame h h' k hp hp' a :
  cshape h k hp -> cshape h' k hp' -> a ∈ cleft k ++ cright k ->
  Some a <> ctx_ptr k -> h !! a = h' !! a.
Proof.
  intros HK HK' Ha Hne.
  destruct k as [|[p c v r|l p c v] k]; [inversion Ha|..];
    cbn [cshape cleft cright ctx_ptr] in *.
  - destruct HK as (Hp & Sr & HK). destruct HK' as (Hp' & Sr' & HK').
    rewrite !elem_of_app, elem_of_cons in Ha.
    destruct Ha as [Ha|[[->|Ha]|Ha]].
    + apply (cshape_det h h' k (Some p)); [exact HK|exact HK'|apply elem_of_app; auto].
    + congruence.
    + exact (shape_det _ _ _ _ _ Sr Sr' Ha).
    + apply (cshape_det h h' k (Some p)); [exact HK|exact HK'|apply elem_of_app; auto].
  - destruct HK as (Hp & Sl & HK). destruct HK' as (Hp' & Sl' & HK').
    rewrite !elem_of_app in Ha. rewrite list_elem_of_singleton in Ha.
    destruct Ha as [[Ha|[Ha| ->]]|Ha].
    + apply (cshape_det h h' k (Some p)); [exact HK|exact HK'|apply elem_of_app; auto].
    + exact (shape_det _ _ _ _ _ Sl Sl' Ha).
    + congruence.
    + apply (cshape_det h h' k (Some p)); [exact HK|exact HK'|apply elem_of_app; auto].
Qed.

Lemma wf_20_10_30_25 : wf st_20_10_30_25 tree_20_10_30_25.
Proof. apply wf_b_sound. vm_compute. reflexivity. Qed.

Lemma not_allocated s T a : wf s T -> a ∉ addrs T -> mem s !! a = None.
Proof.
  intros W Hn. destruct (mem s !! a) as [n|] eqn:E; [|reflexivity].
  exfalso. apply Hn. apply (wf_dom _ _ W). rewrite E. eauto.
Qed.

(** Every node other than the removed one, its parent and its only child
    is left as it was. *)
Lemma replaced_frame s s' k l x c v r :
  wf s (plug (PNode l x c v r) k) ->
  wf s' (plug (blacken (match l with PLeaf => r | _ => l end)) k) ->
  l = PLeaf \/ r = PLeaf ->
  forall a,
    a <> x -> Some a <> ctx_ptr k ->
    Some a <> root_ptr (match l with PLeaf => r | _ => l end) ->
    mem s' !! a = mem s !! a.
Proof.
  intros W W' Hone a Hax Hap Hac.
  set (C := match l with PLeaf => r | _ => l end) in *.
  assert (HC : exists par, shape (mem s) par C /\
                 forall b, b ∈ addrs l ++ x :: addrs r -> b = x \/ b ∈ addrs C).
  { pose proof (wf_shape _ _ W) as HS. apply shape_plug in HS as [HS _].
    cbn [shape] in HS. destruct HS as (_ & Sl & Sr).
    exists (Some x). subst C. destruct Hone as [-> | ->].
    - split; [exact Sr|]. intros b Hb. cbn [addrs app] in Hb.
      apply elem_of_cons in Hb. exact Hb.
    - split; [destruct l; [exact I|exact Sl]|].
      intros b Hb. cbn [addrs] in Hb.
      apply elem_of_app in Hb as [Hb|Hb].
      + right. destruct l; exact Hb.
      + apply list_elem_of_singleton in Hb. left. exact Hb. }
  destruct HC as (par & SC & Hsub).
  pose proof (wf_shape _ _ W) as HS. apply shape_plug in HS as [_ HK].
  pose proof (wf_shape _ _ W') as HS'. apply shape_plug in HS' as [SC' HK'].
  destruct (decide (a ∈ cleft k ++ cright k)) as [Hk|Hnk].
  { symmetry. exact (cshape_frame _ _ k _ _ a HK HK' Hk Hap). }
  destruct (decide (a ∈ addrs C)) as [HaC|HnC].
  - destruct C as [|cl c0 cc cv cr]; [inversion HaC|].
    cbn [blacken shape addrs root_ptr] in *.
    destruct SC as (_ & Scl & Scr). destruct SC' as (_ & Scl' & Scr').
    apply elem_of_app in HaC as [HaC|HaC].
    + exact (shape_det _ _ _ _ _ Scl' Scl HaC).
    + apply elem_of_cons in HaC as [->|HaC]; [congruence|].
      exact (shape_det _ _ _ _ _ Scr' Scr HaC).
  - rewrite (not_allocated s' _ a W'), (not_allocated s _ a W); [reflexivity| |].
    + rewrite addrs_plug. cbn [addrs]. intros Hin.
      apply elem_of_app in Hin as [H|Hin]; [apply Hnk; apply elem_of_app; auto|].
      apply elem_of_app in Hin as [H|H]; [|apply Hnk; apply elem_of_app; auto].
      destruct (Hsub a H); contradiction.
    + rewrite addrs_plug, blacken_addrs. intros Hin.
      apply elem_of_app in Hin as [H|Hin]; [apply Hnk; apply elem_of_app; auto|].
      apply elem_of_app in Hin as [H|H]; [contradiction|].
      apply Hnk; apply elem_of_app; auto.
Qed.

(** X9.  In a red-black tree, [remove(node)] of a node with at most one
    child, other than a black node without children, returns and leaves a
    well-formed red-black tree.  The node is freed.  Its only child (null
    when it has none) takes its place: the root pointer or the parent's slot
    that held the node now holds the child, and the child has the node's
    parent and is coloured black, with its own children and value.  Every
    other node is left as it was, and the in-order sequences of nodes and of
    values lose exactly that node. *)
Theorem remove_with_at_most_one_child (s : state) (T : ptree) (x : nat)
    (nx : RBNode) (fuel : nat) :
  wf s T -> rb T -> mem s !! x = Some nx ->
  left nx = None \/ right nx = None ->
  ~ (left nx = None /\ right nx = None /\ color nx = BLACK) ->
  (0 < fuel)%nat ->
  let child := match left nx with Some _ => left nx | None => right nx end in
  exists s' T' apre apost pre post,
    RBTree.remove fuel (Some x) s = Done tt s' /\
    wf s' T' /\ rb T' /\
    mem s' !! x = None /\
    (_root s = Some x -> _root s' = child) /\
    (_root s <> Some x -> _root s' = _root s) /\
    (forall p np,
       parent nx = Some p -> mem s !! p = Some np ->
       mem s' !! p
       = Some (if ptr_eqb (Some x) (left np) then with_left child np
               else with_right child np)) /\
    (forall c nc,
       child = Some c -> mem s !! c = Some nc ->
       mem s' !! c
       = Some (mkRBNode (parent nx) (right nc) (left nc) (data nc) BLACK)) /\
    (forall a,
       a <> x -> Some a <> parent nx -> Some a <> child ->
       mem s' !! a = mem s !! a) /\
    addrs T = apre ++ x :: apost /\ addrs T' = apre ++ apost /\
    values T = pre ++ data nx :: post /\ values T' = pre ++ post /\
    length apre = length pre.
Proof.
  intros W Hrb Hx Hone Hnot Hfuel child.
  destruct (remove_one_child_tree s T x nx fuel W Hrb Hx Hone Hnot Hfuel)
    as (s' & T' & apre & apost & pre & post & l & r & k & Hrem & W' & Hrb' & Hfree
        & E1 & E2 & E3 & E4 & E5 & ET & Hp & Hl & Hr & ET').
  subst T T'.
  assert (Hone' : l = PLeaf \/ r = PLeaf).
  { destruct Hone as [H|H]; [left; rewrite Hl in H|right; rewrite Hr in H];
      apply root_ptr_None; exact H. }
  assert (Hchild : child = root_ptr (match l with PLeaf => r | _ => l end)).
  { subst child. rewrite Hl, Hr. destruct l; reflexivity. }
  assert (Hchild' : child
                    = root_ptr (blacken (match l with PLeaf => r | _ => l end))).
  { rewrite Hchild. destruct l; [destruct r|]; reflexivity. }
  destruct (replaced_slot s s' k l x _ _ r _ W W') as (R1 & R2 & R3).
  exists s', (plug (blacken (match l with PLeaf => r | _ => l end)) k),
         apre, apost, pre, post.
  split; [exact Hrem|]. split; [exact W'|]. split; [exact Hrb'|].
  split; [exact Hfree|].
  split; [rewrite Hchild'; exact R1|]. split; [exact R2|].
  split.
  { intros p np Hpp Hnp. rewrite Hchild'. apply R3; [rewrite <- Hp; exact Hpp|exact Hnp]. }
  split.
  { intros c0 nc Hc Hnc. rewrite Hchild in Hc. rewrite Hp.
    destruct Hone' as [-> | ->].
    - destruct r as [|rl c1 rc rv rr]; [discriminate|]. injection Hc as ->.
      pose proof (wf_focus s rl c0 rc rv rr (FR PLeaf x (color nx) (data nx) :: k) W) as H1.
      rewrite Hnc in H1. injection H1 as ->.
      exact (wf_focus s' rl c0 BLACK rv rr k W').
    - destruct l as [|ll c1 lc lv lr]; [discriminate|]. injection Hc as ->.
      pose proof (wf_focus s ll c0 lc lv lr (FL x (color nx) (data nx) PLeaf :: k) W) as H1.
      rewrite Hnc in H1. injection H1 as ->.
      exact (wf_focus s' ll c0 BLACK lv lr k W'). }
  split.
  { intros a Hax Hap Hac. rewrite Hp in Hap. rewrite Hchild in Hac.
    exact (replaced_frame s s' k l x _ _ r W W' Hone' a Hax Hap Hac). }
  auto.
Qed.

(** X9, for the black node of 30 in the tree built from 20, 10, 30, 25: its
    only child is the red node of 25, which takes its place under the root
    20 and becomes black. *)
Lemma remove_with_at_most_one_child_witness :
  exists s' T' apre apost pre post,
    RBTree.remove 1 (Some 3%nat) st_20_10_30_25 = Done tt s' /\
    wf s' T' /\ rb T' /\
    mem s' !! 3%nat = None /\
    (_root st_20_10_30_25 = Some 3%nat -> _root s' = Some 4%nat) /\
    (_root st_20_10_30_25 <> Some 3%nat -> _root s' = _root st_20_10_30_25) /\
    (forall p np,
       Some 1%nat = Some p -> mem st_20_10_30_25 !! p = Some np ->
       mem s' !! p
       = Some (if ptr_eqb (Some 3%nat) (left np) then with_left (Some 4%nat) np
               else with_right (Some 4%nat) np)) /\
    (forall c nc,
       Some 4%nat = Some c -> mem st_20_10_30_25 !! c = Some nc ->
       mem s' !! c
       = Some (mkRBNode (Some 1%nat) (right nc) (left nc) (data nc) BLACK)) /\
    (forall a,
       a <> 3%nat -> Some a <> Some 1%nat -> Some a <> Some 4%nat ->
       mem s' !! a = mem st_20_10_30_25 !! a) /\
    addrs tree_20_10_30_25 = apre ++ 3%nat :: apost /\ addrs T' = apre ++ apost /\
    values tree_20_10_30_25 = pre ++ 30 :: post /\ values T' = pre ++ post /\
    length apre = length pre.
Proof.
  assert (Hrb : rb tree_20_10_30_25) by (apply rb_b_sound; vm_compute; reflexivity).
  apply (remove_with_at_most_one_child st_20_10_30_25 tree_20_10_30_25 3%nat
           (mkRBNode (Some 1%nat) None (Some 4%nat) 30 BLACK) 1 wf_20_10_30_25 Hrb).
  - reflexivity.
  - right. reflexivity.
  - intros (H & _). discriminate H.
  - lia.
Defined.




(** ** Removal of a node with two children whose successor is its right
    child *)

Lemma remove_unlink_direct_dom h nf k ll l0 cl vl lr x cx vx y cy vy ry :
  let L := PNode ll l0 cl vl lr in
  let Y := PNode PLeaf y cy vy ry in
  shape h None (plug (PNode L x cx vx Y) k) ->
  NoDup (addrs (plug (PNode L x cx vx Y) k)) ->
  forall fuel, (0 < fuel)%nat ->
  exists h',
    RBTree.remove_unlink fuel (Some x) (mkState h (plug_root (Some x) k) nf)
    = Done (cy, root_ptr ry) (mkState h' (plug_root (Some y) k) nf) /\
    shape h' None (plug (PNode L y cx vy ry) k) /\
    dom_le h h' /\ h' !! x = h !! x.
Proof.
  intros L Y HS ND fuel Hf. subst L Y.
  apply shape_plug in HS as [HS HK].
  rewrite addrs_plug in ND. cbn [addrs] in ND.
  cbn [shape root_ptr] in HS.
  destruct HS as (Hx & (Hl0 & Sll & Slr) & Hy & _ & Sry).
  assert (Hlm : forall r, RBTree.leftmost fuel (Some y) (mkState h r nf)
                = Done (Some y) (mkState h r nf)).
  { intros r. apply (leftmost_refines h r nf y _ _ _ _ Hy [] []); [constructor|exact I|exact Hf]. }
  unfold RBTree.remove_unlink, RBTree.replaceNode.
  destruct k as [|[p cp vp sib|sib p cp vp] k];
    [|cbn [cshape cleft cright] in HK, ND; destruct HK as (Hp & Ss & HK)..];
    cbn [plug_root];
    (eexists; split; [execr; rewrite Hlm; execr; reflexivity|]);
    (split; [apply shape_plug; cbn [shape cshape root_ptr ctx_ptr]; reshape|]);
    (split; [dom_le|unchanged]).
Qed.

(** A subtree of black height 0 is empty or a red node. *)
Lemma bh_zero t : bh t 0 -> col t = BLACK -> t = PLeaf.
Proof.
  destruct t as [|l a c v r]; [reflexivity|].
  intros (m & E & _) Hc. simpl in Hc. subst c. simpl in E. lia.
Qed.

(** X10.  In a red-black tree, [remove(node)] of a node with two children
    whose right child has no left child (the right child is then the
    in-order successor), unless that child is black and has no child of its
    own, returns and leaves a well-formed red-black tree: the right child
    takes over the node's parent, left child and colour and keeps its own
    value and right child, the node is freed, and the in-order sequence
    loses exactly that node. *)
Theorem remove_when_successor_is_right_child (s : state) (T : ptree)
    (x : nat) (nx : RBNode) (y : nat) (ny : RBNode) (fuel : nat) :
  wf s T -> rb T -> mem s !! x = Some nx ->
  left nx <> None -> right nx = Some y ->
  mem s !! y = Some ny -> left ny = None ->
  ~ (color ny = BLACK /\ right ny = None) ->
  (0 < fuel)%nat ->
  exists s' T' apre apost pre post,
    RBTree.remove fuel (Some x) s = Done tt s' /\
    wf s' T' /\ rb T' /\
    mem s' !! x = None /\
    mem s' !! y
    = Some (mkRBNode (parent nx) (right ny) (left nx) (data ny) (color nx)) /\
    addrs T = apre ++ x :: apost /\ addrs T' = apre ++ apost /\
    values T = pre ++ data nx :: post /\ values T' = pre ++ post /\
    length apre = length pre.
Proof.
  intros W Hrb Hx Hleft Hright Hy Hyl Hnot Hfuel.
  destruct (wf_node s T x nx W Hx) as (l & r0 & k & -> & Hl & Hr & Hp).
  destruct l as [|ll l0 cl vl lr]; [cbn in Hl; congruence|].
  rewrite Hright in Hr.
  destruct r0 as [|yl y' cy vy ry]; [discriminate|]. injection Hr as <-.
  pose proof (wf_focus s yl y cy vy ry (FR (PNode ll l0 cl vl lr) x (color nx) (data nx) :: k) W)
    as Hy'.
  rewrite Hy in Hy'. injection Hy' as ->. cbn [left right color data] in *.
  apply root_ptr_None in Hyl. subst yl.
  destruct s as [h r nf]. cbn [mem] in Hx, Hy.
  pose proof (wf_root _ _ W) as Hroot. cbn [_root] in Hroot.
  rewrite root_ptr_plug in Hroot. cbn [root_ptr] in Hroot. subst r.
  pose proof (wf_shape _ _ W) as HS. pose proof (wf_nodup _ _ W) as ND.
  cbn [mem] in HS.
  pose proof Hrb as (_ & Hnrr & m & Hbh).
  apply nrr_plug_inv in Hnrr as (HnX & _ & _).
  apply bh_plug_inv in Hbh as (n & HbX & _).
  set (L := PNode ll l0 cl vl lr) in *.
  destruct (remove_unlink_direct_dom h nf k ll l0 cl vl lr x (color nx) (data nx)
              y cy vy ry HS ND fuel Hfuel) as (h' & Hrun & HS' & Hdom & Hsame).
  fold L in HS'.
  assert (Er : plug_root (Some y) k = root_ptr (plug (PNode L y (color nx) vy ry) k))
    by (rewrite root_ptr_plug; reflexivity).
  rewrite Er in Hrun.
  assert (W' : wf (mkState (delete x h') (root_ptr (plug (PNode L y (color nx) vy ry) k)) nf)
                  (plug (PNode L y (color nx) vy ry) k)).
  { apply (wf_after_remove h nf L x (color nx) (data nx) (PNode PLeaf y cy vy ry) k h');
      [exact W|exact HS'|exact Hdom|reflexivity]. }
  assert (Hrem : RBTree.remove fuel (Some x) (mkState h (plug_root (Some x) k) nf)
    = (if is_black cy
       then RBTree.fixDeleteViolations fuel (root_ptr ry)
              (mkState (delete x h') (root_ptr (plug (PNode L y (color nx) vy ry) k)) nf)
       else Done tt (mkState (delete x h') (root_ptr (plug (PNode L y (color nx) vy ry) k)) nf))).
  { rewrite (remove_after_unlink _ _ _ _ _ _ Hrun); [reflexivity|].
    cbn [mem]. rewrite Hsame, Hx. eauto. }
  cbn [nrr col bh] in HnX, HbX.
  destruct HnX as (HeX & HnL & (HeY & _ & Hnry)).
  destruct HbX as (m1 & -> & HbL & (m2 & -> & -> & Hbry)).
  rewrite Nat.add_0_r in *.
  assert (Hxy : x <> y) by (rewrite addrs_plug in ND; cbn [addrs] in ND; distinct).
  destruct (removed_sequences L x (color nx) (data nx) (PNode PLeaf y cy vy ry) k
              (PNode L y (color nx) vy (blacken ry)))
    as (apre & apost & pre & post & E1 & E2 & E3 & E4 & E5);
    [cbn [addrs]; rewrite blacken_addrs; reflexivity
    |cbn [values]; rewrite blacken_values; reflexivity|].
  destruct cy.
  - (* black successor with a red right child *)
    destruct ry as [|rl r [|] rv rr];
      [exfalso; apply Hnot; auto| |].
    { destruct Hbry as (m3 & E & _). simpl in E. lia. }
    destruct Hbry as (m3 & E & Hbl & Hbr). simpl in E. subst m3.
    cbn [is_black root_ptr] in Hrem.
    destruct fuel as [|fuel]; [lia|].
    destruct (fixDeleteViolations_red_focus fuel _ rl r rv rr
                (FR L y (color nx) vy :: k) W') as (s2 & Hfix & W2 & Hmem).
    cbn [plug] in W2.
    exists s2, (plug (PNode L y (color nx) vy (PNode rl r BLACK rv rr)) k),
           apre, apost, pre, post.
    split; [rewrite Hrem; exact Hfix|]. split; [exact W2|]. split.
    { apply (rb_replace (PNode L x (color nx) (data nx) (PNode PLeaf y BLACK vy (PNode rl r RED rv rr))));
        [exact Hrb| | |right; reflexivity].
      - cbn [nrr col] in *. split; [intros E; split; [exact (proj1 (HeX E))|reflexivity]|].
        split; [exact HnL|]. split; [discriminate|]. tauto.
      - intros n' (m1' & -> & HbL' & (m2' & -> & E2' & (m3' & E3' & _))).
        simpl in E2', E3'. subst m2' m3'.
        exists 1%nat. split; [reflexivity|]. split; [exact HbL'|].
        exists 0%nat. auto. }
    split.
    { rewrite Hmem by (rewrite addrs_plug in ND; cbn [addrs] in ND; distinct).
      cbn [mem]. apply lookup_delete_eq. }
    split.
    { rewrite (wf_focus _ _ _ _ _ _ _ W2). rewrite Hp, Hl. reflexivity. }
    cbn [blacken] in E2, E4. auto.
  - (* red successor: it has no child *)
    assert (ry = PLeaf) as -> by (apply bh_zero; [exact Hbry|exact (proj2 (HeY eq_refl))]).
    cbn [is_black] in Hrem.
    exists (mkState (delete x h') (root_ptr (plug (PNode L y (color nx) vy PLeaf) k)) nf),
           (plug (PNode L y (color nx) vy PLeaf) k), apre, apost, pre, post.
    split; [exact Hrem|]. split; [exact W'|]. split.
    { apply (rb_replace (PNode L x (color nx) (data nx) (PNode PLeaf y RED vy PLeaf)));
        [exact Hrb| | |right; reflexivity].
      - cbn [nrr col] in *. split; [intros E; split; [exact (proj1 (HeX E))|reflexivity]|].
        split; [exact HnL|exact I].
      - intros n' (m1' & -> & HbL' & (m2' & -> & E2' & _)).
        simpl in E2'. subst m2'.
        exists 0%nat. split; [reflexivity|]. split; [exact HbL'|reflexivity]. }
    split; [cbn [mem]; apply lookup_delete_eq|].
    split.
    { rewrite (wf_focus _ _ _ _ _ _ _ W'). rewrite Hp, Hl. reflexivity. }
    cbn [blacken] in E2, E4. auto.
Qed.

(** X10, for the root 20 of the tree built from 10, 20, 30, whose right
    child 30 is red and has no child. *)
Lemma remove_when_successor_is_right_child_witness :
  exists s' T' apre apost pre post,
    RBTree.remove 1 (Some 2%nat) st_10_20_30 = Done tt s' /\
    wf s' T' /\ rb T' /\
    mem s' !! 2%nat = None /\
    mem s' !! 3%nat = Some (mkRBNode None None (Some 1%nat) 30 BLACK) /\
    addrs tree_10_20_30 = apre ++ 2%nat :: apost /\ addrs T' = apre ++ apost /\
    values tree_10_20_30 = pre ++ 20 :: post /\ values T' = pre ++ post /\
    length apre = length pre.
Proof.
  assert (Hrb : rb tree_10_20_30) by (apply rb_b_sound; vm_compute; reflexivity).
  apply (remove_when_successor_is_right_child st_10_20_30 tree_10_20_30 2%nat
           (mkRBNode None (Some 3%nat) (Some 1%nat) 20 BLACK) 3%nat
           (mkRBNode (Some 2%nat) None None 30 RED) 1 wf_10_20_30 Hrb).
  - reflexivity.
  - discriminate.
  - reflexivity.
  - reflexivity.
  - reflexivity.
  - intros (H & _). discriminate H.
  - lia.
Defined.


(** ** Removal of a black node that nothing replaces *)





(** ** [search] and [remove(val)] away from the root *)

(** For a value of at least 1 the loop condition of [search] holds at every
    node, for a negative value at none. *)
Lemma search_guard_positive val d : 1 <= val -> RBTree.search_guard val d = true.
Proof.
  intros H. unfold RBTree.search_guard, comp.
  destruct (negb (d =? 0) && negb (d <? val)); simpl;
    apply negb_true_iff, Z.ltb_ge; lia.
Qed.

Lemma search_guard_negative val d : val < 0 -> RBTree.search_guard val d = false.
Proof.
  intros H. unfold RBTree.search_guard, comp.
  destruct (negb (d =? 0) && negb (d <? val)); simpl;
    apply negb_false_iff, Z.ltb_lt; lia.
Qed.

(** The loop then runs down to a null child, whatever the nodes hold. *)
Lemma search_loop_positive val t :
  1 <= val ->
  forall par fuel h r nf,
    shape h par t -> (height t < fuel)%nat ->
    RBTree.search_loop RBTree.search_guard fuel val (root_ptr t) (mkState h r nf)
    = Done None (mkState h r nf).
Proof.
  intros Hv. induction t as [|l IHl a c w r0 IHr]; intros par fuel h r nf HS Hf.
  - destruct fuel; [simpl in Hf; lia|]. reflexivity.
  - destruct fuel as [|fuel]; [simpl in Hf; lia|].
    cbn [height] in Hf. cbn [shape] in HS. destruct HS as (Ha & HSl & HSr).
    cbn [RBTree.search_loop root_ptr is_null].
    erewrite bind_done by (exec; reflexivity). cbn [data].
    rewrite (search_guard_positive val w Hv).
    erewrite bind_done by (exec; reflexivity). cbn [data].
    destruct (comp val w).
    + erewrite bind_done by (exec; reflexivity). cbn [left].
      apply (IHl (Some a)); [exact HSl|lia].
    + erewrite bind_done by (exec; reflexivity). cbn [right].
      apply (IHr (Some a)); [exact HSr|lia].
Qed.

(** X12.  With the loop condition of [search] taken as line 438 spells it
    (the one missing parenthesis closed at the end of the line), on a
    well-formed tree: [search(val)] returns null on the empty tree and the
    root when the root holds [val]; otherwise it returns null for every
    [val >= 1], stored or not, and the root for every negative [val].
    [remove(val)] therefore leaves the tree untouched for every
    [val >= 1] that the root does not hold. *)
Theorem search_looks_at_the_root_only (s : state) (T : ptree) (fuel : nat)
    (val : Z) :
  wf s T -> (height T < fuel)%nat ->
  (_root s = None -> RBTree.search fuel val s = Done None s) /\
  (forall a n,
     _root s = Some a -> mem s !! a = Some n ->
     (data n = val -> RBTree.search fuel val s = Done (Some a) s) /\
     (data n <> val -> 1 <= val ->
      RBTree.search fuel val s = Done None s /\
      RBTree.remove_value fuel val s = Done tt s) /\
     (data n <> val -> val < 0 ->
      RBTree.search fuel val s = Done (Some a) s)).
Proof.
  intros W Hf. destruct s as [h r nf]. cbn [_root mem].
  pose proof (wf_root _ _ W) as Hr. cbn [_root] in Hr.
  pose proof (wf_shape _ _ W) as HS. cbn [mem] in HS.
  unfold RBTree.remove_value, RBTree.search, RBTree.search_with.
  split.
  - intros ->. reflexivity.
  - intros a n -> Ha.
    assert (Hstop : forall b : bool, (data n =? val) = b ->
      (r0 <- get_root;;
       stop <- (if is_null r0 then ret true
                else (d <- get data r0;; ret (d =? val)));;
       if (stop : bool) then get_root
       else (curr <- get_root;;
             RBTree.search_loop RBTree.search_guard fuel val curr))
        (mkState h (Some a) nf)
      = if b then Done (Some a) (mkState h (Some a) nf)
        else RBTree.search_loop RBTree.search_guard fuel val (Some a)
               (mkState h (Some a) nf)).
    { intros b Hb. destruct n as [pn rn ln dn cn]. cbn [data] in Hb.
      exec. rewrite Hb. destruct b; reflexivity. }
    split; [|split].
    + intros E. rewrite (Hstop true); [reflexivity|]. apply Z.eqb_eq. exact E.
    + intros E Hv.
      assert (Hs : RBTree.search_loop RBTree.search_guard fuel val (Some a)
                     (mkState h (Some a) nf) = Done None (mkState h (Some a) nf)).
      { rewrite Hr. apply (search_loop_positive val T Hv None); assumption. }
      assert (Hsearch : (r0 <- get_root;;
         stop <- (if is_null r0 then ret true
                  else (d <- get data r0;; ret (d =? val)));;
         if (stop : bool) then get_root
         else (curr <- get_root;;
               RBTree.search_loop RBTree.search_guard fuel val curr))
          (mkState h (Some a) nf) = Done None (mkState h (Some a) nf)).
      { rewrite (Hstop false); [exact Hs|]. apply Z.eqb_neq. exact E. }
      split; [exact Hsearch|].
      erewrite bind_done by exact Hsearch. reflexivity.
    + intros E Hv. rewrite (Hstop false) by (apply Z.eqb_neq; exact E).
      destruct fuel as [|fuel]; [lia|].
      cbn [RBTree.search_loop is_null].
      destruct n as [pn rn ln dn cn].
      erewrite bind_done by (exec; reflexivity). cbn [data].
      rewrite (search_guard_negative val dn Hv). reflexivity.
Qed.

(** X12, in the tree built from 10, 20, 30, whose root holds 20: the stored
    30 is not found, and the root is returned for -5. *)
Lemma search_looks_at_the_root_only_witness :
  RBTree.search 3 30 st_10_20_30 = Done None st_10_20_30 /\
  RBTree.remove_value 3 30 st_10_20_30 = Done tt st_10_20_30 /\
  RBTree.search 3 (-5) st_10_20_30 = Done (Some 2%nat) st_10_20_30.
Proof.
  assert (Hh : (height tree_10_20_30 < 3)%nat) by (vm_compute; lia).
  pose proof (proj2 (search_looks_at_the_root_only st_10_20_30 tree_10_20_30 3 30
                       wf_10_20_30 Hh)
                2%nat (mkRBNode None (Some 3%nat) (Some 1%nat) 20 BLACK)
                eq_refl eq_refl) as (_ & H30 & _).
  pose proof (proj2 (search_looks_at_the_root_only st_10_20_30 tree_10_20_30 3 (-5)
                       wf_10_20_30 Hh)
                2%nat (mkRBNode None (Some 3%nat) (Some 1%nat) 20 BLACK)
                eq_refl eq_refl) as (_ & _ & Hneg).
  destruct H30 as [H1 H2]; [discriminate|lia|].
  split; [exact H1|]. split; [exact H2|].
  apply Hneg; [discriminate|lia].
Defined.


(** ** Nodes keep their address and their value across [insert] *)





(** ** Removal when the successor lies below the right child *)

(** Line 408 writes the right child's own address into its parent field. *)
Lemma remove_unlink_deep_parent h nf k ll l0 cl vl lr x cx vx y cy vy ry q cq vq qs kR :
  let L := PNode ll l0 cl vl lr in
  let Y := PNode PLeaf y cy vy ry in
  let K := FL q cq vq qs :: kR ++ FR L x cx vx :: k in
  shape h None (plug Y K) -> NoDup (addrs (plug Y K)) ->
  Forall is_FL kR ->
  forall fuel, (S (length kR) < fuel)%nat ->
  exists h' b nb,
    RBTree.remove_unlink fuel (Some x) (mkState h (plug_root (Some x) k) nf)
    = Done (cy, root_ptr ry) (mkState h' (plug_root (Some y) k) nf) /\
    plug_root (Some q) kR = Some b /\
    h' !! b = Some nb /\ parent nb = Some b /\
    h' !! x = h !! x.
Proof.
  intros L Y K HS ND HF fuel Hf. subst L Y K.
  apply shape_plug in HS as [HS HK].
  rewrite addrs_plug in ND.
  cbn [addrs cleft cright] in ND. rewrite cleft_app, cright_app in ND.
  cbn [addrs cleft cright] in ND.
  cbn [shape cshape root_ptr ctx_ptr] in HS, HK.
  destruct HS as (Hy & _ & Sry). destruct HK as (Hq & Sqs & HK).
  assert (Hlm : forall r, RBTree.leftmost fuel (plug_root (Some q) kR) (mkState h r nf)
                = Done (Some y) (mkState h r nf)).
  { intros r.
    apply (leftmost_refines h r nf y _ _ _ _ Hy (FL q cq vq qs :: kR)
             (FR (PNode ll l0 cl vl lr) x cx vx :: k));
      [constructor; [exact I|exact HF]| |simpl; lia].
    cbn [app cshape]. auto. }
  pose proof (cshape_app _ _ _ _ HK) as HK2.
  cbn [cshape root_ptr shape] in HK2.
  destruct HK2 as (Hx & (Hl0 & Sll & Slr) & HKk).
  unfold RBTree.remove_unlink, RBTree.replaceNode.
  destruct kR as [|f kR' _] using rev_ind.
  - (* the parent of the successor is the right child *)
    cbn [plug_root app ctx_ptr cleft cright] in *.
    destruct ry as [|yl y0 cy0 vy0 yr];
      [|cbn [shape root_ptr] in Sry; destruct Sry as (Hy0 & Syl & Syr);
        cbn [addrs] in ND];
      (destruct k as [|[p cp vp sib|sib p cp vp] k];
       [|cbn [cshape cleft cright] in HKk, ND; destruct HKk as (Hp & Ss & HKk)..]);
      cbn [plug_root ctx_ptr];
      (eexists; exists q; eexists; split; [execr; rewrite Hlm; execr; reflexivity|]);
      (split; [reflexivity|]); (split; [lookup|]); (split; [reflexivity|unchanged]).
  - apply Forall_app in HF as [_ Hfl]. apply Forall_cons in Hfl as [Hfl _].
    destruct f as [r0 cr vr rr|]; [|destruct Hfl].
    rewrite plug_root_snoc in *. rewrite <- app_assoc in HK. cbn [app] in HK.
    pose proof (cshape_app _ _ _ _ HK) as HK3. cbn [cshape] in HK3.
    destruct HK3 as (Hr0 & _).
    rewrite cleft_app, cright_app in ND. cbn [cleft cright addrs] in ND.
    destruct ry as [|yl y0 cy0 vy0 yr];
      [|cbn [shape root_ptr] in Sry; destruct Sry as (Hy0 & Syl & Syr);
        cbn [addrs] in ND];
      (destruct k as [|[p cp vp sib|sib p cp vp] k];
       [|cbn [cshape cleft cright] in HKk, ND; destruct HKk as (Hp & Ss & HKk)..]);
      cbn [plug_root ctx_ptr];
      (eexists; exists r0; eexists; split; [execr; rewrite Hlm; execr; reflexivity|]);
      (split; [reflexivity|]); (split; [lookup|]); (split; [reflexivity|unchanged]).
Qed.

Lemma spine_snoc kR0 b cb vb br :
  Forall is_FL kR0 ->
  exists q cq vq qs kR,
    kR0 ++ [FL b cb vb br] = FL q cq vq qs :: kR /\
    Forall is_FL kR /\ length kR = length kR0 /\
    plug_root (Some q) kR = Some b.
Proof.
  intros HF. destruct kR0 as [|f kR0].
  - exists b, cb, vb, br, []. simpl. auto.
  - apply Forall_cons in HF as [Hf HF].
    destruct f as [q cq vq qs|]; [|destruct Hf].
    exists q, cq, vq, qs, (kR0 ++ [FL b cb vb br]).
    split; [reflexivity|]. split.
    { apply Forall_app. split; [exact HF|repeat constructor]. }
    split; [rewrite length_app; simpl; lia|apply plug_root_snoc].
Qed.

(** A node whose parent field holds its own address belongs to no
    well-formed tree. *)
Lemma self_parent_not_wf s T b nb :
  mem s !! b = Some nb -> parent nb = Some b -> ~ wf s T.
Proof.
  intros Hb Hp W.
  destruct (wf_node s T b nb W Hb) as (l & r & k & -> & _ & _ & Hk).
  rewrite Hp in Hk. pose proof (wf_nodup _ _ W) as ND.
  rewrite addrs_plug in ND. cbn [addrs] in ND.
  destruct k as [|[a c v r'|l' a c v] k]; cbn [ctx_ptr] in Hk;
    [discriminate|injection Hk as <-|injection Hk as <-];
    cbn [cleft cright] in ND;
    assert (Hne : b <> b) by distinct; congruence.
Qed.

(** X14.  When the node to remove has two children and its right child has
    a left child (the in-order successor then lies below the right child),
    the unlinking part of [remove(node)] leaves the right child with its
    own address in its parent field (line 408 assigns [node->right] where
    the successor was meant).  When the successor is red nothing repairs
    it: [remove] returns, and the heap it leaves lays out no tree. *)
Theorem remove_deep_successor_breaks_parent_link (s : state) (T : ptree)
    (x : nat) (nx : RBNode) (b : nat) (nb : RBNode) (fuel : nat) :
  wf s T -> (height T < fuel)%nat ->
  mem s !! x = Some nx -> left nx <> None -> right nx = Some b ->
  mem s !! b = Some nb -> left nb <> None ->
  exists c nn s1 nb',
    RBTree.remove_unlink fuel (Some x) s = Done (c, nn) s1 /\
    mem s1 !! b = Some nb' /\ parent nb' = Some b /\
    (c = RED ->
     RBTree.remove fuel (Some x) s = Done tt (freed x s1) /\
     mem (freed x s1) !! b = Some nb' /\
     forall T', ~ wf (freed x s1) T').
Proof.
  intros W Hf Hx Hleft Hright Hb Hbl.
  destruct (wf_node s T x nx W Hx) as (l & r0 & k & -> & Hl & Hr & Hp).
  destruct l as [|ll l0 cl vl lr]; [cbn in Hl; congruence|].
  rewrite Hright in Hr.
  destruct r0 as [|bl b' cb vb br]; [discriminate|]. injection Hr as <-.
  pose proof (wf_focus s bl b cb vb br
                (FR (PNode ll l0 cl vl lr) x (color nx) (data nx) :: k) W) as Hb'.
  rewrite Hb in Hb'. injection Hb' as ->. cbn [left] in Hbl.
  destruct (left_spine_exists bl) as (y & cy & vy & ry & kR0 & -> & HF0 & Hlen0).
  { intros ->. cbn in Hbl. congruence. }
  destruct (spine_snoc kR0 b cb vb br HF0) as (q & cq & vq & qs & kR & EK & HF & Hlen & Hroot).
  set (L := PNode ll l0 cl vl lr) in *.
  assert (ET : plug (PNode L x (color nx) (data nx)
                       (PNode (plug (PNode PLeaf y cy vy ry) kR0) b cb vb br)) k
               = plug (PNode PLeaf y cy vy ry)
                   (FL q cq vq qs :: kR ++ FR L x (color nx) (data nx) :: k)).
  { change (FL q cq vq qs :: kR ++ FR L x (color nx) (data nx) :: k)
      with ((FL q cq vq qs :: kR) ++ FR L x (color nx) (data nx) :: k).
    rewrite <- EK, !plug_app. reflexivity. }
  pose proof (height_plug (PNode L x (color nx) (data nx)
                (PNode (plug (PNode PLeaf y cy vy ry) kR0) b cb vb br)) k) as Hh.
  cbn [height] in Hh.
  destruct s as [h r nf]. cbn [mem] in Hx, Hb.
  pose proof (wf_root _ _ W) as Hr. cbn [_root] in Hr.
  rewrite root_ptr_plug in Hr. cbn [root_ptr] in Hr. subst r.
  pose proof (wf_shape _ _ W) as HS. pose proof (wf_nodup _ _ W) as ND.
  cbn [mem] in HS. rewrite ET in HS, ND.
  destruct (remove_unlink_deep_parent h nf k ll l0 cl vl lr x (color nx) (data nx)
              y cy vy ry q cq vq qs kR HS ND HF fuel)
    as (h' & b0 & nb' & Hrun & Hb0 & Hnb' & Hpar & Hsame); [lia|].
  rewrite Hroot in Hb0. injection Hb0 as <-.
  assert (Hxb : x <> b).
  { rewrite <- ET in ND. rewrite addrs_plug in ND. cbn [addrs] in ND. distinct. }
  exists cy, (root_ptr ry), (mkState h' (plug_root (Some y) k) nf), nb'.
  split; [exact Hrun|]. split; [exact Hnb'|]. split; [exact Hpar|].
  intros ->.
  assert (Hfb : mem (freed x (mkState h' (plug_root (Some y) k) nf)) !! b = Some nb').
  { cbn [freed mem]. rewrite lookup_delete_ne by exact Hxb. exact Hnb'. }
  split; [|split; [exact Hfb|]].
  - rewrite (remove_after_unlink _ _ _ _ _ _ Hrun); [reflexivity|].
    cbn [mem]. rewrite Hsame, Hx. eauto.
  - intros T'. exact (self_parent_not_wf _ T' b nb' Hfb Hpar).
Qed.

(** X14, for the root 20 of the tree built from 20, 10, 30, 25: its right
    child 30 has the left child 25. *)
Lemma remove_deep_successor_breaks_parent_link_witness :
  exists c nn s1 nb',
    RBTree.remove_unlink 4 (Some 1%nat) st_20_10_30_25 = Done (c, nn) s1 /\
    mem s1 !! 3%nat = Some nb' /\ parent nb' = Some 3%nat /\
    (c = RED ->
     RBTree.remove 4 (Some 1%nat) st_20_10_30_25 = Done tt (freed 1 s1) /\
     mem (freed 1 s1) !! 3%nat = Some nb' /\
     forall T', ~ wf (freed 1 s1) T').
Proof.
  apply (remove_deep_successor_breaks_parent_link st_20_10_30_25 tree_20_10_30_25
           1%nat (mkRBNode None (Some 3%nat) (Some 2%nat) 20 BLACK)
           3%nat (mkRBNode (Some 1%nat) None (Some 4%nat) 30 BLACK) 4
           wf_20_10_30_25).
  - vm_compute. lia.
  - reflexivity.
  - discriminate.
  - reflexivity.
  - reflexivity.
  - discriminate.
Defined.


(** ** Where [insert] puts the new node *)

(** The descent goes left on [comp(val, d)] and right otherwise, so the new
    node lands after every value that is not greater than [val]. *)
Lemma ins_position fuel n v T :
  rb T -> nondecreasing (values T) -> (height T < fuel)%nat ->
  exists T' L R Lv Rv,
    ins fuel n v T = Some T' /\
    addrs T = L ++ R /\ addrs T' = L ++ n :: R /\
    values T = Lv ++ Rv /\ values T' = Lv ++ v :: Rv /\
    length L = length Lv /\
    (forall x, x ∈ Lv -> x <= v) /\ (forall x, x ∈ Rv -> v < x).
Proof.
  intros Hrb Hs Hfuel. destruct T as [|l a c w r0].
  - exists (PNode PLeaf n BLACK v PLeaf), [], [], [], [].
    repeat (split; [reflexivity|]).
    split; intros x Hx; inversion Hx.
  - set (T := PNode l a c w r0) in *.
    set (X := PNode PLeaf n RED v PLeaf).
    pose proof (plug_descend v T []) as HT. cbn [plug] in HT.
    pose proof (descend_ctx_length v T []) as HlenK. cbn [length] in HlenK.
    pose proof (descend_ctx_sides v T [] (Forall_nil_2 _)) as Hsides.
    pose proof (descend_ctx_nonempty v l a c w r0) as HneK. fold T in HneK.
    assert (Hinv : ins_inv X (descend_ctx v T []) 0).
    { apply ins_inv_new_leaf. rewrite HT. exact Hrb. }
    destruct (ins_loop_ok fuel X (descend_ctx v T []) 0 Hinv HneK) as
      (T1 & Hloop & Hnrr & Hbh & Ha & Hv); [lia|].
    exists (blacken T1), (cleft (descend_ctx v T [])), (cright (descend_ctx v T [])),
      (cvleft (descend_ctx v T [])), (cvright (descend_ctx v T [])).
    split.
    { change (ins fuel n v T)
        with (match ins_loop fuel X (descend_ctx v T []) with
              | Some T' => Some (blacken T')
              | None => None
              end).
      rewrite Hloop. reflexivity. }
    split; [rewrite <- HT at 1; rewrite addrs_plug; reflexivity|].
    split; [rewrite blacken_addrs, Ha, addrs_plug; reflexivity|].
    split; [rewrite <- HT at 1; rewrite values_plug; reflexivity|].
    split; [rewrite blacken_values, Hv, values_plug; reflexivity|].
    split; [apply cleft_cvleft_length|].
    apply sides_bounds; [exact Hsides|].
    apply nondecreasing_le. rewrite <- HT in Hs. rewrite values_plug in Hs. exact Hs.
Qed.

(** X15.  On a well-formed red-black tree whose in-order sequence is
    non-decreasing, [insert(val)] puts the new node right after every stored
    value that is not greater than [val] and before every greater one:
    values equivalent under the comparator stay in the order of their
    insertion. *)
Theorem insert_goes_after_equal_values (s : state) (T : ptree) (val : Z)
    (fuel : nat) :
  wf s T -> rb T -> nondecreasing (values T) -> (height T < fuel)%nat ->
  exists s' T' apre apost pre post,
    RBTree.insert fuel val s = Done tt s' /\ wf s' T' /\
    addrs T = apre ++ apost /\ addrs T' = apre ++ next_free s :: apost /\
    values T = pre ++ post /\ values T' = pre ++ val :: post /\
    length apre = length pre /\
    (forall x, x ∈ pre -> comp val x = false) /\
    (forall x, x ∈ post -> comp val x = true).
Proof.
  intros W Hrb Hs Hf.
  destruct (ins_position fuel (next_free s) val T Hrb Hs Hf) as
    (T1 & L & R & Lv & Rv & Hins & Ha & Ha1 & Hv & Hv1 & Hlen & Hle & Hgt).
  destruct (insert_refines s T val fuel W Hrb Hf) as (T1' & s1 & Hins' & Hrun & W1 & _).
  rewrite Hins in Hins'. injection Hins' as <-.
  exists s1, T1, L, R, Lv, Rv.
  split; [exact Hrun|]. split; [exact W1|].
  repeat (split; [assumption|]).
  split; intros x Hx; unfold comp.
  - apply Z.ltb_ge. exact (Hle x Hx).
  - apply Z.ltb_lt. exact (Hgt x Hx).
Qed.

(** X15, inserting a second 20 into the tree built from 10, 20, 30. *)
Lemma insert_goes_after_equal_values_witness :
  exists s' T' apre apost pre post,
    RBTree.insert 3 20 st_10_20_30 = Done tt s' /\ wf s' T' /\
    addrs tree_10_20_30 = apre ++ apost /\
    addrs T' = apre ++ next_free st_10_20_30 :: apost /\
    values tree_10_20_30 = pre ++ post /\ values T' = pre ++ 20 :: post /\
    length apre = length pre /\
    (forall x, x ∈ pre -> comp 20 x = false) /\
    (forall x, x ∈ post -> comp 20 x = true).
Proof.
  assert (Hrb : rb tree_10_20_30) by (apply rb_b_sound; vm_compute; reflexivity).
  apply (insert_goes_after_equal_values st_10_20_30 tree_10_20_30 20 3
           wf_10_20_30 Hrb).
  - apply nondecreasing_le. repeat constructor; lia.
  - vm_compute. lia.
Defined.

(** ** Rotations without a pivot *)




(** ** Removal of a node with two children: the re-linking of the successor *)

(** C3.  In the tree built from 20, 10, 30, 25 the root 20 (address 1) has
    the children 10 (address 2) and 30 (address 3), and its in-order
    successor is the red node 25 (address 4), the left child of 30.
    [remove] of the root returns.  The successor 25 is then the root, with
    the colour of 20, the left child 10 and the right child 30, and 10
    points back to it; the recorded colour is that of 25, so no fix-up
    runs.  But the former right child 30 is not linked back to the
    successor: line 408 assigns [node->right] where the successor was
    meant, and 30 ends with its own address in its parent field.  The heap
    that [remove] leaves is the layout of no tree. *)
Theorem C3_right_child_not_linked_to_successor :
  run_ops 10 [Insert 20; Insert 10; Insert 30; Insert 25] empty_tree
  = Done tt st_20_10_30_25 /\
  wf st_20_10_30_25 tree_20_10_30_25 /\
  mem st_20_10_30_25 !! 1%nat
  = Some (mkRBNode None (Some 3%nat) (Some 2%nat) 20 BLACK) /\
  mem st_20_10_30_25 !! 3%nat
  = Some (mkRBNode (Some 1%nat) None (Some 4%nat) 30 BLACK) /\
  mem st_20_10_30_25 !! 4%nat
  = Some (mkRBNode (Some 3%nat) None None 25 RED) /\
  RBTree.leftmost 10 (Some 3%nat) st_20_10_30_25
  = Done (Some 4%nat) st_20_10_30_25 /\
  (exists s1,
     RBTree.remove_unlink 10 (Some 1%nat) st_20_10_30_25 = Done (RED, None) s1 /\
     freed 1 s1 = st_corrupted) /\
  RBTree.remove 10 (Some 1%nat) st_20_10_30_25 = Done tt st_corrupted /\
  _root st_corrupted = Some 4%nat /\
  mem st_corrupted !! 1%nat = None /\
  mem st_corrupted !! 4%nat
  = Some (mkRBNode None (Some 3%nat) (Some 2%nat) 25 BLACK) /\
  mem st_corrupted !! 2%nat
  = Some (mkRBNode (Some 4%nat) None None 10 BLACK) /\
  mem st_corrupted !! 3%nat
  = Some (mkRBNode (Some 3%nat) None None 30 BLACK) /\
  parent <$> (mem st_corrupted !! 3%nat) <> Some (Some 4%nat) /\
  (forall T, ~ wf st_corrupted T).
Proof.
  split; [vm_compute; reflexivity|].
  split; [exact wf_20_10_30_25|].
  do 4 (split; [vm_compute; reflexivity|]).
  split.
  { eexists. split; vm_compute; reflexivity. }
  do 6 (split; [vm_compute; reflexivity|]).
  split; [vm_compute; discriminate|].
  intros T.
  apply (self_parent_not_wf st_corrupted T 3%nat
           (mkRBNode (Some 3%nat) None None 30 BLACK));
    vm_compute; reflexivity.
Qed.
